(** * Graphic matroids: a shallow embedding of [sage/matroids/graphic_matroid.py]

    The class [GraphicMatroid] keeps a looped multigraph whose edge labels are
    the elements of the ground set.  This development embeds the constructor,
    the rank / independence / closure family and the structural edits of that
    class, together with a model of the parts of the graph engine
    ([sage.graphs.graph.Graph], [sage.sets.disjoint_set.DisjointSet]) that the
    class consumes, and states the properties of the specification over it. *)

From stdpp Require Import base list gmap sets sorting relations.
From Stdlib Require Import ZArith Lia.

Abbreviation vertex := nat (only parsing).
Abbreviation label := nat (only parsing).

(** ** Exceptions

    Every [raise ValueError(...)] of the source is one constructor; [KeyError]
    is the failed dictionary lookup of [_groundset_to_edges], and
    [AttributeError] the use of a reference that does not hold an object of
    the expected class. *)

Inductive error : Set :=
  | NotASubset
  | NoCircuitInIndependentSet
  | NoCocircuitInCoindependentSet
  | DuplicateElement
  | ExpectedTwoSeparation
  | Expected1Separation
  | TooManySharedVertices
  | VerticesMustExist
  | FirstVertexNotSpanned
  | SecondVertexNotSpanned
  | KeyError
  | AttributeError.

Inductive result (A : Type) : Type :=
  | Ok (a : A)
  | Raise (e : error).
Arguments Ok {A} a.
Arguments Raise {A} e.

#[global] Instance result_ret : MRet result := @Ok.
#[global] Instance result_bind : MBind result := λ A B f r,
  match r with Ok a => f a | Raise e => Raise e end.
#[global] Instance result_fmap : FMap result := λ A B f r,
  match r with Ok a => Ok (f a) | Raise e => Raise e end.

Definition is_Ok {A} (r : result A) : Prop :=
  match r with Ok _ => True | Raise _ => False end.

(** ** The graph engine *)

(** Labels are ordered through a key, as Python orders the label component of
    an edge triple; [None] sorts before every element. *)
Class LabelKey (L : Type) := label_key : L → nat.
#[global] Instance label_key_elt : LabelKey nat := λ l, l.
#[global] Instance label_key_opt : LabelKey (option nat) := λ o,
  match o with None => 0 | Some l => S l end.

Module Graph.

(** Modelled from the spec: the external graph engine ("construct a
    connected multigraph with loops and labeled edges; query vertex list,
    edge list, ...; count connected components; mutate via add/delete
    edge").  A graph value is its sorted vertex list and its sorted list of
    edge triples [(u, v, l)] with [u <= v], which is what [vertices()] and
    [edges()] return. *)
Record t (L : Type) : Type := Make {
  vertices : list vertex;
  edges : list (vertex * vertex * L)
}.
Arguments Make {L} _ _.
Arguments vertices {L} _.
Arguments edges {L} _.

Section engine.
Context {L : Type} `{!EqDecision L, !LabelKey L}.
Implicit Types (g : t L) (e : vertex * vertex * L).

Definition src e : vertex := e.1.1.
Definition dst e : vertex := e.1.2.
Definition lbl e : L := e.2.
Definition ends e : vertex * vertex := e.1.

(** An undirected edge is reported with its smaller endpoint first. *)
Definition norm e : vertex * vertex * L :=
  (Nat.min (src e) (dst e), Nat.max (src e) (dst e), lbl e).

Definition edge_leb e1 e2 : bool :=
  if decide (src e1 < src e2) then true
  else if decide (src e2 < src e1) then false
  else if decide (dst e1 < dst e2) then true
  else if decide (dst e2 < dst e1) then false
  else bool_decide (label_key (lbl e1) ≤ label_key (lbl e2)).

Definition sort_edges (l : list (vertex * vertex * L)) :=
  merge_sort (λ e1 e2, edge_leb e1 e2) l.

Definition sort_vertices (l : list vertex) : list vertex :=
  merge_sort Nat.le (remove_dups l).

Definition endpoints (l : list (vertex * vertex * L)) : list vertex :=
  (src <$> l) ++ (dst <$> l).

(** Modelled from the spec: [Graph(edge_list, loops=True, multiedges=True)]
    of the engine ("construct a ... multigraph with loops and labeled
    edges"), with optional further (isolated) vertices. *)
Definition of_lists (vs : list vertex) (es : list (vertex * vertex * L)) : t L :=
  Make (sort_vertices (vs ++ endpoints es)) (sort_edges (norm <$> es)).

Definition of_edges (es : list (vertex * vertex * L)) : t L := of_lists [] es.

Definition num_verts g : nat := length (vertices g).
Definition num_edges g : nat := length (edges g).
Definition edge_labels g : list L := lbl <$> edges g.

Definition loops g : list (vertex * vertex * L) :=
  filter (λ e, src e = dst e) (edges g).

Definition edges_incident g (v : vertex) : list (vertex * vertex * L) :=
  filter (λ e, src e = v ∨ dst e = v) (edges g).

(** Modelled from the spec: [add_edge] of the engine ("mutate via add/delete
    edge"); it creates missing endpoints and keeps parallel edges. *)
Definition add_edge g e : t L :=
  Make (sort_vertices (src e :: dst e :: vertices g))
       (sort_edges (norm e :: edges g)).

Fixpoint remove_first (x : vertex * vertex * L) (l : list (vertex * vertex * L)) :=
  match l with
  | [] => []
  | y :: l' => if decide (x = y) then l' else y :: remove_first x l'
  end.

(** Modelled from the spec: [delete_edge] of the engine; it removes one copy
    of the edge and keeps the vertices, and ignores a missing edge. *)
Definition delete_edge g e : t L :=
  Make (vertices g) (remove_first (norm e) (edges g)).

Definition delete_edges g (l : list (vertex * vertex * L)) : t L :=
  foldl delete_edge g l.

Definition delete_vertex g (v : vertex) : t L :=
  Make (filter (λ w, w ≠ v) (vertices g))
       (filter (λ e, src e ≠ v ∧ dst e ≠ v) (edges g)).

(** Modelled from the spec: [add_vertex()] of the engine; without a name it
    picks the least unused natural. *)
Fixpoint fresh_from (fuel n : nat) (vs : list vertex) : vertex :=
  match fuel with
  | 0 => n
  | S fuel' => if decide (n ∈ vs) then fresh_from fuel' (S n) vs else n
  end.
Definition fresh_vertex g : vertex := fresh_from (S (num_verts g)) 0 (vertices g).
Definition add_vertex g : vertex * t L :=
  let v := fresh_vertex g in (v, Make (sort_vertices (v :: vertices g)) (edges g)).

Definition has_vertex g (v : vertex) : bool := bool_decide (v ∈ vertices g).

Definition rename_edge (f : vertex → vertex) e : vertex * vertex * L :=
  (f (src e), f (dst e), lbl e).

(** Modelled from the spec: [merge_vertices([u, v])] of the engine ("merge
    vertices"): [v] disappears into [u]. *)
Definition merge_vertices g (u v : vertex) : t L :=
  let f := λ x, if decide (x = v) then u else x in
  Make (sort_vertices (f <$> vertices g))
       (sort_edges (norm ∘ rename_edge f <$> edges g)).

(** Modelled from the spec: [split_vertex(G, u, v, edges)] of
    [sage.matroids.utilities] ("split a into a and a fresh vertex, moving
    X's a-incident edges onto the fresh vertex"): the listed edges at [u]
    are re-attached to [v]; a loop at [u] becomes an edge between [u] and
    [v]. *)
Definition split_edge (u v : vertex) e : vertex * vertex * L :=
  if decide (src e = u ∧ dst e = u) then (u, v, lbl e)
  else if decide (src e = u) then (v, dst e, lbl e)
  else if decide (dst e = u) then (src e, v, lbl e)
  else e.

Definition split_vertex g (u v : vertex) (es : list (vertex * vertex * L)) : t L :=
  foldl (λ g e, delete_edge (add_edge g (split_edge u v e)) e) g es.

End engine.

(** *** Disjoint sets *)

(** Modelled from the spec: "union-find over an arbitrary vertex set"
    ([sage.sets.disjoint_set.DisjointSet]): every element carries the
    representative of its block; [union] relabels one block. *)
Module DisjointSet.
Record t : Type := Make { elements : list vertex; find : vertex → vertex }.

Definition make (V : list vertex) : t := Make V (λ v, v).

Definition union (ds : t) (u v : vertex) : t :=
  let ru := find ds u in
  let rv := find ds v in
  if decide (ru = rv) then ds
  else Make (elements ds) (λ x, if decide (find ds x = ru) then rv else find ds x).

Definition roots (ds : t) : gset vertex := list_to_set (find ds <$> elements ds).

Definition number_of_subsets (ds : t) : nat := size (roots ds).

Definition union_all (ds : t) (es : list (vertex * vertex)) : t :=
  foldl (λ d uv, union d uv.1 uv.2) ds es.
End DisjointSet.

Section components.
Context {L : Type}.
Implicit Types (g : t L).

Definition pairs g : list (vertex * vertex) := fst <$> edges g.

(** The blocks of the vertex set, each in vertex order, in order of their
    least vertex. *)
Definition blocks (V : list vertex) (es : list (vertex * vertex)) : list (list vertex) :=
  let ds := DisjointSet.union_all (DisjointSet.make V) es in
  (λ r, filter (λ v, DisjointSet.find ds v = r) V)
    <$> remove_dups (DisjointSet.find ds <$> V).

(** The stable sort by decreasing length that orders the components. *)
Fixpoint insert_component (c : list vertex) (cs : list (list vertex)) : list (list vertex) :=
  match cs with
  | [] => [c]
  | d :: cs' =>
      if decide (length d ≤ length c) then c :: cs else d :: insert_component c cs'
  end.

Definition sort_components (cs : list (list vertex)) : list (list vertex) :=
  foldr insert_component [] cs.

(** Modelled from the spec: [connected_components()] of the engine ("count
    connected components"); the components come largest first, each in
    vertex order. *)
Definition connected_components g : list (list vertex) :=
  sort_components (blocks (vertices g) (pairs g)).

Definition connected_components_number g : nat :=
  length (connected_components g).

Definition is_connected g : bool :=
  bool_decide (vertices g = []) || bool_decide (connected_components_number g = 1).

(** Modelled from the spec: [is_forest()] of the engine ("test is forest"):
    as many vertices as edges plus components. *)
Definition is_forest g : bool :=
  bool_decide (length (vertices g) = length (edges g) + connected_components_number g).
End components.

Section contraction.
Context {L : Type} `{!EqDecision L, !LabelKey L}.

(** Modelled from the spec: [contract_edges] of the engine ("contract edge
    set"): the edges of the list that are present are removed and the
    endpoints of each are identified; every other edge follows its
    endpoints (and may become a loop). *)
Definition contract_edges (g : t L) (es : list (vertex * vertex * L)) : t L :=
  let edge_list := filter (λ e, norm e ∈ edges g) es in
  let DS := DisjointSet.union_all (DisjointSet.make (vertices g)) (ends <$> edge_list) in
  let g := delete_edges g edge_list in
  Make (sort_vertices (DisjointSet.find DS <$> vertices g))
       (sort_edges (norm ∘ rename_edge (DisjointSet.find DS) <$> edges g)).
End contraction.

End Graph.

Abbreviation Graph := Graph.t.

#[global] Arguments Graph.of_lists : simpl never.
#[global] Arguments Graph.of_edges : simpl never.
#[global] Arguments Graph.add_edge : simpl never.
#[global] Arguments Graph.delete_edge : simpl never.
#[global] Arguments Graph.add_vertex : simpl never.
#[global] Arguments Graph.split_vertex : simpl never.
#[global] Arguments Graph.merge_vertices : simpl never.
#[global] Arguments Graph.contract_edges : simpl never.
#[global] Arguments Graph.delete_edges : simpl never.
#[global] Arguments Graph.edges_incident : simpl never.
#[global] Arguments Graph.has_vertex : simpl never.
#[global] Arguments Graph.is_forest : simpl never.
#[global] Arguments Graph.connected_components : simpl never.
#[global] Arguments Graph.connected_components_number : simpl never.

Import Graph.

(** A graph with element labels, seen as constructor input: every label is
    present ([Some]). *)
Definition labelled (g : Graph label) : Graph (option label) :=
  Graph.Make (vertices g) ((λ e, (e.1, Some e.2)) <$> edges g).

(** ** The class [GraphicMatroid] *)

Record GraphicMatroid : Type := {
  _groundset : gset label;
  _vertex_map : gmap vertex vertex;
  _G : Graph label;
  _groundset_edge_map : gmap label (vertex * vertex)
}.

(** *** [__init__] *)

(** The [while len(comps) > 1] loop.  [comp] is the component just popped and
    [prev] the components before it, last one first: [v1 = comps[-1][-1]],
    [v2 = comp[0]], and the popped component is appended to its
    predecessor, which is popped next. *)
Fixpoint join_components (comp : list vertex) (prev : list (list vertex))
    (vertex_map : gmap vertex vertex) : gmap vertex vertex :=
  match prev with
  | [] => vertex_map
  | c :: prev' =>
      let v1 := default 0 (last c) in
      let v2 := default 0 (head comp) in
      join_components (c ++ comp) prev' (<[v2 := v1]> vertex_map)
  end.

Definition init_vertex_map (G : Graph (option label)) : gmap vertex vertex :=
  let vertex_map := list_to_map ((λ v, (v, v)) <$> vertices G) in
  match reverse (connected_components G) with
  | [] => vertex_map
  | comp :: prev => join_components comp prev vertex_map
  end.

(** The labels the constructor settles on: the supplied ones (by default the
    edge labels of [G]) unless [None] is among them or their number of
    distinct values is not the number of edges, in which case
    [range(G.num_edges())]. *)
Definition init_labels (G : Graph (option label)) (groundset : option (list (option label)))
    : list label :=
  let groundset := default (edge_labels G) groundset in
  let groundset_set : gset (option label) := list_to_set groundset in
  if decide (None ∈ groundset_set ∨ size groundset_set ≠ num_edges G)
  then seq 0 (num_edges G)
  else omap id groundset.

(** [vertex_map[v]], for a vertex [v] of the input graph (every vertex of the
    input graph is a key). *)
Definition lookup_vertex (vertex_map : gmap vertex vertex) (v : vertex) : vertex :=
  default v (vertex_map !! v).

Definition edge_map_of (es : list (vertex * vertex * label)) : gmap label (vertex * vertex) :=
  foldl (λ m e, <[lbl e := (src e, dst e)]> m) ∅ es.

Definition __init__ (G : Graph (option label)) (groundset : option (list (option label)))
    : GraphicMatroid :=
  let groundset := init_labels G groundset in
  let vertex_map := init_vertex_map G in
  let edge_list :=
    zip_with (λ e l, (lookup_vertex vertex_map (src e),
                      lookup_vertex vertex_map (dst e), l))
             (edges G) groundset in
  let G' := of_edges edge_list in
  {| _groundset := list_to_set groundset;
     _vertex_map := vertex_map;
     _G := G';
     _groundset_edge_map := edge_map_of (edges G') |}.

Section methods.
Implicit Types (M : GraphicMatroid) (X : gset label).

Definition groundset M : gset label := _groundset M.

(** *** Elements to edges *)

Fixpoint lookup_edges (m : gmap label (vertex * vertex)) (xs : list label)
    : result (list (vertex * vertex * label)) :=
  match xs with
  | [] => Ok []
  | x :: xs' =>
      match m !! x with
      | None => Raise KeyError
      | Some (v0, v1) => es ← lookup_edges m xs'; mret ((v0, v1, x) :: es)
      end
  end.

Definition _groundset_to_edges M X : result (list (vertex * vertex * label)) :=
  lookup_edges (_groundset_edge_map M) (elements X).

Definition groundset_to_edges M X : result (list (vertex * vertex * label)) :=
  if decide (X ⊆ _groundset M) then _groundset_to_edges M X else Raise NotASubset.

Definition _subgraph_from_set M X : result (Graph label) :=
  edge_list ← _groundset_to_edges M X; mret (of_edges edge_list).

Definition subgraph_from_set M X : result (Graph label) :=
  if decide (X ⊆ _groundset M) then _subgraph_from_set M X else Raise NotASubset.

(** [graph()] hands out a copy of the stored graph. *)
Definition graph M : Graph label := _G M.

(** *** Rank *)

Definition spanned (es : list (vertex * vertex * label)) : gset vertex :=
  list_to_set (src <$> es) ∪ list_to_set (dst <$> es).

Definition rank_of_edges (es : list (vertex * vertex * label)) : Z :=
  let vertices := spanned es in
  let DS_vertices :=
    DisjointSet.union_all (DisjointSet.make (elements vertices)) (ends <$> es) in
  (Z.of_nat (size vertices) - Z.of_nat (DisjointSet.number_of_subsets DS_vertices))%Z.

Definition _rank M X : result Z :=
  edges ← groundset_to_edges M X; mret (rank_of_edges edges).

(** Modelled from the spec: the public wrappers of the base class
    [Matroid], which is not part of this file ("validating subset
    membership and failing NotASubset otherwise"). *)
Definition validated {A} M X (f : GraphicMatroid → gset label → result A) : result A :=
  if decide (X ⊆ _groundset M) then f M X else Raise NotASubset.

Definition rank M X : result Z := validated M X _rank.

Definition _corank M X : result Z :=
  es ← _groundset_to_edges M X;
  let g := delete_edges (graph M) es in
  mret (Z.of_nat (size X) - (Z.of_nat (connected_components_number g) - 1))%Z.

(** *** Independence, circuits, closure *)

Definition _is_independent M X : result bool :=
  g ← _subgraph_from_set M X; mret (is_forest g).

Definition is_independent M X : result bool := validated M X _is_independent.

Definition closure_step (V : list vertex) (components : nat)
    (st : Graph label * gset label) (e : vertex * vertex * label)
    : Graph label * gset label :=
  let '(g, X) := st in
  if decide (src e ∈ V ∧ dst e ∈ V) then
    let g := add_edge g e in
    if decide (components ≤ connected_components_number g)
    then (g, {[lbl e]} ∪ X)
    else (delete_edge g e, X)
  else (g, X).

Definition _closure M X : result (gset label) :=
  let Y := _groundset M ∖ X in
  edgelist ← _groundset_to_edges M Y;
  g ← _subgraph_from_set M X;
  let V := vertices g in
  let components := connected_components_number g in
  let '(_, X) := foldl (closure_step V components) (g, X) edgelist in
  mret (X ∪ list_to_set (lbl <$> loops (_G M))).

Definition closure M X : result (gset label) := validated M X _closure.

Definition circuit_step (st : Graph label * gset label) (e : vertex * vertex * label)
    : Graph label * gset label :=
  let '(g, circuit) := st in
  let g := delete_edge g e in
  if is_forest g then (add_edge g e, {[lbl e]} ∪ circuit) else (g, circuit).

Definition _circuit M X : result (gset label) :=
  g ← _subgraph_from_set M X;
  if is_forest g then Raise NoCircuitInIndependentSet
  else mret (foldl circuit_step (g, ∅) (edges g)).2.

Definition circuit M X : result (gset label) := validated M X _circuit.

Definition both_spanned (vertex_set : gset vertex) (e : vertex * vertex * label) : bool :=
  bool_decide (src e ∈ vertex_set ∧ dst e ∈ vertex_set).

Definition _is_closed M X : result bool :=
  let loop_labels : gset label := list_to_set (lbl <$> loops (_G M)) in
  if decide (loop_labels ⊆ X) then
    let X := X ∖ loop_labels in
    edge_list ← _groundset_to_edges M X;
    let Y := _groundset M ∖ X in
    edge_list2 ← _groundset_to_edges M Y;
    let vertex_set := spanned edge_list in
    mret (negb (existsb (both_spanned vertex_set) edge_list2))
  else mret false.

Definition is_closed M X : result bool := validated M X _is_closed.

Definition coclosure_step (components : nat) (st : Graph label * gset label)
    (e : vertex * vertex * label) : Graph label * gset label :=
  let '(g, X) := st in
  let g := delete_edge g e in
  let X := if decide (components < connected_components_number g)
           then {[lbl e]} ∪ X else X in
  (add_edge g e, X).

Definition _coclosure M X : result (gset label) :=
  es ← _groundset_to_edges M X;
  let g := delete_edges (graph M) es in
  let components := connected_components_number g in
  let Y := _groundset M ∖ X in
  edgelist ← _groundset_to_edges M Y;
  mret (foldl (coclosure_step components) (g, X) edgelist).2.

(** *** Comparison *)

Definition _vertex_stars M : gset (gset label) :=
  list_to_set ((λ v, list_to_set (lbl <$> edges_incident (_G M) v)) <$> vertices (_G M)).

(** The built-in [hash] of a frozenset is some function of its value. *)
Context (hash : gset (gset label) → Z).

Definition __hash__ M : Z := hash (_vertex_stars M).

(** What [other] can be in [M == other]: a graphic matroid, a matroid of
    another class built from a graph (for instance a [RegularMatroid]), or
    anything else. *)
Inductive object : Type :=
  | GraphicMatroid_instance (N : GraphicMatroid)
  | RegularMatroid_instance (G : Graph label)
  | other_instance (n : nat).

(** Modelled from the spec: equality of graphs in the engine ("same
    vertex/edge/label structure"; the graphs are built with
    [weighted=True], so labels count). *)
Definition Graph_eq (G H : Graph label) : bool :=
  bool_decide (vertices G = vertices H) && bool_decide (edges G = edges H).

Definition __eq__ M (other : object) : bool :=
  match other with
  | GraphicMatroid_instance N => Graph_eq (_G M) (_G N)
  | _ => false
  end.

Definition __ne__ M (other : object) : bool := negb (__eq__ M other).

(** *** Structural edits *)

Definition _minor M (contractions deletions : gset label) : result GraphicMatroid :=
  let g := graph M in
  cont_edges ← _groundset_to_edges M contractions;
  del_edges ← _groundset_to_edges M deletions;
  let g := delete_edges g del_edges in
  let g := contract_edges g cont_edges in
  mret (__init__ (labelled g) None).

(** Modelled from the spec: [newlabel] of [sage.matroids.utilities]
    ("freshLabel(usedLabels) -> label ∉ usedLabels"). *)
Definition newlabel (used : gset label) : label := fresh used.

Definition new_element M (element : option label) : result label :=
  match element with
  | None => Ok (newlabel (groundset M))
  | Some x => if decide (x ∈ groundset M) then Raise DuplicateElement else Ok x
  end.

Definition graphic_extension M (u : vertex) (v : option vertex) (element : option label)
    : result GraphicMatroid :=
  element ← new_element M element;
  let v := default u v in
  let G := add_edge (graph M) (u, v, element) in
  mret (__init__ (labelled G) None).

(** Modelled from the spec: [connectivity] of the base class [Matroid], the
    connectivity value [r(S) + r(E - S) - r(E)] of the separation
    [(S, E - S)]. *)
Definition connectivity M X : result Z :=
  rS ← rank M X;
  rT ← rank M (groundset M ∖ X);
  rE ← rank M (groundset M);
  mret (rS + rT - rE)%Z.

Definition swap (a b x : vertex) : vertex :=
  if decide (x = a) then b else if decide (x = b) then a else x.

Definition twist_step (a b : vertex) (G : Graph label) (e : vertex * vertex * label)
    : Graph label :=
  add_edge (delete_edge G e) (swap a b (src e), swap a b (dst e), lbl e).

Definition twist M X : result GraphicMatroid :=
  if decide (X ⊆ groundset M) then
    connectivity ← connectivity M X;
    if decide (connectivity ≠ 1%Z) then Raise ExpectedTwoSeparation
    else
      X_edges ← groundset_to_edges M X;
      let X_vertices := spanned X_edges in
      Y_edges ← groundset_to_edges M (groundset M ∖ X);
      let Y_vertices := spanned Y_edges in
      let vertices := X_vertices ∩ Y_vertices in
      if decide (size vertices ≠ 2) then Raise TooManySharedVertices
      else
        let a := default 0 (elements vertices !! 0) in
        let b := default 0 (elements vertices !! 1) in
        let edges := filter (λ e, src e ∈ vertices ∨ dst e ∈ vertices) X_edges in
        let G := foldl (twist_step a b) (graph M) edges in
        mret (__init__ (labelled G) None)
  else Raise NotASubset.

Definition one_sum M X (u v : vertex) : result GraphicMatroid :=
  if decide (X ⊆ groundset M) then
    connectivity ← connectivity M X;
    if decide (connectivity ≠ 0%Z) then Raise Expected1Separation
    else
      let G := graph M in
      if negb (has_vertex G u && has_vertex G v) then Raise VerticesMustExist
      else
        X_edges ← groundset_to_edges M X;
        let X_vertices := spanned X_edges in
        if decide (u ∉ X_vertices) then Raise FirstVertexNotSpanned
        else
          Y_edges ← groundset_to_edges M (groundset M ∖ X);
          let Y_vertices := spanned Y_edges in
          if decide (v ∉ Y_vertices) then Raise SecondVertexNotSpanned
          else
            let vertices := X_vertices ∩ Y_vertices in
            if decide (size vertices ≠ 1) then Raise TooManySharedVertices
            else
              let a := default 0 (elements vertices !! 0) in
              let '(b, G) := add_vertex G in
              let edgeset := filter (λ e, e ∈ edges_incident G a) X_edges in
              let G := split_vertex G a b edgeset in
              let G := if decide (u = a) then merge_vertices G v b
                       else merge_vertices G v u in
              mret (__init__ (labelled G) None)
  else Raise NotASubset.

End methods.

(** ** Further methods *)

Section further_methods.
Implicit Types (M : GraphicMatroid) (X : gset label).

(** *** Copies, validity, the vertex map *)

(** [__copy__]: [GraphicMatroid(self._G)].  The custom name that the copy
    inherits belongs to the Sage object, not to the data kept here. *)
Definition __copy__ M : GraphicMatroid := __init__ (labelled (_G M)) None.

(** [__deepcopy__]: [GraphicMatroid(deepcopy(self._G, memo))]; on graph
    values a deep copy is the value itself. *)
Definition __deepcopy__ M : GraphicMatroid := __init__ (labelled (_G M)) None.

Definition is_valid M : bool := true.

(** [vertex_map()] hands out a copy of the dictionary. *)
Definition vertex_map M : gmap vertex vertex := _vertex_map M.

(** *** Bases and the dual family *)

(** Modelled from the spec: [is_cut_edge(u, v, l)] of the engine ("removing
    it would disconnect its two endpoints ... it is currently a cut
    edge/bridge"). *)
Definition is_cut_edge (g : Graph label) (e : vertex * vertex * label) : bool :=
  let g := delete_edge g e in
  let DS := DisjointSet.union_all (DisjointSet.make (vertices g)) (pairs g) in
  bool_decide (DisjointSet.find DS (src e) ≠ DisjointSet.find DS (dst e)).

Definition max_independent_step (st : Graph label * list label)
    (e : vertex * vertex * label) : Graph label * list label :=
  let '(G, ind_list) := st in
  if is_cut_edge G e then (G, ind_list ++ [lbl e]) else (delete_edge G e, ind_list).

Definition _max_independent M X : result (gset label) :=
  independent ← _is_independent M X;
  if (independent : bool) then mret X
  else
    edgelist ← _groundset_to_edges M X;
    G ← _subgraph_from_set M X;
    mret (list_to_set (foldl max_independent_step (G, []) edgelist).2).

Definition max_coindependent_step (st : Graph label * gset label)
    (e : vertex * vertex * label) : Graph label * gset label :=
  let '(g, res) := st in
  let g := delete_edge g e in
  if decide (1 < connected_components_number g) then (add_edge g e, res)
  else (g, {[lbl e]} ∪ res).

Definition _max_coindependent M X : result (gset label) :=
  let g := graph M in
  edgelist ← _groundset_to_edges M X;
  mret (foldl max_coindependent_step (g, ∅) edgelist).2.

Definition _is_coindependent M X : result bool :=
  let g := graph M in
  let components := connected_components_number g in
  es ← _groundset_to_edges M X;
  let g := delete_edges g es in
  mret (bool_decide (connected_components_number g = components)).

(** The first loop of [_cocircuit]: edges are deleted, and recorded, until
    the number of components has risen ([break]). *)
Fixpoint cocircuit_delete (components : nat) (g : Graph label)
    (edges codependent_edges : list (vertex * vertex * label))
    : Graph label * list (vertex * vertex * label) :=
  match edges with
  | [] => (g, codependent_edges)
  | e :: edges' =>
      let codependent_edges := codependent_edges ++ [e] in
      let g := delete_edge g e in
      if decide (components < connected_components_number g)
      then (g, codependent_edges)
      else cocircuit_delete components g edges' codependent_edges
  end.

Definition cocircuit_step (components : nat) (st : Graph label * gset label)
    (e : vertex * vertex * label) : Graph label * gset label :=
  let '(g, cocircuit) := st in
  let g := add_edge g e in
  let cocircuit :=
    if decide (connected_components_number g = components)
    then {[lbl e]} ∪ cocircuit else cocircuit in
  (delete_edge g e, cocircuit).

(** The two loops of [_cocircuit], on the list [edges] of the edges of
    [X]. *)
Definition cocircuit_loops (g : Graph label) (edges : list (vertex * vertex * label))
    : gset label :=
  let components := connected_components_number g in
  let '(g, codependent_edges) := cocircuit_delete components g edges [] in
  (foldl (cocircuit_step components) (g, ∅) codependent_edges).2.

Definition _cocircuit M X : result (gset label) :=
  coindependent ← _is_coindependent M X;
  if (coindependent : bool) then Raise NoCocircuitInCoindependentSet
  else
    let g := graph M in
    edges ← _groundset_to_edges M X;
    mret (cocircuit_loops g edges).

(** The second loop of [_is_cocircuit], which returns [False] at the first
    edge that does not repair the components. *)
Fixpoint is_cocircuit_repairs (components : nat) (g : Graph label)
    (edges : list (vertex * vertex * label)) : bool :=
  match edges with
  | [] => true
  | e :: edges' =>
      let g := add_edge g e in
      if decide (connected_components_number g = components)
      then is_cocircuit_repairs components (delete_edge g e) edges'
      else false
  end.

Definition _is_cocircuit M X : result bool :=
  edges ← _groundset_to_edges M X;
  let g := graph M in
  let components := connected_components_number g in
  let g := delete_edges g edges in
  if decide (connected_components_number g = components + 1)
  then mret (is_cocircuit_repairs components g edges)
  else mret false.

(** *** Coextension *)



(** *** All extensions *)

(** [itertools.combinations(vertices, 2)] *)
Fixpoint combinations2 {A} (l : list A) : list (A * A) :=
  match l with
  | [] => []
  | x :: l' => ((λ y, (x, y)) <$> l') ++ combinations2 l'
  end.

(** What an enumerating method ends with: its list of matroids, the
    [ValueError] "vertices are not all in the graph", which only the
    enumerations raise, or another exception. *)
Inductive enumeration : Type :=
  | Enumerated (matroid_list : list GraphicMatroid)
  | VerticesNotAllInGraph
  | Failed (e : error).

Definition extensions_step (element : label) (st : Graph label * list GraphicMatroid)
    (p : vertex * vertex) : Graph label * list GraphicMatroid :=
  let '(G, matroid_list) := st in
  let G := add_edge G (p.1, p.2, element) in
  let matroid_list := matroid_list ++ [__init__ (labelled G) None] in
  (delete_edge G (p.1, p.2, element), matroid_list).

Definition graphic_extensions M (element : option label) (vertices : option (list vertex))
    : enumeration :=
  let G := graph M in
  match new_element M element with
  | Raise e => Failed e
  | Ok element =>
      let checked :=
        match vertices with
        | None => Some (Graph.vertices (_G M))
        | Some vertices =>
            if decide (Forall (λ v, v ∈ Graph.vertices (_G M)) vertices)
            then Some vertices else None
        end in
      match checked with
      | None => VerticesNotAllInGraph
      | Some [] =>
          let G := add_edge G (0, 0, element) in
          Enumerated [__init__ (labelled G) None]
      | Some (v0 :: rest) =>
          Enumerated (foldl (extensions_step element) (G, [])
                        ((v0, v0) :: combinations2 (v0 :: rest))).2
      end
  end.

End further_methods.

(** ** Sample matroids *)

Module Examples.
Definition unlabelled (l : list (vertex * vertex)) : Graph (option label) :=
  of_edges ((λ p, (p, None)) <$> l).

(** [Matroid(graphs.EmptyGraph())] *)
Definition empty : GraphicMatroid := __init__ (unlabelled []) None.
(** [Matroid(graphs.CycleGraph(3))] *)
Definition triangle : GraphicMatroid := __init__ (unlabelled [(0, 1); (0, 2); (1, 2)]) None.
(** One edge, between two different pairs of vertices. *)
Definition edge_0_1 : GraphicMatroid := __init__ (unlabelled [(0, 1)]) None.
Definition edge_5_6 : GraphicMatroid := __init__ (unlabelled [(5, 6)]) None.
(** [Matroid(Graph([(0, 0), (1, 1), (2, 2)], loops=True))]: three
    components, each a vertex with a loop. *)
Definition three_loops : GraphicMatroid :=
  __init__ (unlabelled [(0, 0); (1, 1); (2, 2)]) None.
(** [Matroid(Graph([(0, 0), (0, 1)], loops=True))]: a loop [0] on an
    endpoint of the edge [1]. *)
Definition loop_and_edge : GraphicMatroid := __init__ (unlabelled [(0, 0); (0, 1)]) None.
(** The first example of the docstring of [twist]. *)
Definition two_separation : GraphicMatroid :=
  __init__ (of_edges [(0, 1, Some 0); (1, 2, Some 1); (1, 2, Some 2); (2, 3, Some 3);
                  (2, 3, Some 4); (2, 3, Some 5); (3, 0, Some 6)]) None.
End Examples.

(** ** The object store

    The methods above compute with graph values.  The source, however, works
    on graph objects that it mutates in place ([add_edge], [delete_edge],
    [merge_vertices], ...).  Here the same methods are written over a store
    of objects: a matroid object refers to its graph object by location,
    [graph()] allocates a copy, and every mutation is an update of the store
    at the location of the graph it is applied to. *)

Module Store.

Inductive object : Type :=
  | Graph_object (g : Graph label)
  | Matroid_object (groundset : gset label) (vertex_map : gmap vertex vertex)
      (G : nat) (groundset_edge_map : gmap label (vertex * vertex)).

Abbreviation loc := nat (only parsing).
Abbreviation store := (gmap nat object).

(** A program runs on a store and ends with a value or an exception. *)
Definition prog (A : Type) : Type := store → result A * store.

Definition ret {A} (a : A) : prog A := λ σ, (Ok a, σ).

Definition bind {A B} (c : prog A) (k : A → prog B) : prog B := λ σ,
  match c σ with
  | (Ok a, σ') => k a σ'
  | (Raise e, σ') => (Raise e, σ')
  end.

#[global] Instance prog_ret : MRet prog := @ret.
#[global] Instance prog_bind : MBind prog := λ A B k c, bind c k.

(** A computation that does not touch the store. *)
Definition lift {A} (r : result A) : prog A := λ σ, (r, σ).

Definition alloc (o : object) : prog loc := λ σ,
  let l := fresh (dom σ) in (Ok l, <[l := o]> σ).

Definition read_graph (l : loc) : prog (Graph label) := λ σ,
  match σ !! l with
  | Some (Graph_object g) => (Ok g, σ)
  | _ => (Raise AttributeError, σ)
  end.

(** A mutating method of the graph at [l]. *)
Definition update_graph (l : loc) (f : Graph label → Graph label) : prog unit := λ σ,
  match σ !! l with
  | Some (Graph_object g) => (Ok tt, <[l := Graph_object (f g)]> σ)
  | _ => (Raise AttributeError, σ)
  end.

(** [G.add_vertex()] returns the new vertex. *)
Definition add_vertex_at (l : loc) : prog vertex := λ σ,
  match σ !! l with
  | Some (Graph_object g) => (Ok (add_vertex g).1, <[l := Graph_object (add_vertex g).2]> σ)
  | _ => (Raise AttributeError, σ)
  end.

(** The matroid at [self], with the current value of its graph. *)
Definition view (σ : store) (self : loc) : option GraphicMatroid :=
  match σ !! self with
  | Some (Matroid_object groundset vertex_map G groundset_edge_map) =>
      match σ !! G with
      | Some (Graph_object g) =>
          Some {| _groundset := groundset; _vertex_map := vertex_map; _G := g;
                  _groundset_edge_map := groundset_edge_map |}
      | _ => None
      end
  | _ => None
  end.

Definition read_self (self : loc) : prog GraphicMatroid := λ σ,
  match view σ self with
  | Some M => (Ok M, σ)
  | None => (Raise AttributeError, σ)
  end.

Fixpoint for_each {A} (xs : list A) (body : A → prog unit) : prog unit :=
  match xs with
  | [] => ret tt
  | x :: xs' => _ ← body x; for_each xs' body
  end.

Fixpoint fold_each {A B} (xs : list A) (body : B → A → prog B) (b : B) : prog B :=
  match xs with
  | [] => ret b
  | x :: xs' => b' ← body b x; fold_each xs' body b'
  end.

(** [GraphicMatroid(G)]: the constructor reads [G] and builds a graph object
    of its own. *)
Definition GraphicMatroid_new (G : loc) (groundset : option (list (option label)))
    : prog loc :=
  g ← read_graph G;
  let M := __init__ (labelled g) groundset in
  G' ← alloc (Graph_object (_G M));
  alloc (Matroid_object (_groundset M) (_vertex_map M) G' (_groundset_edge_map M)).

(** [self.graph()]: [self._G.copy(data_structure='sparse')]. *)
Definition graph_at (self : loc) : prog loc :=
  M ← read_self self; alloc (Graph_object (_G M)).

Definition _subgraph_from_set_at (self : loc) (X : gset label) : prog loc :=
  M ← read_self self;
  edge_list ← lift (_groundset_to_edges M X);
  alloc (Graph_object (of_edges edge_list)).

Definition rank_at (self : loc) (X : gset label) : prog Z :=
  M ← read_self self; lift (rank M X).

Definition closure_body (g : loc) (V : list vertex) (components : nat)
    (X : gset label) (e : vertex * vertex * label) : prog (gset label) :=
  if decide (src e ∈ V ∧ dst e ∈ V) then
    _ ← update_graph g (λ g, add_edge g e);
    g' ← read_graph g;
    if decide (components ≤ connected_components_number g')
    then ret ({[lbl e]} ∪ X)
    else _ ← update_graph g (λ g, delete_edge g e); ret X
  else ret X.

Definition _closure_at (self : loc) (X : gset label) : prog (gset label) :=
  M ← read_self self;
  let Y := _groundset M ∖ X in
  edgelist ← lift (_groundset_to_edges M Y);
  g ← _subgraph_from_set_at self X;
  g0 ← read_graph g;
  let V := vertices g0 in
  let components := connected_components_number g0 in
  X ← fold_each edgelist (closure_body g V components) X;
  M ← read_self self;
  ret (X ∪ list_to_set (lbl <$> loops (_G M))).

Definition closure_at (self : loc) (X : gset label) : prog (gset label) :=
  M ← read_self self;
  if decide (X ⊆ _groundset M) then _closure_at self X else lift (Raise NotASubset).

Definition _minor_at (self : loc) (contractions deletions : gset label) : prog loc :=
  M ← read_self self;
  g ← graph_at self;
  cont_edges ← lift (_groundset_to_edges M contractions);
  del_edges ← lift (_groundset_to_edges M deletions);
  _ ← update_graph g (λ g, delete_edges g del_edges);
  _ ← update_graph g (λ g, contract_edges g cont_edges);
  GraphicMatroid_new g None.

Definition graphic_extension_at (self : loc) (u : vertex) (v : option vertex)
    (element : option label) : prog loc :=
  M ← read_self self;
  element ← lift (new_element M element);
  let v := default u v in
  G ← graph_at self;
  _ ← update_graph G (λ g, add_edge g (u, v, element));
  GraphicMatroid_new G None.

Definition twist_body (G : loc) (a b : vertex) (e : vertex * vertex * label) : prog unit :=
  _ ← update_graph G (λ g, delete_edge g e);
  update_graph G (λ g, add_edge g (swap a b (src e), swap a b (dst e), lbl e)).

Definition twist_at (self : loc) (X : gset label) : prog loc :=
  M ← read_self self;
  if decide (X ⊆ groundset M) then
    connectivity ← lift (connectivity M X);
    if decide (connectivity ≠ 1%Z) then lift (Raise ExpectedTwoSeparation)
    else
      _ ← graph_at self;
      X_edges ← lift (groundset_to_edges M X);
      let X_vertices := spanned X_edges in
      Y_edges ← lift (groundset_to_edges M (groundset M ∖ X));
      let Y_vertices := spanned Y_edges in
      let vertices := X_vertices ∩ Y_vertices in
      if decide (size vertices ≠ 2) then lift (Raise TooManySharedVertices)
      else
        let a := default 0 (elements vertices !! 0) in
        let b := default 0 (elements vertices !! 1) in
        let edges := filter (λ e, src e ∈ vertices ∨ dst e ∈ vertices) X_edges in
        G ← graph_at self;
        _ ← for_each edges (twist_body G a b);
        GraphicMatroid_new G None
  else lift (Raise NotASubset).

Definition one_sum_at (self : loc) (X : gset label) (u v : vertex) : prog loc :=
  M ← read_self self;
  if decide (X ⊆ groundset M) then
    connectivity ← lift (connectivity M X);
    if decide (connectivity ≠ 0%Z) then lift (Raise Expected1Separation)
    else
      G ← graph_at self;
      g ← read_graph G;
      if negb (has_vertex g u && has_vertex g v) then lift (Raise VerticesMustExist)
      else
        X_edges ← lift (groundset_to_edges M X);
        let X_vertices := spanned X_edges in
        if decide (u ∉ X_vertices) then lift (Raise FirstVertexNotSpanned)
        else
          Y_edges ← lift (groundset_to_edges M (groundset M ∖ X));
          let Y_vertices := spanned Y_edges in
          if decide (v ∉ Y_vertices) then lift (Raise SecondVertexNotSpanned)
          else
            let vertices := X_vertices ∩ Y_vertices in
            if decide (size vertices ≠ 1) then lift (Raise TooManySharedVertices)
            else
              let a := default 0 (elements vertices !! 0) in
              b ← add_vertex_at G;
              g ← read_graph G;
              let edgeset := filter (λ e, e ∈ edges_incident g a) X_edges in
              _ ← update_graph G (λ g, split_vertex g a b edgeset);
              _ ← (if decide (u = a) then update_graph G (λ g, merge_vertices g v b)
                   else update_graph G (λ g, merge_vertices g v u));
              GraphicMatroid_new G None
  else lift (Raise NotASubset).

(** What the specification asks of a query run from the store [σ] on the
    receiver [self], whose value is [M]: it answers as the method on values
    does, and every object of [σ], the receiver and its graph among them, is
    still there unchanged. *)
Definition query_ok {A} (σ : store) (self : loc) (M : GraphicMatroid)
    (c : prog A) (answer : result A) : Prop :=
  (c σ).1 = answer ∧ σ ⊆ (c σ).2 ∧ view (c σ).2 self = Some M.

(** And of a structural edit: moreover the matroid it returns is a new
    object with a new graph object, holding the result of the method on
    values. *)
Definition edit_post (σ : store) (self : loc) (M : GraphicMatroid)
    (out : result loc * store) (answer : result GraphicMatroid) : Prop :=
  σ ⊆ out.2 ∧ view out.2 self = Some M ∧
  match out.1 with
  | Ok new =>
      σ !! new = None ∧
      ∃ M' groundset vertex_map G groundset_edge_map,
        answer = Ok M' ∧ view out.2 new = Some M' ∧
        out.2 !! new = Some (Matroid_object groundset vertex_map G groundset_edge_map) ∧
        σ !! G = None
  | Raise e => answer = Raise e
  end.

Definition edit_ok (σ : store) (self : loc) (M : GraphicMatroid) (c : prog loc)
    (answer : result GraphicMatroid) : Prop :=
  edit_post σ self M (c σ) answer.

(** A store with the matroid of the triangle at location [1], its graph at
    location [0]. *)
Definition sample : store :=
  {[ 0 := Graph_object (_G Examples.triangle);
     1 := Matroid_object (_groundset Examples.triangle) (_vertex_map Examples.triangle)
            0 (_groundset_edge_map Examples.triangle) ]}.

End Store.

(** [M.twist([0, 1, 2])] for the first example of the docstring of [twist]. *)
Definition twisted_example : GraphicMatroid :=
  match twist Examples.two_separation {[0; 1; 2]} with
  | Ok M' => M'
  | Raise _ => Examples.empty
  end.

(** ** Vocabulary of the specification *)

(** The vertices that the edges of [X] and the edges of its complement have
    in common. *)
Definition shared_vertices (M : GraphicMatroid) (X : gset label) : result (gset vertex) :=
  X_edges ← groundset_to_edges M X;
  Y_edges ← groundset_to_edges M (groundset M ∖ X);
  mret (spanned X_edges ∩ spanned Y_edges).

(** A coloop lies in every basis: removing it lowers the rank of the ground
    set (its edge is a bridge of the graph). *)
Definition is_coloop (M : GraphicMatroid) (x : label) : Prop :=
  x ∈ _groundset M ∧
  ∃ r, rank M (_groundset M) = Ok r ∧ rank M (_groundset M ∖ {[x]}) = Ok (r - 1)%Z.

(** A label of a loop of the graph. *)
Definition is_loop (M : GraphicMatroid) (L : label) : Prop :=
  ∃ u, (u, u, L) ∈ edges (_G M).

(** Two vertices are connected by a list of vertex pairs when a walk along
    the pairs, in either direction, leads from one to the other. *)
Definition adj (es : list (vertex * vertex)) (x y : vertex) : Prop :=
  (x, y) ∈ es ∨ (y, x) ∈ es.

Definition conn (es : list (vertex * vertex)) : relation vertex := rtc (adj es).

(** A disjoint-set structure over [V] represents the connectivity by [es]
    when two elements have the same representative exactly when they are
    connected. *)
Definition represents (V : list vertex) (ds : DisjointSet.t)
    (es : list (vertex * vertex)) : Prop :=
  DisjointSet.elements ds = V ∧
  ∀ x y, x ∈ V → y ∈ V → DisjointSet.find ds x = DisjointSet.find ds y ↔ conn es x y.

(** Two runs of unions take the same decisions: at every step the two ends
    are already connected in the one exactly when they are in the other. *)
Fixpoint agree (es1 es2 l1 l2 : list (vertex * vertex)) : Prop :=
  match l1, l2 with
  | [], [] => True
  | p1 :: l1', p2 :: l2' =>
      (conn es1 p1.1 p1.2 ↔ conn es2 p2.1 p2.2) ∧ agree (p1 :: es1) (p2 :: es2) l1' l2'
  | _, _ => False
  end.

(** A connectivity class of the vertices: non-empty, and holding with each
    of its members exactly the vertices connected to it. *)
Definition is_class (es : list (vertex * vertex)) (C : list vertex) : Prop :=
  C ≠ [] ∧ ∀ x, x ∈ C → ∀ y, y ∈ C ↔ conn es x y.

(** The vertex renaming that [join_components] leaves in the vertex map: the
    first vertex of each component (but the first-listed one) is sent to the
    last vertex of the component listed before it. *)
Fixpoint glue_key (comp : list vertex) (prev : list (list vertex)) (v : vertex)
    : option vertex :=
  match prev with
  | [] => None
  | c :: prev' =>
      match glue_key c prev' v with
      | Some t => Some t
      | None => if decide (v = default 0 (head comp)) then Some (default 0 (last c)) else None
      end
  end.

Definition glue (comp : list vertex) (prev : list (list vertex)) (v : vertex) : vertex :=
  default v (glue_key comp prev v).

(** A graph value as the engine keeps it: no repeated vertex, and the ends of
    every edge are vertices. *)
Definition graph_ok {L} (g : Graph L) : Prop :=
  NoDup (vertices g) ∧ ∀ e, e ∈ edges g → e.1.1 ∈ vertices g ∧ e.1.2 ∈ vertices g.

(** What a twist does to one edge: the edges of [X] have their ends [a] and
    [b] exchanged (and are stored smaller end first). *)
Definition twist_edge (a b : vertex) (X : gset label) (e : vertex * vertex * label)
    : vertex * vertex * label :=
  if decide (lbl e ∈ X) then norm (rename_edge (swap a b) e) else e.

(** Renaming the single vertex [h] to [t]. *)
Definition rename1 (h t : vertex) (x : vertex) : vertex :=
  if decide (x = h) then t else x.

(** The number of unions that join two different blocks. *)
Fixpoint merges (ds : DisjointSet.t) (es : list (vertex * vertex)) : nat :=
  match es with
  | [] => 0
  | uv :: es' =>
      (if decide (DisjointSet.find ds uv.1 = DisjointSet.find ds uv.2) then 0 else 1)
      + merges (DisjointSet.union ds uv.1 uv.2) es'
  end.

(** [H] is [G] with its vertices renamed by the injection [f], labels kept:
    an isomorphic copy of the labelled graph. *)
Definition isomorphic_by (f : vertex → vertex) (G H : Graph label) : Prop :=
  Inj (=) (=) f ∧ H = of_edges (rename_edge f <$> edges G).

(** What the constructor establishes: the element/edge bijection and a
    well-kept graph. *)

(** The documented precondition on the optional [groundset] argument: "a
    list in 1-1 correspondence with [G.edges()]". *)
Definition valid_groundset (G : Graph (option label))
    (groundset : option (list (option label))) : Prop :=
  match groundset with
  | None => True
  | Some l => length l = num_edges G
  end.

Record wf (M : GraphicMatroid) : Prop := {
  wf_labels : NoDup (lbl <$> edges (_G M));
  wf_groundset : _groundset M = list_to_set (lbl <$> edges (_G M));
  wf_edge_map : ∀ l u v,
    _groundset_edge_map M !! l = Some (u, v) ↔ (u, v, l) ∈ edges (_G M);
  wf_vertices : ∀ v,
    v ∈ vertices (_G M) ↔ ∃ e, e ∈ edges (_G M) ∧ (src e = v ∨ dst e = v);
  wf_vertices_nodup : NoDup (vertices (_G M));
  wf_norm : ∀ e, e ∈ edges (_G M) → norm e = e
}.

(** The number of pairs that join two classes when the pairs are taken one
    after the other: the size of a spanning forest. *)
Definition rk (P : list (vertex * vertex)) : nat :=
  merges (DisjointSet.make (P.*1 ++ P.*2)) P.

(** The graph [g] holds the vertices [V] and the edges [es], in some
    order. *)
Definition holds (g : Graph label) (V : list vertex)
    (es : list (vertex * vertex * label)) : Prop :=
  NoDup V ∧ vertices g ≡ₚ V ∧ edges g ≡ₚ es ∧
  ∀ e, e ∈ es → src e ∈ V ∧ dst e ∈ V.

(** The edges of the graph whose elements are in [X], and those whose
    elements are not, in the order of the graph. *)
Definition edges_within (M : GraphicMatroid) (X : gset label)
    : list (vertex * vertex * label) :=
  filter (λ e, lbl e ∈ X) (edges (_G M)).

Definition edges_without (M : GraphicMatroid) (X : gset label)
    : list (vertex * vertex * label) :=
  filter (λ e, lbl e ∉ X) (edges (_G M)).

(** The edges of the input graph, under the elements the constructor gives
    them and before any vertex is renamed. *)
Definition input_edges (G : Graph (option label)) (groundset : option (list (option label)))
    : list (vertex * vertex * label) :=
  zip_with (λ e l, (src e, dst e, l)) (edges G) (init_labels G groundset).

(** A graph value in the form the engine keeps: the sorted list of its
    vertices, the ends of the edges among them, and the sorted list of its
    edges, smaller end first. *)
Definition kept (g : Graph label) : Prop := g = of_lists (vertices g) (edges g).


(** * Properties *)

(** ** The engine: sorting keeps the content *)

Section engine_facts.
Context {L : Type} `{!EqDecision L, !LabelKey L}.
Implicit Types (e : vertex * vertex * L) (es : list (vertex * vertex * L)).

Lemma sort_edges_perm es : sort_edges es ≡ₚ es.
Proof. apply merge_sort_Permutation. Qed.

Lemma elem_of_sort_edges e es : e ∈ sort_edges es ↔ e ∈ es.
Proof. by rewrite sort_edges_perm. Qed.

Lemma elem_of_sort_vertices (v : vertex) (l : list vertex) :
  v ∈ sort_vertices l ↔ v ∈ l.
Proof.
  unfold sort_vertices. rewrite merge_sort_Permutation.
  apply elem_of_remove_dups.
Qed.

Lemma NoDup_sort_vertices (l : list vertex) : NoDup (sort_vertices l).
Proof.
  unfold sort_vertices. rewrite merge_sort_Permutation.
  apply NoDup_remove_dups.
Qed.

Lemma lbl_norm e : lbl (norm e) = lbl e.
Proof. done. Qed.

Lemma norm_ends e :
  (src (norm e) = src e ∧ dst (norm e) = dst e) ∨
  (src (norm e) = dst e ∧ dst (norm e) = src e).
Proof.
  unfold norm, src, dst; simpl.
  destruct (Nat.le_ge_cases e.1.1 e.1.2); [left|right]; lia.
Qed.

Lemma norm_idemp e : norm (norm e) = norm e.
Proof.
  unfold norm, src, dst, lbl; simpl. f_equal. f_equal; lia.
Qed.

Lemma elem_of_endpoints (v : vertex) es :
  v ∈ endpoints es ↔ ∃ e, e ∈ es ∧ (src e = v ∨ dst e = v).
Proof.
  unfold endpoints. rewrite elem_of_app, !list_elem_of_fmap. naive_solver.
Qed.

Lemma endpoints_norm (v : vertex) es :
  v ∈ endpoints (norm <$> es) ↔ v ∈ endpoints es.
Proof.
  rewrite !elem_of_endpoints. split.
  - intros (e & He & Hv). apply list_elem_of_fmap in He as (e' & -> & He').
    exists e'. split; [done|]. destruct (norm_ends e'); naive_solver.
  - intros (e & He & Hv). exists (norm e). split.
    + apply list_elem_of_fmap. eauto.
    + destruct (norm_ends e); naive_solver.
Qed.

Lemma of_edges_labels es : lbl <$> edges (of_edges es) ≡ₚ lbl <$> es.
Proof.
  simpl. rewrite sort_edges_perm, <- list_fmap_compose. done.
Qed.

Lemma elem_of_of_edges e es : e ∈ edges (of_edges es) ↔ ∃ e', e' ∈ es ∧ e = norm e'.
Proof.
  simpl. rewrite elem_of_sort_edges, list_elem_of_fmap. naive_solver.
Qed.

Lemma elem_of_vertices_of_edges (v : vertex) es :
  v ∈ vertices (of_edges es) ↔ v ∈ endpoints es.
Proof. simpl. apply elem_of_sort_vertices. Qed.

Lemma vertices_of_edges_spec (v : vertex) es :
  v ∈ vertices (of_edges es) ↔
  ∃ e, e ∈ edges (of_edges es) ∧ (src e = v ∨ dst e = v).
Proof.
  rewrite elem_of_vertices_of_edges, <- endpoints_norm, elem_of_endpoints.
  split; intros (e & He & Hv); exists e; (split; [|done]).
  - apply elem_of_of_edges. apply list_elem_of_fmap in He as (e' & -> & He').
    eauto.
  - apply elem_of_of_edges in He as (e' & He' & ->).
    apply list_elem_of_fmap. eauto.
Qed.

End engine_facts.

(** ** Finite sets and lists *)

Lemma size_list_to_set_le (l : list (option label)) :
  size (list_to_set l : gset (option label)) ≤ length l.
Proof.
  induction l as [|x l IH].
  - by rewrite list_to_set_nil, size_empty.
  - rewrite list_to_set_cons, size_union_alt, size_singleton. simpl.
    assert (size (list_to_set l ∖ {[x]} : gset (option label)) ≤ size (list_to_set l : gset (option label)))
      by (apply subseteq_size; set_solver).
    lia.
Qed.

Lemma NoDup_of_size (l : list (option label)) :
  size (list_to_set l : gset (option label)) = length l → NoDup l.
Proof.
  induction l as [|x l IH]; intros Hsz; [constructor|].
  rewrite list_to_set_cons in Hsz. simpl in Hsz.
  destruct (decide (x ∈ l)) as [Hx|Hx].
  - assert ({[x]} ∪ list_to_set l = (list_to_set l : gset (option label))) as Heq
      by set_solver.
    rewrite Heq in Hsz. pose proof (size_list_to_set_le l). lia.
  - constructor; [done|]. apply IH.
    rewrite size_union in Hsz by set_solver. rewrite size_singleton in Hsz. lia.
Qed.

Lemma omap_id_Some (l : list (option label)) :
  None ∉ l → Some <$> omap id l = l.
Proof.
  induction l as [|[x|] l IH]; simpl; intros Hn; [done| |].
  - f_equal. apply IH. set_solver.
  - set_solver.
Qed.

(** ** The constructor establishes the element/edge bijection *)

Lemma init_labels_spec G groundset :
  valid_groundset G groundset →
  NoDup (init_labels G groundset) ∧ length (init_labels G groundset) = num_edges G.
Proof.
  intros Hvalid. unfold init_labels.
  set (gs := default (edge_labels G) groundset).
  assert (length gs = num_edges G) as Hlen.
  { subst gs. destruct groundset as [l|]; simpl in *; [done|].
    unfold edge_labels, num_edges. by rewrite length_fmap. }
  case_decide as Hd.
  - split; [apply NoDup_seq|by rewrite length_seq].
  - assert (None ∉ gs) as Hnone'.
    { intros Hin. apply Hd. left. by apply elem_of_list_to_set. }
    assert (size (list_to_set gs : gset (option label)) = num_edges G) as Hsize.
    { destruct (decide (size (list_to_set gs : gset (option label)) = num_edges G));
        [done|]. exfalso. apply Hd. by right. }
    assert (NoDup gs) as Hnd by (apply NoDup_of_size; lia).
    pose proof (omap_id_Some gs Hnone') as Heq.
    split.
    + apply (NoDup_fmap_1 Some). by rewrite Heq.
    + rewrite <- Hlen. rewrite <- Heq at 2. by rewrite length_fmap.
Qed.

Lemma edge_map_of_snoc es e :
  edge_map_of (es ++ [e]) = <[lbl e := (src e, dst e)]> (edge_map_of es).
Proof. unfold edge_map_of. by rewrite foldl_snoc. Qed.

Lemma edge_map_of_lookup es l u v :
  NoDup (lbl <$> es) →
  edge_map_of es !! l = Some (u, v) ↔ (u, v, l) ∈ es.
Proof.
  induction es as [|e es IH] using rev_ind; intros Hnd.
  - unfold edge_map_of; simpl. rewrite lookup_empty. set_solver.
  - rewrite edge_map_of_snoc. rewrite fmap_app in Hnd.
    apply NoDup_app in Hnd as (Hnd & Hdisj & _).
    rewrite elem_of_app, list_elem_of_singleton.
    destruct (decide (lbl e = l)) as [<-|Hne].
    + rewrite lookup_insert_eq. split.
      * intros [= <- <-]. right. by destruct e as [[??]?].
      * intros [Hin|Heq]; [|by rewrite <- Heq].
        exfalso. apply (Hdisj (lbl e)); [|set_solver].
        apply list_elem_of_fmap. by exists (u, v, lbl e).
    + rewrite lookup_insert_ne by done. rewrite IH by done.
      split; [by left|]. intros [?|Heq]; [done|]. destruct Hne. by rewrite <- Heq.
Qed.

Lemma init_wf G groundset : valid_groundset G groundset → wf (__init__ G groundset).
Proof.
  intros Hvalid. destruct (init_labels_spec G groundset Hvalid) as [Hnd Hlen].
  unfold __init__.
  set (labels := init_labels G groundset) in *.
  set (vm := init_vertex_map G).
  set (f := λ (e : vertex * vertex * option label) (l : label),
         (lookup_vertex vm (src e), lookup_vertex vm (dst e), l)).
  assert (lbl <$> zip_with f (edges G) labels = labels) as Hlbl.
  { unfold num_edges in Hlen. revert Hlen. generalize (edges G). clear.
    induction labels as [|l ls IH]; intros [|e es]; simpl; intros; try done.
    f_equal. apply IH. lia. }
  split; cbn [_G _groundset _groundset_edge_map].
  - rewrite of_edges_labels, Hlbl. done.
  - apply set_eq. intros x. rewrite !elem_of_list_to_set.
    by rewrite of_edges_labels, Hlbl.
  - intros l u v. apply edge_map_of_lookup.
    rewrite of_edges_labels, Hlbl. done.
  - intros v. apply (vertices_of_edges_spec v).
  - apply NoDup_sort_vertices.
  - intros e (e' & _ & ->)%elem_of_of_edges. apply norm_idemp.
Qed.

(** ** Elements to edges *)

Lemma lookup_edges_spec (m : gmap label (vertex * vertex)) (xs : list label) :
  (∀ x, x ∈ xs → is_Some (m !! x)) →
  ∃ es, lookup_edges m xs = Ok es ∧ lbl <$> es = xs ∧
        ∀ e, e ∈ es → m !! lbl e = Some (src e, dst e).
Proof.
  induction xs as [|x xs IH]; intros Hin.
  - exists []. split_and!; [done..|]. intros e He. by apply elem_of_nil in He.
  - destruct IH as (es & Hes & Hl & Hm); [set_solver|].
    destruct (Hin x) as [[v0 v1] Hx]; [set_solver|].
    exists ((v0, v1, x) :: es). simpl. rewrite Hx, Hes. simpl.
    split_and!; [done|by f_equal|].
    intros e [->|He]%elem_of_cons; [done|by apply Hm].
Qed.

Lemma lookup_edges_Ok_inv (m : gmap label (vertex * vertex)) xs es :
  lookup_edges m xs = Ok es →
  lbl <$> es = xs ∧ ∀ e, e ∈ es → m !! lbl e = Some (src e, dst e).
Proof.
  revert es. induction xs as [|x xs IH]; simpl; intros es.
  - intros [= <-]. split; [done|]. intros e He. by apply elem_of_nil in He.
  - destruct (m !! x) as [[v0 v1]|] eqn:Hx; [|done].
    destruct (lookup_edges m xs) as [es'|] eqn:Hes; [|done]. simpl.
    intros [= <-]. destruct (IH es' eq_refl) as [Hl Hm]. split.
    + simpl. by f_equal.
    + intros e [->|He]%elem_of_cons; [done|by apply Hm].
Qed.

Section elements_to_edges.
Context (M : GraphicMatroid) (Hwf : wf M).
Implicit Types (X : gset label).

Lemma elem_of_groundset l :
  l ∈ _groundset M ↔ ∃ e, e ∈ edges (_G M) ∧ lbl e = l.
Proof.
  rewrite (wf_groundset M Hwf), elem_of_list_to_set, list_elem_of_fmap.
  naive_solver.
Qed.

Lemma edge_map_defined l : l ∈ _groundset M → is_Some (_groundset_edge_map M !! l).
Proof.
  intros ([[u v] l'] & He & <-)%elem_of_groundset.
  exists (u, v). by apply (wf_edge_map M Hwf).
Qed.

Lemma _groundset_to_edges_spec X :
  X ⊆ _groundset M →
  ∃ es, _groundset_to_edges M X = Ok es ∧ lbl <$> es = elements X ∧
        ∀ e, e ∈ es ↔ e ∈ edges (_G M) ∧ lbl e ∈ X.
Proof.
  intros HX. unfold _groundset_to_edges.
  destruct (lookup_edges_spec (_groundset_edge_map M) (elements X))
    as (es & Hes & Hl & Hm).
  { intros x Hx%elem_of_elements. apply edge_map_defined. set_solver. }
  exists es. split_and!; [done..|]. intros e. split.
  - intros He. split.
    + pose proof (Hm _ He) as Hm'. destruct e as [[u v] l].
      by apply (wf_edge_map M Hwf) in Hm'.
    + apply elem_of_elements. rewrite <- Hl. apply list_elem_of_fmap. eauto.
  - intros [He Hx]. apply elem_of_elements in Hx. rewrite <- Hl in Hx.
    apply list_elem_of_fmap in Hx as (e' & Heq & He').
    assert (e' = e) as <-; [|done].
    pose proof (Hm _ He') as Hm'. apply (wf_edge_map M Hwf) in Hm'.
    destruct e as [[u v] l], e' as [[u' v'] l']. unfold lbl in Heq; simpl in *. subst l'.
    apply (wf_edge_map M Hwf) in He, Hm'. unfold src, dst in Hm'; simpl in Hm'. congruence.
Qed.

Lemma groundset_to_edges_spec X :
  X ⊆ _groundset M →
  ∃ es, groundset_to_edges M X = Ok es ∧ lbl <$> es = elements X ∧
        ∀ e, e ∈ es ↔ e ∈ edges (_G M) ∧ lbl e ∈ X.
Proof.
  intros HX. unfold groundset_to_edges. rewrite decide_True by done.
  by apply _groundset_to_edges_spec.
Qed.

Lemma _groundset_to_edges_length X es :
  _groundset_to_edges M X = Ok es → length es = size X.
Proof.
  intros [Hl _]%lookup_edges_Ok_inv.
  by rewrite <- (length_fmap lbl), Hl.
Qed.

End elements_to_edges.

(** ** Equality and hashing *)

Lemma Graph_eq_spec (G H : Graph label) : Graph_eq G H = true ↔ G = H.
Proof.
  unfold Graph_eq. rewrite andb_true_iff, !bool_decide_eq_true.
  destruct G, H; simpl. naive_solver.
Qed.

Lemma elem_of_edges_incident (G : Graph label) (v : vertex) e :
  e ∈ edges_incident G v ↔ e ∈ edges G ∧ (src e = v ∨ dst e = v).
Proof. unfold edges_incident. rewrite list_elem_of_filter. naive_solver. Qed.

Lemma elem_of_vertex_stars M S :
  S ∈ _vertex_stars M ↔
  ∃ v, v ∈ vertices (_G M) ∧
       S = list_to_set (lbl <$> edges_incident (_G M) v).
Proof.
  unfold _vertex_stars. rewrite elem_of_list_to_set, list_elem_of_fmap.
  naive_solver.
Qed.

Lemma star_renamed (f : vertex → vertex) (G : Graph label) (v : vertex) :
  Inj (=) (=) f →
  (list_to_set (lbl <$> edges_incident (of_edges (rename_edge f <$> edges G)) (f v))
     : gset label)
  = list_to_set (lbl <$> edges_incident G v).
Proof.
  intros Hinj. apply set_eq. intros l.
  rewrite !elem_of_list_to_set, !list_elem_of_fmap. split.
  - intros (e' & -> & [He' Hv]%elem_of_edges_incident).
    apply elem_of_of_edges in He' as (e1 & He1 & ->).
    apply list_elem_of_fmap in He1 as (e & -> & He).
    exists e. split; [done|]. apply elem_of_edges_incident. split; [done|].
    destruct (norm_ends (rename_edge f e)) as [[Hs Hd]|[Hs Hd]];
      rewrite Hs, Hd in Hv; unfold rename_edge, src, dst in Hv; simpl in Hv;
      destruct Hv as [Hv|Hv]; apply Hinj in Hv; auto.
  - intros (e & -> & [He Hv]%elem_of_edges_incident).
    exists (norm (rename_edge f e)). split; [done|].
    apply elem_of_edges_incident. split.
    + apply elem_of_of_edges. exists (rename_edge f e). split; [|done].
      apply list_elem_of_fmap. eauto.
    + destruct (norm_ends (rename_edge f e)) as [[Hs Hd]|[Hs Hd]];
        rewrite Hs, Hd; unfold rename_edge, src, dst; simpl;
        destruct Hv as [<-|<-]; auto.
Qed.

Lemma vertex_stars_isomorphic (f : vertex → vertex) M N :
  wf M → isomorphic_by f (_G M) (_G N) → _vertex_stars M = _vertex_stars N.
Proof.
  intros Hwf [Hinj HN]. apply set_eq. intros S.
  rewrite !elem_of_vertex_stars, HN.
  assert (∀ v', v' ∈ vertices (of_edges (rename_edge f <$> edges (_G M))) ↔
                ∃ v, v ∈ vertices (_G M) ∧ v' = f v) as Hverts.
  { intros v'. rewrite elem_of_vertices_of_edges, elem_of_endpoints. split.
    - intros (e' & (e & -> & He)%list_elem_of_fmap & Hv').
      destruct Hv' as [<-|<-]; [exists (src e)|exists (dst e)];
        (split; [apply (wf_vertices M Hwf); eauto|done]).
    - intros (v & (e & He & Hv)%(wf_vertices M Hwf) & ->).
      exists (rename_edge f e). split; [apply list_elem_of_fmap; eauto|].
      unfold rename_edge, src, dst in *; simpl. naive_solver. }
  split.
  - intros (v & Hv & ->). exists (f v). split; [apply Hverts; eauto|].
    by rewrite star_renamed.
  - intros (v' & (v & Hv & ->)%Hverts & ->). exists v. split; [done|].
    by rewrite star_renamed.
Qed.

(** C10: [M == other] is [False] (and [M != other] is [True]) whenever
    [other] is not a [GraphicMatroid] instance, even a matroid of another
    class built from the very same labelled graph; between two graphic
    matroids, [M == N] holds exactly when the labelled graphs (vertices,
    edges, labels) are equal. *)
Theorem C10_eq_only_between_graphic_matroids (M : GraphicMatroid) (other : object) :
  match other with
  | GraphicMatroid_instance N =>
      (__eq__ M other = true ↔ _G M = _G N) ∧
      (__ne__ M other = true ↔ _G M ≠ _G N)
  | RegularMatroid_instance _ | other_instance _ =>
      __eq__ M other = false ∧ __ne__ M other = true
  end.
Proof.
  destruct other as [N|G|n]; [|done..].
  unfold __ne__; simpl. split.
  - apply Graph_eq_spec.
  - rewrite negb_true_iff, <- not_true_iff_false. by rewrite Graph_eq_spec.
Qed.

(** C8: equal models hash equal; the hash is computed from the per-vertex
    sets of incident labels, so it does not change under a renaming of the
    vertices (an isomorphism of the labelled graph); and it is strictly
    weaker than equality: two unequal models can have the same hash. *)
Theorem C8_equal_models_hash_equal (hash : gset (gset label) → Z) :
  (∀ M N, __eq__ M (GraphicMatroid_instance N) = true →
          __hash__ hash M = __hash__ hash N) ∧
  (∀ G groundset N f,
     valid_groundset G groundset →
     isomorphic_by f (_G (__init__ G groundset)) (_G N) →
     __hash__ hash (__init__ G groundset) = __hash__ hash N) ∧
  (∃ M N, __hash__ hash M = __hash__ hash N ∧
          __eq__ M (GraphicMatroid_instance N) = false).
Proof.
  split_and!.
  - intros M N HMN. simpl in HMN. apply Graph_eq_spec in HMN.
    unfold __hash__, _vertex_stars. by rewrite HMN.
  - intros G groundset N f Hvalid Hiso. unfold __hash__. f_equal.
    eapply vertex_stars_isomorphic; [by apply init_wf|done].
  - exists Examples.edge_0_1, Examples.edge_5_6. split; [|by vm_compute].
    unfold __hash__.
    assert (_vertex_stars Examples.edge_0_1 = _vertex_stars Examples.edge_5_6) as ->;
      [|done].
    apply (bool_decide_unpack _). by vm_compute.
Qed.

(** ** Circuits and independence *)

Lemma circuit_fold_labels (es : list (vertex * vertex * label)) g (C : gset label) :
  (foldl circuit_step (g, C) es).2 ⊆ C ∪ list_to_set (lbl <$> es).
Proof.
  revert g C. induction es as [|e es IH]; intros g C; simpl; [set_solver|].
  destruct (is_forest (delete_edge g e)).
  - etrans; [apply IH|]. set_solver.
  - etrans; [apply IH|]. set_solver.
Qed.

Lemma subgraph_labels M X g :
  wf M → X ⊆ _groundset M → _subgraph_from_set M X = Ok g →
  (list_to_set (lbl <$> edges g) : gset label) = X.
Proof.
  intros Hwf HX. unfold _subgraph_from_set.
  destruct (_groundset_to_edges_spec M Hwf X HX) as (es & -> & Hl & _). simpl.
  intros [= <-]. apply set_eq. intros l.
  rewrite elem_of_list_to_set, of_edges_labels, Hl. apply elem_of_elements.
Qed.

(** C5: for [X] inside the ground set, [circuit(X)] raises the no-circuit
    error exactly when the subgraph induced by [X] is a forest, that is,
    exactly when [is_independent(X)] holds; when [X] is dependent it returns
    a set of element labels (of [X]). *)
Theorem C5_circuit_fails_iff_independent
    (G : Graph (option label)) (groundset : option (list (option label)))
    (X : gset label) :
  valid_groundset G groundset →
  X ⊆ _groundset (__init__ G groundset) →
  let M := __init__ G groundset in
  ∃ g, subgraph_from_set M X = Ok g ∧
       (circuit M X = Raise NoCircuitInIndependentSet ↔ is_forest g = true) ∧
       (is_independent M X = Ok true ↔ is_forest g = true) ∧
       (is_forest g = false → ∃ C, circuit M X = Ok C ∧ C ⊆ X).
Proof.
  intros Hvalid HX M. pose proof (init_wf G groundset Hvalid) as Hwf.
  fold M in Hwf, HX.
  destruct (_groundset_to_edges_spec M Hwf X HX) as (es & Hes & Hl & Hin).
  assert (_subgraph_from_set M X = Ok (of_edges es)) as Hsub.
  { unfold _subgraph_from_set. by rewrite Hes. }
  exists (of_edges es).
  unfold subgraph_from_set, circuit, is_independent, validated.
  rewrite !decide_True by done.
  unfold _circuit, _is_independent. rewrite Hsub. cbn.
  split_and!; [done| | |].
  - destruct (is_forest (of_edges es)); naive_solver.
  - destruct (is_forest (of_edges es)); naive_solver.
  - intros ->. eexists. split; [done|].
    etrans; [apply circuit_fold_labels|].
    rewrite (subgraph_labels M X (of_edges es)) by done. set_solver.
Qed.

Lemma C5_witness :
  ∃ g, subgraph_from_set Examples.triangle {[0; 1; 2]} = Ok g ∧
       (circuit Examples.triangle {[0; 1; 2]} = Raise NoCircuitInIndependentSet
          ↔ is_forest g = true) ∧
       (is_independent Examples.triangle {[0; 1; 2]} = Ok true ↔ is_forest g = true) ∧
       (is_forest g = false →
          ∃ C, circuit Examples.triangle {[0; 1; 2]} = Ok C ∧ C ⊆ {[0; 1; 2]}).
Proof.
  apply (C5_circuit_fails_iff_independent
           (Examples.unlabelled [(0, 1); (0, 2); (1, 2)]) None {[0; 1; 2]}).
  - exact I.
  - apply (bool_decide_unpack _). vm_compute. exact I.
Defined.

(** ** Connectivity and disjoint sets *)

Section connectivity.
Implicit Types (es : list (vertex * vertex)) (x y u v : vertex).

Lemma adj_sym es : Symmetric (adj es).
Proof. intros x y [?|?]; [right|left]; done. Qed.

#[global] Instance conn_equiv es : Equivalence (conn es).
Proof. apply rtc_equivalence, adj_sym. Qed.

Lemma conn_edge es u v : (u, v) ∈ es → conn es u v.
Proof. intros H. apply rtc_once. by left. Qed.

Lemma conn_mono es es' x y :
  (∀ p, p ∈ es → p ∈ es' ∨ (p.2, p.1) ∈ es') → conn es x y → conn es' x y.
Proof.
  intros Hsub. apply rtc_subrel. intros a b [H|H]; apply Hsub in H; simpl in H.
  - destruct H; [left|right]; done.
  - destruct H; [right|left]; done.
Qed.

Lemma conn_ext es es' x y :
  (∀ p, p ∈ es ↔ p ∈ es') → conn es x y ↔ conn es' x y.
Proof. intros H. split; apply conn_mono; intros p Hp; left; by apply H. Qed.

Lemma conn_nil x y : conn [] x y ↔ x = y.
Proof.
  split; [|by intros ->].
  intros H. destruct H as [|x y z [Hxy|Hxy] _]; [done|..];
    by apply elem_of_nil in Hxy.
Qed.

(** Adding one pair joins the classes of its two ends. *)
Lemma conn_cons es u v x y :
  conn ((u, v) :: es) x y ↔
  conn es x y ∨ (conn es x u ∧ conn es v y) ∨ (conn es x v ∧ conn es u y).
Proof.
  split.
  - intros H. induction H as [x|x z y Hxz _ IH]; [by left|].
    assert (conn es x z ∨ (x = u ∧ z = v) ∨ (x = v ∧ z = u)) as Hstep.
    { destruct Hxz as [Hxz|Hxz]; apply elem_of_cons in Hxz as [[= -> ->]|Hxz];
        auto; left; apply rtc_once; [by left|by right]. }
    destruct Hstep as [Hc|[[-> ->]|[-> ->]]].
    + destruct IH as [IH|[[IH1 IH2]|[IH1 IH2]]].
      * left. by etrans.
      * right; left. split; [by etrans|done].
      * right; right. split; [by etrans|done].
    + destruct IH as [IH|[[IH1 IH2]|[IH1 IH2]]].
      * right; left. done.
      * right; left. done.
      * left. done.
    + destruct IH as [IH|[[IH1 IH2]|[IH1 IH2]]].
      * right; right. done.
      * left. done.
      * right; right. done.
  - assert (∀ a b, conn es a b → conn ((u, v) :: es) a b) as Hm.
    { intros a b. apply conn_mono. intros p Hp. left. by right. }
    assert (conn ((u, v) :: es) u v) as Huv by (apply conn_edge; left).
    intros [H|[[H1 H2]|[H1 H2]]].
    + by apply Hm.
    + etrans; [by apply Hm|]. etrans; [exact Huv|by apply Hm].
    + etrans; [by apply Hm|]. etrans; [symmetry; exact Huv|by apply Hm].
Qed.

Lemma represents_make V : represents V (DisjointSet.make V) [].
Proof. split; [done|]. intros x y _ _. simpl. by rewrite conn_nil. Qed.

Lemma represents_union V ds es u v :
  u ∈ V → v ∈ V → represents V ds es →
  represents V (DisjointSet.union ds u v) ((u, v) :: es).
Proof.
  intros Hu Hv [Hel Hrep]. unfold DisjointSet.union.
  case_decide as Hr.
  - split; [done|]. intros x y Hx Hy. rewrite Hrep by done.
    rewrite conn_cons. apply Hrep in Hr; [|done..].
    split; [by left|]. intros [H|[[H1 H2]|[H1 H2]]]; [done|..].
    + etrans; [exact H1|]. by etrans.
    + etrans; [exact H1|]. etrans; [symmetry; exact Hr|done].
  - split; [done|]. intros x y Hx Hy. simpl. rewrite conn_cons.
    rewrite <- !Hrep by done.
    repeat case_decide; split; intros; try congruence; naive_solver congruence.
Qed.

Lemma elements_union ds u v :
  DisjointSet.elements (DisjointSet.union ds u v) = DisjointSet.elements ds.
Proof. unfold DisjointSet.union. by case_decide. Qed.

Lemma elements_union_all ds es :
  DisjointSet.elements (DisjointSet.union_all ds es) = DisjointSet.elements ds.
Proof.
  revert ds. induction es as [|[u v] es IH]; intros ds; [done|].
  simpl. unfold DisjointSet.union_all in IH. by rewrite IH, elements_union.
Qed.

Lemma represents_union_all V ds es0 es :
  (∀ p, p ∈ es → p.1 ∈ V ∧ p.2 ∈ V) →
  represents V ds es0 →
  represents V (DisjointSet.union_all ds es) (reverse es ++ es0).
Proof.
  revert ds es0. induction es as [|[u v] es IH]; intros ds es0 Hin Hrep; [done|].
  simpl. rewrite reverse_cons, <- app_assoc. simpl.
  apply IH; [set_solver|].
  destruct (Hin (u, v)) as [Hu Hv]; [set_solver|]. by apply represents_union.
Qed.

(** *** Counting blocks *)

Lemma roots_union ds u v :
  u ∈ DisjointSet.elements ds → v ∈ DisjointSet.elements ds →
  DisjointSet.find ds u ≠ DisjointSet.find ds v →
  DisjointSet.roots (DisjointSet.union ds u v)
  = DisjointSet.roots ds ∖ {[DisjointSet.find ds u]}.
Proof.
  intros Hu Hv Hne. unfold DisjointSet.union. rewrite decide_False by done.
  unfold DisjointSet.roots. simpl. apply set_eq. intros r.
  rewrite elem_of_difference, !elem_of_list_to_set, !list_elem_of_fmap,
    not_elem_of_singleton.
  split.
  - intros (z & -> & Hz). case_decide as Hzu.
    + split; [by exists v|congruence].
    + split; [by exists z|done].
  - intros [(z & -> & Hz) Hne']. exists z. split; [|done].
    by rewrite decide_False.
Qed.

Lemma number_of_subsets_union ds u v :
  u ∈ DisjointSet.elements ds → v ∈ DisjointSet.elements ds →
  DisjointSet.number_of_subsets (DisjointSet.union ds u v)
  + (if decide (DisjointSet.find ds u = DisjointSet.find ds v) then 0 else 1)
  = DisjointSet.number_of_subsets ds.
Proof.
  intros Hu Hv. unfold DisjointSet.number_of_subsets. case_decide as Hr.
  - unfold DisjointSet.union. rewrite decide_True by done. lia.
  - rewrite roots_union by done.
    assert (DisjointSet.find ds u ∈ DisjointSet.roots ds) as Hin.
    { unfold DisjointSet.roots. rewrite elem_of_list_to_set, list_elem_of_fmap.
      by exists u. }
    rewrite size_difference by set_solver. rewrite size_singleton.
    assert (size (DisjointSet.roots ds) ≠ 0); [|lia].
    intros Hz. apply size_empty_inv in Hz. set_solver.
Qed.

Lemma number_of_subsets_union_all ds es :
  (∀ p, p ∈ es → p.1 ∈ DisjointSet.elements ds ∧ p.2 ∈ DisjointSet.elements ds) →
  DisjointSet.number_of_subsets (DisjointSet.union_all ds es) + merges ds es
  = DisjointSet.number_of_subsets ds.
Proof.
  revert ds. induction es as [|[u v] es IH]; intros ds Hin; [simpl; lia|].
  destruct (Hin (u, v)) as [Hu Hv]; [set_solver|]. simpl in Hu, Hv.
  change (DisjointSet.union_all ds ((u, v) :: es))
    with (DisjointSet.union_all (DisjointSet.union ds u v) es).
  cbn [merges fst snd].
  specialize (IH (DisjointSet.union ds u v)).
  rewrite elements_union in IH.
  specialize (IH ltac:(set_solver)).
  pose proof (number_of_subsets_union ds u v Hu Hv). lia.
Qed.

Lemma number_of_subsets_make V :
  NoDup V → DisjointSet.number_of_subsets (DisjointSet.make V) = length V.
Proof.
  intros Hnd. unfold DisjointSet.number_of_subsets, DisjointSet.roots. simpl.
  rewrite list_fmap_id. by apply size_list_to_set.
Qed.

Lemma merges_le ds es : merges ds es ≤ length es.
Proof.
  revert ds. induction es as [|uv es IH]; intros ds; simpl; [lia|].
  specialize (IH (DisjointSet.union ds uv.1 uv.2)). case_decide; lia.
Qed.

End connectivity.

(** ** Rank *)

Lemma elem_of_spanned (es : list (vertex * vertex * label)) (v : vertex) :
  v ∈ spanned es ↔ ∃ e, e ∈ es ∧ (src e = v ∨ dst e = v).
Proof.
  unfold spanned. rewrite elem_of_union, !elem_of_list_to_set, !list_elem_of_fmap.
  naive_solver.
Qed.

Lemma ends_in_spanned (es : list (vertex * vertex * label)) p :
  p ∈ ends <$> es → p.1 ∈ elements (spanned es) ∧ p.2 ∈ elements (spanned es).
Proof.
  intros (e & -> & He)%list_elem_of_fmap.
  rewrite !elem_of_elements, !elem_of_spanned. split; exists e; auto.
Qed.

(** The rank is the number of unions that joined two blocks. *)
Lemma rank_of_edges_merges (es : list (vertex * vertex * label)) :
  rank_of_edges es
  = Z.of_nat (merges (DisjointSet.make (elements (spanned es))) (ends <$> es)).
Proof.
  unfold rank_of_edges.
  pose proof (number_of_subsets_union_all
                (DisjointSet.make (elements (spanned es))) (ends <$> es)) as H.
  rewrite number_of_subsets_make in H by apply NoDup_elements.
  assert (length (elements (spanned es)) = size (spanned es)) as Hlen by done.
  specialize (H (ends_in_spanned es)). lia.
Qed.

Lemma rank_of_edges_bounds (es : list (vertex * vertex * label)) :
  (0 ≤ rank_of_edges es ≤ Z.of_nat (length es))%Z.
Proof.
  rewrite rank_of_edges_merges.
  pose proof (merges_le (DisjointSet.make (elements (spanned es))) (ends <$> es)) as H.
  rewrite length_fmap in H. lia.
Qed.

(** *** Counting classes *)

Lemma class_count_same (V : list vertex) (f g : vertex → vertex) :
  (∀ x y, x ∈ V → y ∈ V → f x = f y ↔ g x = g y) →
  size (list_to_set (f <$> V) : gset vertex) = size (list_to_set (g <$> V) : gset vertex).
Proof.
  induction V as [|x V IH]; intros Hfg; [done|].
  rewrite !fmap_cons, !list_to_set_cons.
  specialize (IH ltac:(intros; apply Hfg; set_solver)).
  assert (f x ∈ (list_to_set (f <$> V) : gset vertex) ↔
          g x ∈ (list_to_set (g <$> V) : gset vertex)) as Hmem.
  { rewrite !elem_of_list_to_set, !list_elem_of_fmap.
    split; intros (z & Hz & Hin); exists z; (split; [|done]);
      apply Hfg; auto; set_solver. }
  destruct (decide (f x ∈ (list_to_set (f <$> V) : gset vertex))) as [Hin|Hnin].
  - assert (g x ∈ (list_to_set (g <$> V) : gset vertex)) as Hin' by by apply Hmem.
    rewrite !subseteq_union_1_L by set_solver. done.
  - assert (g x ∉ (list_to_set (g <$> V) : gset vertex)) as Hnin'
      by (intros ?; by apply Hnin, Hmem).
    rewrite !size_union by set_solver. rewrite !size_singleton. lia.
Qed.

Lemma class_count (V V' : list vertex) (f g : vertex → vertex) :
  (∀ x, x ∈ V ↔ x ∈ V') →
  (∀ x y, x ∈ V → y ∈ V → f x = f y ↔ g x = g y) →
  size (list_to_set (f <$> V) : gset vertex) = size (list_to_set (g <$> V') : gset vertex).
Proof.
  intros HV Hfg. rewrite (class_count_same V f g Hfg). f_equal.
  apply set_eq. intros r. rewrite !elem_of_list_to_set, !list_elem_of_fmap.
  split; intros (z & -> & Hz); exists z; (split; [done|]); by apply HV.
Qed.

Lemma number_of_subsets_represents V V' ds ds' es es' :
  (∀ x, x ∈ V ↔ x ∈ V') →
  (∀ x y, conn es x y ↔ conn es' x y) →
  represents V ds es → represents V' ds' es' →
  DisjointSet.number_of_subsets ds = DisjointSet.number_of_subsets ds'.
Proof.
  intros HV Hconn [Hel Hrep] [Hel' Hrep'].
  unfold DisjointSet.number_of_subsets, DisjointSet.roots. rewrite Hel, Hel'.
  apply class_count; [done|]. intros x y Hx Hy.
  rewrite Hrep, Hrep', Hconn by (done || by apply HV). done.
Qed.

(** *** Components of a graph *)

Lemma length_insert_component c cs :
  length (insert_component c cs) = S (length cs).
Proof.
  induction cs as [|d cs IH]; simpl; [done|]. case_decide; simpl; by rewrite ?IH.
Qed.

Lemma length_sort_components cs : length (sort_components cs) = length cs.
Proof.
  induction cs as [|c cs IH]; simpl; [done|].
  by rewrite length_insert_component, IH.
Qed.

Lemma connected_components_number_subsets {L} (g : Graph L) :
  connected_components_number g
  = DisjointSet.number_of_subsets
      (DisjointSet.union_all (DisjointSet.make (vertices g)) (pairs g)).
Proof.
  unfold connected_components_number, connected_components, blocks.
  rewrite length_sort_components, length_fmap.
  unfold DisjointSet.number_of_subsets, DisjointSet.roots.
  rewrite elements_union_all. simpl.
  rewrite <- (size_list_to_set (C := gset vertex)) by apply NoDup_remove_dups.
  f_equal. apply set_eq. intros r.
  by rewrite !elem_of_list_to_set, elem_of_remove_dups.
Qed.

Lemma represents_run (V : list vertex) (es : list (vertex * vertex)) :
  (∀ p, p ∈ es → p.1 ∈ V ∧ p.2 ∈ V) →
  represents V (DisjointSet.union_all (DisjointSet.make V) es) (reverse es ++ []).
Proof. intros Hin. apply represents_union_all; [done|apply represents_make]. Qed.

Lemma rank_groundset M :
  wf M →
  _rank M (_groundset M)
  = Ok (Z.of_nat (length (vertices (_G M)))
        - Z.of_nat (connected_components_number (_G M)))%Z.
Proof.
  intros Hwf. unfold _rank.
  destruct (groundset_to_edges_spec M Hwf (_groundset M)) as (es & -> & Hl & Hin);
    [done|].
  cbn. f_equal. unfold rank_of_edges.
  assert (∀ e, e ∈ es ↔ e ∈ edges (_G M)) as Hin'.
  { intros e. rewrite Hin. split; [naive_solver|]. intros He. split; [done|].
    apply (elem_of_groundset M Hwf). eauto. }
  assert (∀ v, v ∈ elements (spanned es) ↔ v ∈ vertices (_G M)) as Hverts.
  { intros v. rewrite elem_of_elements, elem_of_spanned, (wf_vertices M Hwf).
    split; intros (e & He & Hv); exists e; (split; [by apply Hin'|done]). }
  assert (size (spanned es) = length (vertices (_G M))) as ->.
  { change (size (spanned es)) with (length (elements (spanned es))).
    apply Permutation_length, NoDup_Permutation;
      [apply NoDup_elements|apply (wf_vertices_nodup M Hwf)|done]. }
  rewrite connected_components_number_subsets. do 2 f_equal.
  eapply number_of_subsets_represents;
    [exact Hverts| |apply represents_run, ends_in_spanned|apply represents_run].
  - intros x y. apply conn_ext. intros p.
    rewrite !app_nil_r, !elem_of_reverse. unfold pairs.
    rewrite !list_elem_of_fmap. split; intros (e & -> & He); exists e;
      (split; [done|by apply Hin']).
  - intros p (e & -> & He)%list_elem_of_fmap.
    split; apply (wf_vertices M Hwf); exists e; auto.
Qed.

Lemma _rank_bounds M X :
  wf M → X ⊆ _groundset M →
  ∃ r, _rank M X = Ok r ∧ (0 ≤ r ≤ Z.of_nat (size X))%Z.
Proof.
  intros Hwf HX. unfold _rank.
  destruct (groundset_to_edges_spec M Hwf X HX) as (es & Hes & Hl & _).
  rewrite Hes. cbn. eexists. split; [done|].
  pose proof (rank_of_edges_bounds es) as Hb.
  assert (length es = size X) as Hlen.
  { rewrite <- (length_fmap lbl), Hl. done. }
  lia.
Qed.

Lemma _rank_empty M : _rank M ∅ = Ok 0%Z.
Proof.
  unfold _rank, groundset_to_edges. rewrite decide_True by set_solver.
  unfold _groundset_to_edges. rewrite elements_empty. done.
Qed.

(** C4, as amended: for every graphic matroid and every [X] inside the
    ground set, [rank(X) <= |X|] and [rank(∅) = 0]; the rank is the number of
    vertices spanned by the edges of [X] minus the number of blocks of the
    union-find over them; and [rank(groundset)] is the number of vertices
    minus the number of connected components of the graph, which is
    [|vertices| - 1] when the graph is connected and has a vertex. *)
Theorem C4_rank_bounds
    (G : Graph (option label)) (groundset : option (list (option label)))
    (X : gset label) :
  valid_groundset G groundset →
  X ⊆ _groundset (__init__ G groundset) →
  let M := __init__ G groundset in
  (∃ es, groundset_to_edges M X = Ok es ∧
         rank M X = Ok (rank_of_edges es) ∧
         (0 ≤ rank_of_edges es ≤ Z.of_nat (size X))%Z) ∧
  rank M ∅ = Ok 0%Z ∧
  rank M (_groundset M)
  = Ok (Z.of_nat (length (vertices (_G M)))
        - Z.of_nat (connected_components_number (_G M)))%Z ∧
  (vertices (_G M) ≠ [] → is_connected (_G M) = true →
   rank M (_groundset M) = Ok (Z.of_nat (length (vertices (_G M))) - 1)%Z).
Proof.
  intros Hvalid HX M. pose proof (init_wf G groundset Hvalid) as Hwf.
  fold M in Hwf, HX. unfold rank, validated.
  rewrite !decide_True by set_solver.
  split_and!.
  - destruct (groundset_to_edges_spec M Hwf X HX) as (es & Hes & Hl & _).
    exists es. split; [done|]. unfold _rank. rewrite Hes. split; [done|].
    pose proof (rank_of_edges_bounds es) as Hb.
    assert (length es = size X) as Hlen by (by rewrite <- (length_fmap lbl), Hl).
    lia.
  - apply _rank_empty.
  - by apply rank_groundset.
  - intros Hne Hconn. rewrite rank_groundset by done.
    unfold is_connected in Hconn.
    apply orb_true_iff in Hconn as [Hc|Hc]; apply bool_decide_eq_true in Hc; [done|].
    by rewrite Hc.
Qed.

Lemma C4_witness :
  (∃ es, groundset_to_edges Examples.triangle {[0; 1]} = Ok es ∧
         rank Examples.triangle {[0; 1]} = Ok (rank_of_edges es) ∧
         (0 ≤ rank_of_edges es ≤ Z.of_nat (size ({[0%nat; 1%nat]} : gset label)))%Z) ∧
  rank Examples.triangle ∅ = Ok 0%Z ∧
  rank Examples.triangle (_groundset Examples.triangle)
  = Ok (Z.of_nat (length (vertices (_G Examples.triangle)))
        - Z.of_nat (connected_components_number (_G Examples.triangle)))%Z ∧
  (vertices (_G Examples.triangle) ≠ [] → is_connected (_G Examples.triangle) = true →
   rank Examples.triangle (_groundset Examples.triangle)
   = Ok (Z.of_nat (length (vertices (_G Examples.triangle))) - 1)%Z).
Proof.
  apply (C4_rank_bounds (Examples.unlabelled [(0, 1); (0, 2); (1, 2)]) None {[0; 1]}).
  - exact I.
  - apply (bool_decide_unpack _). vm_compute. exact I.
Defined.

(** C4 as stated fails on the matroid of the empty graph: its ground set has
    rank [0], but there are no vertices, so [|vertices| - 1] is [-1]. *)
Lemma C4_counterexample_empty_graph :
  rank Examples.empty (_groundset Examples.empty) = Ok 0%Z ∧
  rank Examples.empty (_groundset Examples.empty)
  ≠ Ok (Z.of_nat (length (vertices (_G Examples.empty))) - 1)%Z.
Proof. split; [by vm_compute|]. vm_compute. discriminate. Qed.

(** ** Loops *)

Lemma number_of_subsets_pos ds :
  DisjointSet.elements ds ≠ [] → 0 < DisjointSet.number_of_subsets ds.
Proof.
  intros Hne. unfold DisjointSet.number_of_subsets, DisjointSet.roots.
  destruct (DisjointSet.elements ds) as [|x V]; [done|].
  rewrite fmap_cons, list_to_set_cons, size_union_alt, size_singleton. lia.
Qed.

Lemma connected_components_number_pos {L} (g : Graph L) :
  vertices g ≠ [] → 0 < connected_components_number g.
Proof.
  intros Hne. rewrite connected_components_number_subsets.
  apply number_of_subsets_pos. by rewrite elements_union_all.
Qed.

Lemma single_loop_not_forest (u : vertex) (L : label) :
  is_forest (of_edges [(u, u, L)]) = false.
Proof.
  unfold is_forest. apply bool_decide_eq_false.
  assert (vertices (of_edges [(u, u, L)]) = [u]) as Hv.
  { unfold of_edges, of_lists, sort_vertices, endpoints. cbn.
    destruct (decide_rel elem_of u [u]) as [_|Hn]; [|set_solver].
    destruct (decide_rel elem_of u []) as [Hn|_]; [set_solver|]. done. }
  assert (length (edges (of_edges [(u, u, L)])) = 1) as He.
  { unfold of_edges, of_lists. cbn [edges]. by rewrite sort_edges_perm. }
  pose proof (connected_components_number_pos (of_edges [(u, u, L)])) as Hpos.
  rewrite Hv in Hpos |- *. specialize (Hpos ltac:(done)). rewrite He. simpl. lia.
Qed.

Lemma _closure_contains_loops M X :
  wf M → X ⊆ _groundset M →
  ∃ C, _closure M X = Ok C ∧ list_to_set (lbl <$> loops (_G M)) ⊆ C.
Proof.
  intros Hwf HX. unfold _closure.
  destruct (_groundset_to_edges_spec M Hwf (_groundset M ∖ X)) as (ys & -> & _);
    [set_solver|].
  unfold _subgraph_from_set.
  destruct (_groundset_to_edges_spec M Hwf X HX) as (xs & -> & _).
  cbn. destruct (foldl _ _ ys) as [g C]. eexists. split; [done|]. set_solver.
Qed.

(** C6: in a graphic matroid whose graph has a loop labelled [L], the set
    [{L}] is not independent, and [L] belongs to the closure of every subset
    [X] of the ground set, the empty set included. *)
Theorem C6_loops_dependent_and_in_every_closure
    (G : Graph (option label)) (groundset : option (list (option label)))
    (L : label) :
  valid_groundset G groundset →
  is_loop (__init__ G groundset) L →
  let M := __init__ G groundset in
  is_independent M {[L]} = Ok false ∧
  (∀ X, X ⊆ _groundset M → ∃ C, closure M X = Ok C ∧ L ∈ C) ∧
  (∃ C, closure M ∅ = Ok C ∧ L ∈ C).
Proof.
  intros Hvalid [u Hloop] M. pose proof (init_wf G groundset Hvalid) as Hwf.
  fold M in Hwf, Hloop.
  assert (L ∈ _groundset M) as HL by (apply (elem_of_groundset M Hwf); eauto).
  assert (∀ X, X ⊆ _groundset M → ∃ C, closure M X = Ok C ∧ L ∈ C) as Hcl.
  { intros X HX. unfold closure, validated. rewrite decide_True by done.
    destruct (_closure_contains_loops M X Hwf HX) as (C & HC & Hsub).
    exists C. split; [done|]. apply Hsub.
    rewrite elem_of_list_to_set, list_elem_of_fmap. exists (u, u, L).
    split; [done|]. unfold loops. rewrite list_elem_of_filter. done. }
  split_and!; [|done|apply Hcl; set_solver].
  unfold is_independent, validated. rewrite decide_True by set_solver.
  unfold _is_independent, _subgraph_from_set, _groundset_to_edges.
  rewrite elements_singleton. cbn [lookup_edges].
  apply (wf_edge_map M Hwf) in Hloop. rewrite Hloop. cbn.
  by rewrite single_loop_not_forest.
Qed.

Lemma C6_witness :
  is_independent Examples.loop_and_edge {[0]} = Ok false ∧
  (∀ X, X ⊆ _groundset Examples.loop_and_edge →
        ∃ C, closure Examples.loop_and_edge X = Ok C ∧ 0 ∈ C) ∧
  (∃ C, closure Examples.loop_and_edge ∅ = Ok C ∧ 0 ∈ C).
Proof.
  apply (C6_loops_dependent_and_in_every_closure
           (Examples.unlabelled [(0, 0); (0, 1)]) None 0).
  - exact I.
  - exists 0. apply (bool_decide_unpack _). vm_compute. exact I.
Defined.

(** ** Closed sets *)

(** What [_is_closed] computes: with [X'] the set [X] without the loop
    labels, it answers [True] exactly when every loop label is in [X] and no
    edge whose label is outside [X'] (the loops of [X] are such edges) has
    both ends spanned by the edges of [X']. *)
Lemma _is_closed_spec M X :
  wf M → X ⊆ _groundset M →
  let loop_labels : gset label := list_to_set (lbl <$> loops (_G M)) in
  ∃ xs, _groundset_to_edges M (X ∖ loop_labels) = Ok xs ∧
        (_is_closed M X = Ok true ↔
         loop_labels ⊆ X ∧
         ∀ e, e ∈ edges (_G M) → lbl e ∉ X ∖ loop_labels →
              ¬ (src e ∈ spanned xs ∧ dst e ∈ spanned xs)).
Proof.
  intros Hwf HX loop_labels. unfold _is_closed. fold loop_labels.
  destruct (_groundset_to_edges_spec M Hwf (X ∖ loop_labels)) as (xs & Hxs & _ & Hin);
    [set_solver|].
  destruct (_groundset_to_edges_spec M Hwf (_groundset M ∖ (X ∖ loop_labels)))
    as (ys & Hys & _ & Hiny); [set_solver|].
  exists xs. split; [done|]. rewrite Hxs, Hys.
  case_decide as Hloops; cbn; [|naive_solver].
  split.
  - intros [= Hex]. split; [done|]. intros e He Hl [Hs Hd].
    apply negb_true_iff in Hex.
    assert (existsb (both_spanned (spanned xs)) ys = true) as Hex'; [|congruence].
    apply existsb_exists. exists e. split.
    + apply list_elem_of_In, Hiny. split; [done|].
      apply elem_of_difference. split; [|done]. apply (elem_of_groundset M Hwf). eauto.
    + unfold both_spanned. by apply bool_decide_eq_true.
  - intros [_ Hall]. f_equal. apply negb_true_iff, not_true_iff_false.
    intros (e & He & Hb)%existsb_exists.
    apply list_elem_of_In, Hiny in He as [He Hl].
    apply bool_decide_eq_true in Hb. apply (Hall e He); [set_solver|done].
Qed.

(** ** Where the code departs from its documentation *)

(** C7 (evaluation at the failing input): in the matroid of the graph with
    a loop [0] at vertex [0] and an edge [1] from [0] to [1], the set
    [{0, 1}] is the whole ground set, contains the only loop, leaves no
    element outside and is its own closure, yet [is_closed] answers
    [False]: the loop, removed from [X] before the complement is taken,
    is tested as an outside edge on a spanned vertex. *)
Lemma C7_is_closed_rejects_whole_groundset :
  let M := Examples.loop_and_edge in
  let X : gset label := {[0; 1]} in
  edges (_G M) = [(0, 0, 0); (0, 1, 1)] ∧
  X = _groundset M ∧
  (list_to_set (lbl <$> loops (_G M)) : gset label) ⊆ X ∧
  _groundset M ∖ X = ∅ ∧
  closure M X = Ok X ∧
  is_closed M X = Ok false.
Proof.
  split_and!; try (apply (bool_decide_unpack _)); by vm_compute.
Qed.

(** C3 (evaluation at the failing input): the constructor, given the graph
    with a loop on each of the three vertices [0], [1], [2] (three
    components), maps vertex [2] to [1] and vertex [1] to [0] and applies the
    map once to each edge, so the loop of [2] lands on [1] and the graph it
    stores is not connected; the rank of the ground set is [0], not
    [|vertices| - 1 = 1]. *)
Lemma C3_constructor_leaves_graph_disconnected :
  let M := Examples.three_loops in
  _G M = Graph.Make [0; 1] [(0, 0, 0); (0, 0, 1); (1, 1, 2)] ∧
  _vertex_map M = {[0 := 0; 1 := 0; 2 := 1]} ∧
  connected_components (_G M) = [[0]; [1]] ∧
  is_connected (_G M) = false ∧
  rank M (_groundset M) = Ok 0%Z ∧
  (Z.of_nat (length (vertices (_G M))) - 1 = 1)%Z.
Proof.
  split_and!; try (apply (bool_decide_unpack _)); by vm_compute.
Qed.

(** C1 (evaluation at the failing input): extending the matroid of the
    triangle by an edge [7] from vertex [0] to the identifier [3], which is
    not yet a vertex, adds a pendant edge: [7] is a coloop of the result. *)
Lemma C1_extension_to_new_vertex_is_coloop :
  ∃ M', graphic_extension Examples.triangle 0 (Some 3) (Some 7) = Ok M' ∧
        edges (_G M') = [(0, 1, 0); (0, 2, 1); (0, 3, 7); (1, 2, 2)] ∧
        rank M' (_groundset M') = Ok 3%Z ∧
        rank M' (_groundset M' ∖ {[7]}) = Ok 2%Z ∧
        _coclosure M' ∅ = Ok {[7]} ∧
        is_coloop M' 7.
Proof.
  eexists. split; [by vm_compute|].
  split_and!; try (apply (bool_decide_unpack _)); try by vm_compute.
  split; [apply (bool_decide_unpack _); by vm_compute|].
  exists 3%Z. split; by vm_compute.
Qed.

(** ** Connectivity under renaming, merging and twisting *)

Section conn_transport.
Implicit Types (es P Q : list (vertex * vertex)) (x y u v a b h t : vertex).

Lemma conn_sub es es' x y :
  (∀ p, p ∈ es → conn es' p.1 p.2) → conn es x y → conn es' x y.
Proof.
  intros Hsub H. induction H as [x|x z y Hxz _ IH]; [done|].
  etrans; [|exact IH].
  destruct Hxz as [Hxz|Hxz]; apply Hsub in Hxz; simpl in Hxz; [done|by symmetry].
Qed.

Lemma conn_rename (f : vertex → vertex) es x y :
  conn es x y → conn (prod_map f f <$> es) (f x) (f y).
Proof.
  apply rtc_congruence. intros a b [H|H]; [left|right];
    apply list_elem_of_fmap; eexists; (split; [|exact H]); done.
Qed.

Lemma prod_map_involutive (f : vertex → vertex) es :
  (∀ x, f (f x) = x) → prod_map f f <$> (prod_map f f <$> es) = es.
Proof.
  intros Hf. rewrite <- list_fmap_compose. rewrite <- (list_fmap_id es) at 2.
  apply list_fmap_ext. intros _ [p q] _. simpl. by rewrite !Hf.
Qed.

Lemma conn_rename_involutive (f : vertex → vertex) es x y :
  (∀ x, f (f x) = x) →
  conn (prod_map f f <$> es) (f x) (f y) ↔ conn es x y.
Proof.
  intros Hf. split; [|apply conn_rename].
  intros H. apply (conn_rename f) in H.
  by rewrite prod_map_involutive, !Hf in H.
Qed.

Lemma conn_flip (g : vertex * vertex → vertex * vertex) es x y :
  (∀ p, g p = p ∨ g p = (p.2, p.1)) →
  conn (g <$> es) x y ↔ conn es x y.
Proof.
  intros Hg. split; apply conn_mono; intros p Hp.
  - apply list_elem_of_fmap in Hp as (q & -> & Hq).
    destruct (Hg q) as [->| ->]; [by left|right]. by destruct q.
  - destruct (Hg p) as [Hgp|Hgp].
    + left. apply list_elem_of_fmap. exists p. by rewrite Hgp.
    + right. apply list_elem_of_fmap. exists p. by rewrite Hgp.
Qed.

(** *** Vertices a walk can reach *)

Lemma conn_closed (S : vertex → Prop) es x y :
  (∀ p, p ∈ es → S p.1 ↔ S p.2) → conn es x y → S x → S y.
Proof.
  intros Hcl H. induction H as [x|x z y Hxz _ IH]; [done|].
  intros Hx. apply IH.
  destruct Hxz as [Hxz|Hxz]; apply Hcl in Hxz; simpl in Hxz; tauto.
Qed.

Lemma conn_endpoint es x y :
  conn es x y → x = y ∨ ∃ p, p ∈ es ∧ (p.1 = y ∨ p.2 = y).
Proof.
  intros H. apply symmetry in H.
  destruct H as [|y z x [Hyz|Hyz] _]; [by left|right..]; eexists; eauto.
Qed.

(** *** Merging two vertices that are not connected *)

Lemma conn_rename1_lift h t P x' y' :
  conn (prod_map (rename1 h t) (rename1 h t) <$> P) x' y' →
  ∀ u v, rename1 h t u = x' → rename1 h t v = y' → conn ((h, t) :: P) u v.
Proof.
  assert (∀ u v, rename1 h t u = rename1 h t v → conn ((h, t) :: P) u v) as Hbase.
  { intros u v. unfold rename1. repeat case_decide; intros; simplify_eq; try done.
    - apply conn_edge. left.
    - symmetry. apply conn_edge. left. }
  assert (∀ p q, (p, q) ∈ P → conn ((h, t) :: P) p q) as Hedge.
  { intros p q Hpq. apply conn_edge. by right. }
  intros H. induction H as [x'|x' z' y' Hxz _ IH]; intros u v Hu Hv.
  - apply Hbase. congruence.
  - destruct Hxz as [Hxz|Hxz];
      apply list_elem_of_fmap in Hxz as ([p q] & [= Hp Hq] & Hpq); simpl in *.
    + etrans; [apply (Hbase u p); congruence|].
      etrans; [by apply Hedge|]. by apply IH.
    + etrans; [apply (Hbase u q); congruence|].
      etrans; [symmetry; by apply Hedge|]. by apply IH.
Qed.

(** Identifying [h] with [t], two vertices that the whole edge list [E] does
    not connect, creates no new connection between vertices that [E]
    connects: the connectivity by any part [P] of [E] is unchanged. *)
Lemma conn_rename1 h t E P u v :
  (∀ p, p ∈ P → p ∈ E) → ¬ conn E h t → conn E u v →
  conn (prod_map (rename1 h t) (rename1 h t) <$> P) (rename1 h t u) (rename1 h t v)
  ↔ conn P u v.
Proof.
  intros HPE Hht Huv. split; [|apply conn_rename].
  intros H. pose proof (conn_rename1_lift h t P _ _ H u v eq_refl eq_refl) as H'.
  assert (∀ x y, conn P x y → conn E x y) as Hm.
  { intros x y. apply conn_mono. intros p Hp. left. by apply HPE. }
  apply conn_cons in H' as [H'|[[H1 H2]|[H1 H2]]]; [done|exfalso; apply Hht..].
  - etrans; [symmetry; apply Hm, H1|]. etrans; [exact Huv|]. symmetry. by apply Hm.
  - etrans; [apply Hm, H2|]. etrans; [symmetry; exact Huv|]. by apply Hm.
Qed.

(** *** Two parts that share at most two vertices *)

(** [P1] lives on the vertex set [A], [P2] on [B], and [A] and [B] meet in
    [a] and [b] at most.  Seen from outside [A], the part [P1] acts as one
    link between [a] and [b], present when [P1] connects them. *)
Lemma conn_two_separation (A B : gset vertex) a b P1 P2 u v :
  (∀ p, p ∈ P1 → p.1 ∈ A ∧ p.2 ∈ A) →
  (∀ p, p ∈ P2 → p.1 ∈ B ∧ p.2 ∈ B) →
  (∀ x, x ∈ A → x ∈ B → x = a ∨ x = b) →
  (u ∉ A ∨ u = a ∨ u = b) → (v ∉ A ∨ v = a ∨ v = b) →
  conn (P1 ++ P2) u v → ∀ L, (conn P1 a b → conn L a b) →
  (∀ p, p ∈ P2 → conn L p.1 p.2) → conn L u v.
Proof.
  intros HA HB HAB Hu Hv H L Hlink HP2.
  set (out := λ x, x ∉ A ∨ x = a ∨ x = b).
  assert (∀ x y, out x → out y → conn P1 x y → conn L x y) as Hout.
  { intros x y Hx Hy Hxy.
    destruct (conn_endpoint _ _ _ Hxy) as [->|(p & Hp & Hpy)]; [done|].
    assert (y ∈ A) as HyA by (destruct (HA p Hp), Hpy; by subst).
    symmetry in Hxy.
    destruct (conn_endpoint _ _ _ Hxy) as [->|(q & Hq & Hqx)]; [done|].
    assert (x ∈ A) as HxA by (destruct (HA q Hq), Hqx; by subst).
    symmetry in Hxy.
    destruct Hx as [?|[->| ->]]; [done|..]; destruct Hy as [?|[->| ->]];
      try done.
    - by apply Hlink.
    - symmetry. apply Hlink. by symmetry. }
  revert Hu.
  assert (∀ x, conn (P1 ++ P2) x v →
               (out x → conn L x v) ∧
               (x ∈ A → ∃ s, out s ∧ conn P1 x s ∧ conn L s v)) as Hgen;
    [|intros Hu; by apply (Hgen u H)].
  clear u H. intros x H.
  induction H as [x|x z y Hxz _ IH]; [|specialize (IH Hv); destruct IH as [IHo IHi]].
  - split; [done|]. intros _. exists x. done.
  - assert ((x, z) ∈ P1 ∨ (z, x) ∈ P1 ∨ (x, z) ∈ P2 ∨ (z, x) ∈ P2) as Hcase.
    { destruct Hxz as [Hxz|Hxz]; apply elem_of_app in Hxz; tauto. }
    assert (conn P1 x z ∧ x ∈ A ∧ z ∈ A ∨ conn L x z ∧ out x ∧ out z)
      as [(Hc & HxA & HzA)|(Hc & Hox & Hoz)].
    { destruct Hcase as [Hc|[Hc|[Hc|Hc]]].
      - left. destruct (HA _ Hc). split; [by apply conn_edge|done].
      - left. destruct (HA _ Hc). split; [symmetry; by apply conn_edge|done].
      - right. destruct (HB _ Hc) as [H1 H2]; simpl in *.
        split; [by apply (HP2 _ Hc)|].
        split; [destruct (decide (x ∈ A)); [right; by apply HAB|by left]
               |destruct (decide (z ∈ A)); [right; by apply HAB|by left]].
      - right. destruct (HB _ Hc) as [H1 H2]; simpl in *.
        split; [symmetry; by apply (HP2 _ Hc)|].
        split; [destruct (decide (x ∈ A)); [right; by apply HAB|by left]
               |destruct (decide (z ∈ A)); [right; by apply HAB|by left]]. }
    + destruct (IHi HzA) as (s & Hos & Hzs & Hsv).
      split.
      * intros Hox. etrans; [|exact Hsv]. apply Hout; [done..|]. by etrans.
      * intros _. exists s. split; [done|]. split; [by etrans|done].
    + split.
      * intros _. etrans; [exact Hc|by apply IHo].
      * intros HxA. exists x. split; [done|]. split; [done|].
        etrans; [exact Hc|by apply IHo].
Qed.

End conn_transport.

Section twist_connectivity.
Context (A B : gset vertex) (a b : vertex).
Context (HAB : ∀ x, x ∈ A → x ∈ B → x = a ∨ x = b).
Implicit Types (u v x y : vertex).

Lemma swap_involutive x : swap a b (swap a b x) = x.
Proof. unfold swap. repeat case_decide; congruence. Qed.

Lemma swap_outside x : x ≠ a → x ≠ b → swap a b x = x.
Proof. intros. unfold swap. by rewrite !decide_False. Qed.

Lemma swap_cases x : swap a b x = x ∨ (x = a ∧ swap a b x = b) ∨ (x = b ∧ swap a b x = a).
Proof. unfold swap. repeat case_decide; subst; auto. Qed.

Let sw (P : list (vertex * vertex)) := prod_map (swap a b) (swap a b) <$> P.

Lemma conn_swapped_link (P1 : list (vertex * vertex)) :
  conn P1 a b ↔ conn (sw P1) a b.
Proof.
  assert (swap a b a = b) as Ha by (unfold swap; by rewrite decide_True).
  assert (swap a b b = a) as Hb.
  { unfold swap. case_decide; [done|]. by rewrite decide_True. }
  rewrite <- (conn_rename_involutive (swap a b) P1 a b swap_involutive).
  fold (sw P1). rewrite Ha, Hb. split; intros; by symmetry.
Qed.

(** Twisting the part on [A] does not change which vertices outside [A]
    are connected. *)
Lemma conn_twist_outside (P1 P2 : list (vertex * vertex)) u v :
  (∀ p, p ∈ P1 → p.1 ∈ A ∧ p.2 ∈ A) →
  (∀ p, p ∈ P2 → p.1 ∈ B ∧ p.2 ∈ B) →
  (u ∉ A ∨ u = a ∨ u = b) → (v ∉ A ∨ v = a ∨ v = b) →
  conn (P1 ++ P2) u v ↔ conn (sw P1 ++ P2) u v.
Proof.
  intros HA HB Hu Hv.
  assert (∀ Q1 Q2 p, p ∈ Q2 → conn (Q1 ++ Q2) p.1 p.2) as HQ2.
  { intros Q1 Q2 [p q] Hp. apply conn_edge. apply elem_of_app. by right. }
  assert (∀ Q1 Q2 x y, conn Q1 x y → conn (Q1 ++ Q2) x y) as HQ1.
  { intros Q1 Q2 x y. apply conn_mono. intros p Hp. left. apply elem_of_app. by left. }
  set (A' := A ∪ {[a; b]}).
  assert (∀ x, x ∈ A' → x ∈ B → x = a ∨ x = b) as HAB' by set_solver.
  assert (∀ x, x ∉ A ∨ x = a ∨ x = b → x ∉ A' ∨ x = a ∨ x = b) as Hout.
  { intros x [?|[?|?]]; [|by auto..].
    destruct (decide (x = a)); [by auto|]. destruct (decide (x = b)); [by auto|].
    left. set_solver. }
  assert (∀ p, p ∈ P1 → p.1 ∈ A' ∧ p.2 ∈ A') as HA1.
  { intros p Hp. destruct (HA p Hp). set_solver. }
  assert (∀ p, p ∈ sw P1 → p.1 ∈ A' ∧ p.2 ∈ A') as HA2.
  { intros p (q & -> & Hq)%list_elem_of_fmap. destruct (HA q Hq). simpl.
    destruct (swap_cases q.1) as [->|[[_ ->]|[_ ->]]];
      destruct (swap_cases q.2) as [->|[[_ ->]|[_ ->]]]; set_solver. }
  split; intros H.
  - apply (conn_two_separation A' B a b P1 P2 u v HA1 HB HAB'
             (Hout _ Hu) (Hout _ Hv) H); [|by apply HQ2].
    intros Hl. apply HQ1. by apply (proj1 (conn_swapped_link P1)).
  - apply (conn_two_separation A' B a b (sw P1) P2 u v HA2 HB HAB'
             (Hout _ Hu) (Hout _ Hv) H); [|by apply HQ2].
    intros Hl. apply HQ1. by apply (proj2 (conn_swapped_link P1)).
Qed.

End twist_connectivity.

(** The same, for the two ends of an edge of the twisted part: after the
    twist its (swapped) ends are connected exactly when they were. *)
Lemma conn_twist_inside (A B : gset vertex) (a b : vertex)
    (P1 P2 : list (vertex * vertex)) (u v : vertex) :
  (∀ x, x ∈ A → x ∈ B → x = a ∨ x = b) →
  (∀ p, p ∈ P1 → p.1 ∈ A ∧ p.2 ∈ A) →
  (∀ p, p ∈ P2 → p.1 ∈ B ∧ p.2 ∈ B) →
  u ∈ A → v ∈ A →
  conn (P1 ++ P2) u v
  ↔ conn ((prod_map (swap a b) (swap a b) <$> P1) ++ P2) (swap a b u) (swap a b v).
Proof.
  intros HAB HA HB Hu Hv.
  rewrite <- (conn_rename_involutive (swap a b)
                ((prod_map (swap a b) (swap a b) <$> P1) ++ P2)
                (swap a b u) (swap a b v) (swap_involutive a b)).
  rewrite !swap_involutive, fmap_app, (prod_map_involutive _ _ (swap_involutive a b)).
  assert (∀ Q1 Q2 x y, conn (Q1 ++ Q2) x y ↔ conn (Q2 ++ Q1) x y) as Hcomm.
  { intros Q1 Q2 x y. apply conn_ext. intros p. rewrite !elem_of_app. tauto. }
  rewrite (Hcomm P1 P2), (Hcomm P1).
  apply (conn_twist_outside B A a b); [by intros; apply HAB|done..| |].
  - destruct (decide (u ∈ B)); [right; by apply HAB|by left].
  - destruct (decide (v ∈ B)); [right; by apply HAB|by left].
Qed.

(** *** Runs that agree *)

Lemma merges_agree V1 V2 ds1 ds2 es1 es2 l1 l2 :
  represents V1 ds1 es1 → represents V2 ds2 es2 →
  (∀ p, p ∈ l1 → p.1 ∈ V1 ∧ p.2 ∈ V1) →
  (∀ p, p ∈ l2 → p.1 ∈ V2 ∧ p.2 ∈ V2) →
  agree es1 es2 l1 l2 →
  merges ds1 l1 = merges ds2 l2.
Proof.
  revert ds1 ds2 es1 es2 l2.
  induction l1 as [|[u1 v1] l1 IH]; intros ds1 ds2 es1 es2 [|[u2 v2] l2];
    intros Hr1 Hr2 Hin1 Hin2 Hag; try done.
  destruct Hag as [Hstep Hag]. simpl in Hstep.
  destruct (Hin1 (u1, v1)) as [Hu1 Hv1]; [set_solver|].
  destruct (Hin2 (u2, v2)) as [Hu2 Hv2]; [set_solver|]. simpl in *.
  rewrite (IH (DisjointSet.union ds1 u1 v1) (DisjointSet.union ds2 u2 v2)
              ((u1, v1) :: es1) ((u2, v2) :: es2) l2);
    [|by apply represents_union|by apply represents_union|set_solver|set_solver|done].
  f_equal. destruct Hr1 as [_ Hr1], Hr2 as [_ Hr2].
  repeat case_decide; try done.
  - exfalso. apply Hr1 in H; [|done..]. apply Hstep, Hr2 in H; done.
  - exfalso. apply Hr2 in H0; [|done..]. apply Hstep, Hr1 in H0; done.
Qed.

(** Two lists of edges whose runs agree have the same rank. *)
Lemma rank_of_edges_agree (es es' : list (vertex * vertex * label)) :
  agree [] [] (ends <$> es) (ends <$> es') →
  rank_of_edges es = rank_of_edges es'.
Proof.
  intros Hag. rewrite !rank_of_edges_merges. f_equal.
  eapply merges_agree; [apply represents_make|apply represents_make| | |done];
    apply ends_in_spanned.
Qed.

(** ** Connected components *)

Section components_theory.
Implicit Types (V C : list vertex) (es : list (vertex * vertex))
  (cs : list (list vertex)).

Lemma conn_stays_in V es x y :
  (∀ p, p ∈ es → p.1 ∈ V ∧ p.2 ∈ V) → conn es x y → x ∈ V → y ∈ V.
Proof.
  intros Hin H Hx. destruct (conn_endpoint _ _ _ H) as [->|(p & Hp & [<-|<-])];
    [done|by apply Hin..].
Qed.

Lemma find_run_conn V es x y :
  (∀ p, p ∈ es → p.1 ∈ V ∧ p.2 ∈ V) → x ∈ V → y ∈ V →
  DisjointSet.find (DisjointSet.union_all (DisjointSet.make V) es) x
  = DisjointSet.find (DisjointSet.union_all (DisjointSet.make V) es) y
  ↔ conn es x y.
Proof.
  intros Hin Hx Hy. destruct (represents_run V es Hin) as [_ Hrep].
  rewrite Hrep by done. apply conn_ext. intros p.
  by rewrite app_nil_r, elem_of_reverse.
Qed.

Lemma blocks_class V es C :
  (∀ p, p ∈ es → p.1 ∈ V ∧ p.2 ∈ V) → C ∈ blocks V es → is_class es C.
Proof.
  intros Hin. unfold blocks.
  intros (r & -> & Hr)%list_elem_of_fmap.
  apply elem_of_remove_dups, list_elem_of_fmap in Hr as (z & -> & Hz).
  split.
  - intros Hnil. assert (z ∈ filter (λ v, DisjointSet.find
      (DisjointSet.union_all (DisjointSet.make V) es) v =
      DisjointSet.find (DisjointSet.union_all (DisjointSet.make V) es) z) V) as Hzin
      by (by apply list_elem_of_filter).
    rewrite Hnil in Hzin. by apply elem_of_nil in Hzin.
  - intros x [Hfx Hx]%list_elem_of_filter y. rewrite list_elem_of_filter.
    rewrite <- Hfx. split.
    + intros [Hfy Hy]. apply (find_run_conn V es x y Hin Hx Hy). done.
    + intros Hc. assert (y ∈ V) as Hy by (by eapply conn_stays_in).
      split; [|done]. symmetry. by apply (find_run_conn V es x y Hin Hx Hy).
Qed.

Lemma elem_of_concat cs (x : vertex) : x ∈ concat cs ↔ ∃ C, C ∈ cs ∧ x ∈ C.
Proof.
  induction cs as [|D cs IH]; simpl.
  - split; [by intros ?%elem_of_nil|]. intros (C & ?%elem_of_nil & _). done.
  - rewrite elem_of_app, IH. split.
    + intros [Hx|(C & HC & Hx)]; [exists D|exists C]; set_solver.
    + intros (C & [->|HC]%elem_of_cons & Hx); [by left|right; eauto].
Qed.

Lemma blocks_NoDup V es : NoDup V → NoDup (concat (blocks V es)).
Proof.
  intros HV. unfold blocks.
  set (f := DisjointSet.find (DisjointSet.union_all (DisjointSet.make V) es)).
  pose proof (NoDup_remove_dups (f <$> V)) as Hnd.
  induction Hnd as [|r rs Hr Hnd IH]; [constructor|].
  rewrite fmap_cons. simpl. apply NoDup_app. split_and!.
  - by apply NoDup_filter.
  - intros x [Hfx _]%list_elem_of_filter Hin.
    apply elem_of_concat in Hin as (C & HC & Hx).
    apply list_elem_of_fmap in HC as (r' & -> & Hr').
    apply list_elem_of_filter in Hx as [Hfx' _]. congruence.
  - exact IH.
Qed.

Lemma blocks_cover V es x : x ∈ V → ∃ C, C ∈ blocks V es ∧ x ∈ C.
Proof.
  intros Hx. unfold blocks. eexists. split.
  - apply list_elem_of_fmap. eexists. split; [done|].
    apply elem_of_remove_dups, list_elem_of_fmap. by exists x.
  - by apply list_elem_of_filter.
Qed.

Lemma insert_component_perm C cs : insert_component C cs ≡ₚ C :: cs.
Proof.
  induction cs as [|D cs IH]; simpl; [done|].
  case_decide; [done|]. rewrite IH. apply Permutation_swap.
Qed.

Lemma sort_components_perm cs : sort_components cs ≡ₚ cs.
Proof.
  induction cs as [|C cs IH]; simpl; [done|].
  by rewrite insert_component_perm, IH.
Qed.

Lemma concat_perm cs cs' : cs ≡ₚ cs' → concat cs ≡ₚ concat cs'.
Proof.
  induction 1 as [|C cs cs' _ IH|C D cs|cs1 cs2 cs3 _ IH1 _ IH2]; simpl.
  - done.
  - by rewrite IH.
  - rewrite !app_assoc. f_equiv. apply Permutation_app_comm.
  - by etrans.
Qed.

(** The components reported for a graph, in any order: connectivity classes
    of its edge list, pairwise disjoint. *)
Lemma connected_components_classes {L} (g : Graph L) cs :
  graph_ok g → cs ≡ₚ connected_components g →
  Forall (is_class (pairs g)) cs ∧ NoDup (concat cs).
Proof.
  intros [Hnd Hin] Hperm.
  assert (cs ≡ₚ blocks (vertices g) (pairs g)) as Hperm'.
  { rewrite Hperm. apply sort_components_perm. }
  assert (∀ p, p ∈ pairs g → p.1 ∈ vertices g ∧ p.2 ∈ vertices g) as Hin'.
  { intros p (e & -> & He)%list_elem_of_fmap. by apply Hin. }
  split.
  - rewrite Hperm'. apply Forall_forall. intros C HC.
    by apply (blocks_class (vertices g)).
  - rewrite (concat_perm _ _ Hperm'). by apply blocks_NoDup.
Qed.

End components_theory.

(** ** The vertex map of the constructor *)

Section vertex_map.
Implicit Types (comp c : list vertex) (prev : list (list vertex))
  (vm : gmap vertex vertex) (v x y t : vertex).

Lemma lookup_vertex_insert vm x y v :
  lookup_vertex (<[x := y]> vm) v = if decide (v = x) then y else lookup_vertex vm v.
Proof.
  unfold lookup_vertex. case_decide as Hv.
  - subst. by rewrite lookup_insert_eq.
  - by rewrite lookup_insert_ne.
Qed.

Lemma lookup_vertex_identity (V : list vertex) v :
  lookup_vertex (list_to_map ((λ v, (v, v)) <$> V)) v = v.
Proof.
  induction V as [|w V IH]; [done|].
  rewrite fmap_cons, list_to_map_cons, lookup_vertex_insert.
  by case_decide.
Qed.

Lemma glue_key_head comp comp' prev v :
  head comp = head comp' → glue_key comp prev v = glue_key comp' prev v.
Proof. intros Hh. destruct prev as [|c prev]; simpl; by rewrite ?Hh. Qed.

Lemma join_components_lookup prev comp vm v :
  Forall (λ c, c ≠ []) prev →
  lookup_vertex (join_components comp prev vm) v
  = default (lookup_vertex vm v) (glue_key comp prev v).
Proof.
  revert comp vm. induction prev as [|c prev IH]; intros comp vm Hne; [done|].
  apply Forall_cons in Hne as [Hc Hne].
  cbn [join_components]. rewrite IH by done.
  rewrite (glue_key_head (c ++ comp) c).
  2:{ destruct c; [done|]. done. }
  cbn [glue_key]. rewrite lookup_vertex_insert.
  destruct (glue_key c prev v); [done|]. by case_decide.
Qed.

Lemma init_vertex_map_glue (G : Graph (option label)) v :
  Forall (λ c, c ≠ []) (connected_components G) →
  lookup_vertex (init_vertex_map G) v
  = match reverse (connected_components G) with
    | [] => v
    | comp :: prev => glue comp prev v
    end.
Proof.
  intros Hne. unfold init_vertex_map.
  assert (Forall (λ c, c ≠ []) (reverse (connected_components G))) as Hne'
    by (by rewrite reverse_Permutation).
  destruct (reverse (connected_components G)) as [|comp prev].
  - apply lookup_vertex_identity.
  - apply Forall_cons in Hne' as [_ Hne'].
    rewrite join_components_lookup by done. unfold glue.
    by rewrite lookup_vertex_identity.
Qed.

Lemma head_default_elem_of comp : comp ≠ [] → default 0 (head comp) ∈ comp.
Proof. destruct comp; [done|]. intros _. simpl. set_solver. Qed.

Lemma last_default_elem_of comp : comp ≠ [] → default 0 (last comp) ∈ comp.
Proof.
  intros Hne. destruct (last comp) as [x|] eqn:Hl.
  - simpl. by apply last_Some_elem_of.
  - by apply last_None in Hl.
Qed.

Lemma glue_key_Some comp prev v t :
  Forall (λ c, c ≠ []) (comp :: prev) →
  glue_key comp prev v = Some t →
  (∃ c, c ∈ comp :: prev ∧ v ∈ c) ∧ (∃ c, c ∈ prev ∧ t ∈ c).
Proof.
  revert comp. induction prev as [|c prev IH]; intros comp Hne; [done|].
  apply Forall_cons in Hne as [Hcomp Hne]. cbn [glue_key].
  destruct (glue_key c prev v) as [t'|] eqn:Hk.
  - intros [= ->]. destruct (IH c Hne Hk) as [(c1 & Hc1 & Hv) (c2 & Hc2 & Ht)].
    split; [exists c1|exists c2]; set_solver.
  - case_decide as Hv; [|done]. intros [= <-].
    apply Forall_cons in Hne as [Hc _]. split.
    + exists comp. split; [set_solver|]. subst v. by apply head_default_elem_of.
    + exists c. split; [set_solver|]. by apply last_default_elem_of.
Qed.

Lemma glue_outside comp prev (C : list vertex) v :
  Forall (λ c, c ≠ []) (comp :: prev) →
  (∀ x, x ∈ C → x ∉ concat (comp :: prev)) →
  glue comp prev v ∈ C ↔ v ∈ C.
Proof.
  intros Hne Hdisj. unfold glue.
  destruct (glue_key comp prev v) as [t|] eqn:Hk; [|done]. simpl.
  destruct (glue_key_Some comp prev v t Hne Hk) as [(c1 & Hc1 & Hv) (c2 & Hc2 & Ht)].
  split; intros Hin; exfalso; eapply Hdisj; try exact Hin; apply elem_of_concat.
  - exists c2. set_solver.
  - exists c1. done.
Qed.

Lemma glue_step comp c prev v :
  Forall (λ c, c ≠ []) (comp :: c :: prev) →
  (∀ x, x ∈ comp → x ∉ concat (c :: prev)) →
  glue comp (c :: prev) v
  = rename1 (default 0 (head comp)) (default 0 (last c)) (glue c prev v).
Proof.
  intros Hne Hdisj. apply Forall_cons in Hne as [Hcomp Hne].
  unfold glue. cbn [glue_key]. unfold rename1.
  destruct (glue_key c prev v) as [t|] eqn:Hk; simpl.
  - rewrite decide_False; [done|]. intros ->.
    destruct (glue_key_Some c prev v _ Hne Hk) as [_ (c2 & Hc2 & Ht)].
    apply (Hdisj _ (head_default_elem_of comp Hcomp)).
    apply elem_of_concat. exists c2. set_solver.
  - by case_decide.
Qed.

(** Gluing the components along the vertex map does not change which ends
    of an edge are connected by a part of the edge list: the rank function
    survives the forced connection. *)
Lemma glue_conn prev comp (E P : list (vertex * vertex)) u v :
  Forall (is_class E) (comp :: prev) →
  NoDup (concat (comp :: prev)) →
  (∀ p, p ∈ P → p ∈ E) →
  conn E u v →
  conn (prod_map (glue comp prev) (glue comp prev) <$> P)
       (glue comp prev u) (glue comp prev v)
  ↔ conn P u v.
Proof.
  revert comp P u v. induction prev as [|c prev IH]; intros comp P u v Hcl Hnd HPE Huv.
  - unfold glue. simpl.
    assert (prod_map (λ v, v) (λ v, v) <$> P = P) as ->; [|done].
    rewrite <- (list_fmap_id P) at 2. apply list_fmap_ext. by intros _ [??] _.
  - assert (Forall (λ c, c ≠ []) (comp :: c :: prev)) as Hne.
    { eapply Forall_impl; [exact Hcl|]. by intros ? [? _]. }
    cbn [concat] in Hnd. apply NoDup_app in Hnd as (_ & Hdisj & Hnd).
    apply Forall_cons in Hcl as [Hcomp Hcl].
    set (g' := glue c prev).
    set (h := default 0 (head comp)). set (t := default 0 (last c)).
    assert (∀ x, glue comp (c :: prev) x = rename1 h t (g' x)) as Hg
      by (intros x; by apply glue_step).
    assert (prod_map (glue comp (c :: prev)) (glue comp (c :: prev)) <$> P
            = prod_map (rename1 h t) (rename1 h t) <$> (prod_map g' g' <$> P)) as ->.
    { rewrite <- list_fmap_compose. apply list_fmap_ext.
      intros _ [p q] _. simpl. by rewrite !Hg. }
    rewrite !Hg.
    apply Forall_cons in Hne as [Hcomp_ne Hne].
    assert (∀ x, g' x ∈ comp ↔ x ∈ comp) as Hmem
      by (intros x; by apply glue_outside).
    rewrite (conn_rename1 h t (prod_map g' g' <$> E)).
    + by apply IH.
    + intros p (q & -> & Hq)%list_elem_of_fmap. apply list_elem_of_fmap.
      exists q. split; [done|by apply HPE].
    + intros Hht.
      apply (conn_closed (λ x, x ∈ comp)) in Hht.
      * apply (Hdisj t Hht). apply elem_of_app. left.
        apply last_default_elem_of.
        by apply Forall_cons in Hne as [? _].
      * intros p ([x y] & -> & Hxy)%list_elem_of_fmap. simpl. rewrite !Hmem.
        destruct Hcomp as [_ Hcomp].
        assert (conn E x y) as Hc by (by apply conn_edge).
        split; intros Hin.
        -- by apply (Hcomp x Hin y).
        -- apply (Hcomp y Hin x). by symmetry.
      * by apply head_default_elem_of.
    + by apply conn_rename.
Qed.

End vertex_map.

(** ** Editing a graph *)

Section editing.
Implicit Types (g : Graph label) (e x : vertex * vertex * label)
  (es : list (vertex * vertex * label)).

Lemma remove_first_perm x es : x ∈ es → es ≡ₚ x :: remove_first x es.
Proof.
  induction es as [|y es IH]; [by intros ?%elem_of_nil|].
  intros Hx. simpl. case_decide as Hxy; [by subst|].
  apply elem_of_cons in Hx as [->|Hx]; [done|].
  rewrite (IH Hx) at 1. apply Permutation_swap.
Qed.

Lemma edges_add_edge g e : edges (add_edge g e) ≡ₚ norm e :: edges g.
Proof. unfold add_edge. cbn [edges]. apply sort_edges_perm. Qed.

Lemma elem_of_vertices_add_edge g e (v : vertex) :
  v ∈ vertices (add_edge g e) ↔ v = src e ∨ v = dst e ∨ v ∈ vertices g.
Proof.
  unfold add_edge. cbn [vertices]. rewrite elem_of_sort_vertices. set_solver.
Qed.

Lemma graph_ok_add_edge g e : graph_ok g → graph_ok (add_edge g e).
Proof.
  intros [Hnd Hin]. split; [apply NoDup_sort_vertices|].
  intros e' He'.
  assert (e' ∈ norm e :: edges g) as He'' by (by rewrite <- edges_add_edge).
  clear He'. rename He'' into He'.
  rewrite !elem_of_vertices_add_edge.
  apply elem_of_cons in He' as [->|He'].
  - destruct (norm_ends e) as [[Hs Hd]|[Hs Hd]]; unfold src, dst in *;
      rewrite Hs, Hd; split; auto.
  - destruct (Hin e' He'). split; auto.
Qed.

Lemma elem_of_remove_first x y es : y ∈ remove_first x es → y ∈ es.
Proof.
  induction es as [|z es IH]; simpl; [done|].
  case_decide; set_solver.
Qed.

Lemma graph_ok_delete_edge g e : graph_ok g → graph_ok (delete_edge g e).
Proof.
  intros [Hnd Hin]. split; [done|].
  intros e' He'. apply Hin. apply (elem_of_remove_first (norm e)). exact He'.
Qed.

Lemma graph_ok_twist_fold (a b : vertex) g es :
  graph_ok g → graph_ok (foldl (twist_step a b) g es).
Proof.
  revert g. induction es as [|e es IH]; intros g Hg; [done|].
  simpl. apply IH. by apply graph_ok_add_edge, graph_ok_delete_edge.
Qed.

Lemma fmap_fixed (f : vertex * vertex * label → vertex * vertex * label) es :
  (∀ e, e ∈ es → f e = e) → f <$> es = es.
Proof.
  intros Hf. rewrite <- (list_fmap_id es) at 2. apply list_fmap_ext.
  intros _ e He%list_elem_of_lookup_2. by apply Hf.
Qed.

(** Replacing the edge carrying a given label. *)
Lemma replace_by_label x e es :
  NoDup (lbl <$> es) → e ∈ es →
  x :: remove_first e es
  ≡ₚ (λ e', if decide (lbl e' = lbl e) then x else e') <$> es.
Proof.
  induction es as [|y es IH]; [by intros _ ?%elem_of_nil|].
  rewrite fmap_cons. intros [Hy Hnd]%NoDup_cons He. simpl.
  destruct (decide (e = y)) as [->|Hne].
  - rewrite decide_True by done. f_equiv.
    rewrite fmap_fixed; [done|].
    intros e' He'. rewrite decide_False; [done|].
    intros Heq. apply Hy. rewrite <- Heq. apply list_elem_of_fmap. eauto.
  - apply elem_of_cons in He as [?|He]; [done|].
    rewrite decide_False.
    2:{ intros Heq. apply Hy. rewrite Heq. apply list_elem_of_fmap. eauto. }
    rewrite <- (IH Hnd He). apply Permutation_swap.
Qed.

End editing.

Section twist_edges.
Context (a b : vertex).
Implicit Types (g : Graph label) (e : vertex * vertex * label)
  (es T : list (vertex * vertex * label)).

Lemma same_label_same_edge es e e' :
  NoDup (lbl <$> es) → e ∈ es → e' ∈ es → lbl e = lbl e' → e = e'.
Proof.
  induction es as [|y es IH]; [by intros _ ?%elem_of_nil|].
  rewrite fmap_cons. intros [Hy Hnd]%NoDup_cons He He' Hl.
  apply elem_of_cons in He as [->|He]; apply elem_of_cons in He' as [->|He'].
  - done.
  - destruct Hy. rewrite Hl. apply list_elem_of_fmap. eauto.
  - destruct Hy. rewrite <- Hl. apply list_elem_of_fmap. eauto.
  - by apply IH.
Qed.

Lemma lbl_swapped_in S e : lbl (twist_edge a b S e) = lbl e.
Proof. unfold twist_edge. by case_decide. Qed.

Lemma edges_twist_step g e :
  edges (twist_step a b g e)
  ≡ₚ norm (rename_edge (swap a b) e) :: remove_first (norm e) (edges g).
Proof. unfold twist_step. by rewrite edges_add_edge. Qed.

Lemma edges_twist_fold g T :
  NoDup (lbl <$> edges g) → (∀ e, e ∈ edges g → norm e = e) →
  NoDup (lbl <$> T) → (∀ e, e ∈ T → e ∈ edges g) →
  edges (foldl (twist_step a b) g T)
  ≡ₚ twist_edge a b (list_to_set (lbl <$> T)) <$> edges g.
Proof.
  intros Hnd Hnorm. induction T as [|e T IH] using rev_ind; intros HT Hin.
  - simpl. rewrite fmap_fixed; [done|]. intros e _. unfold twist_edge.
    by rewrite decide_False by set_solver.
  - rewrite fmap_app in HT. apply NoDup_app in HT as (HT & Hfresh & _).
    specialize (IH HT ltac:(set_solver)).
    assert (e ∈ edges g) as He by set_solver.
    assert (lbl e ∉ (list_to_set (lbl <$> T) : gset label)) as Hnot.
    { rewrite elem_of_list_to_set. intros Hl. apply (Hfresh _ Hl). set_solver. }
    rewrite foldl_snoc, edges_twist_step, (Hnorm e He).
    set (gk := foldl (twist_step a b) g T) in *.
    assert (e ∈ edges gk) as Hek.
    { rewrite IH. apply list_elem_of_fmap. exists e. split; [|done].
      unfold twist_edge. by rewrite decide_False. }
    assert (NoDup (lbl <$> edges gk)) as Hndk.
    { rewrite IH, <- list_fmap_compose.
      erewrite list_fmap_ext; [exact Hnd|]. intros _ x _. apply lbl_swapped_in. }
    rewrite (replace_by_label _ e (edges gk) Hndk Hek), IH, <- list_fmap_compose.
    apply eq_subrelation; [apply _|]. apply list_fmap_ext.
    intros _ e' He'%list_elem_of_lookup_2. simpl.
    rewrite lbl_swapped_in, fmap_app, list_to_set_app_L. simpl.
    case_decide as Hl.
    + assert (e' = e) as -> by exact (same_label_same_edge (edges g) e' e Hnd He' He Hl).
      unfold twist_edge. rewrite decide_True by set_solver. done.
    + unfold twist_edge. destruct (decide (lbl e' ∈ (list_to_set (lbl <$> T) : gset label))).
      * by rewrite decide_True by set_solver.
      * rewrite decide_False; [done|]. set_solver.
Qed.

End twist_edges.

(** ** The constructor on a labelled graph *)

Lemma omap_id_fmap_Some (l : list label) : omap id (Some <$> l) = l.
Proof.
  induction l as [|x l IH]; [done|].
  rewrite fmap_cons. cbn. by rewrite IH.
Qed.

Lemma init_labels_labelled (g : Graph label) :
  NoDup (lbl <$> edges g) → init_labels (labelled g) None = lbl <$> edges g.
Proof.
  intros Hnd. unfold init_labels. cbn [default].
  assert (edge_labels (labelled g) = Some <$> (lbl <$> edges g)) as ->.
  { unfold edge_labels, labelled. cbn [edges].
    rewrite <- !list_fmap_compose. done. }
  rewrite decide_False; [apply omap_id_fmap_Some|].
  intros [Hnone|Hsize].
  - apply elem_of_list_to_set, list_elem_of_fmap in Hnone as (? & ? & _). done.
  - apply Hsize. rewrite size_list_to_set by (by apply (NoDup_fmap_2 Some)).
    unfold num_edges, labelled. cbn [edges]. by rewrite !length_fmap.
Qed.

Lemma init_labelled_edges (g : Graph label) :
  NoDup (lbl <$> edges g) →
  edges (_G (__init__ (labelled g) None))
  ≡ₚ norm ∘ rename_edge (lookup_vertex (init_vertex_map (labelled g))) <$> edges g.
Proof.
  intros Hnd. unfold __init__. cbn [_G]. rewrite init_labels_labelled by done.
  unfold of_edges, of_lists. cbn [edges]. rewrite sort_edges_perm.
  set (m := lookup_vertex (init_vertex_map (labelled g))).
  change (edges (labelled g))
    with ((λ e : vertex * vertex * label, (e.1, Some e.2)) <$> edges g).
  rewrite zip_with_fmap_l, zip_with_fmap_r, zip_with_diag, <- list_fmap_compose.
  done.
Qed.

Lemma init_labelled_groundset (g : Graph label) :
  NoDup (lbl <$> edges g) →
  _groundset (__init__ (labelled g) None) = list_to_set (lbl <$> edges g).
Proof. intros Hnd. unfold __init__. cbn [_groundset]. by rewrite init_labels_labelled. Qed.

Lemma pairs_labelled (g : Graph label) : pairs (labelled g) = pairs g.
Proof.
  unfold pairs, labelled. cbn [edges]. by rewrite <- list_fmap_compose.
Qed.

Lemma graph_ok_labelled (g : Graph label) : graph_ok g → graph_ok (labelled g).
Proof.
  intros [Hnd Hin]. split; [done|].
  intros e (e' & -> & He')%list_elem_of_fmap. by apply Hin.
Qed.

(** The vertex map of the constructor keeps the connectivity of the ends of
    every edge by every part of the edge list. *)
Lemma init_vertex_map_conn (H : Graph (option label)) (P : list (vertex * vertex)) u v :
  graph_ok H →
  (∀ p, p ∈ P → p ∈ pairs H) →
  conn (pairs H) u v →
  let m := lookup_vertex (init_vertex_map H) in
  conn (prod_map m m <$> P) (m u) (m v) ↔ conn P u v.
Proof.
  intros Hok HP Huv m.
  destruct (connected_components_classes H (reverse (connected_components H)) Hok)
    as [Hcl Hnd]; [apply reverse_Permutation|].
  assert (Forall (λ c : list vertex, c ≠ []) (connected_components H)) as Hne.
  { rewrite <- (reverse_Permutation (connected_components H)).
    eapply Forall_impl; [exact Hcl|]. by intros ? [? _]. }
  assert (∀ x, m x = match reverse (connected_components H) with
                      | [] => x
                      | comp :: prev => glue comp prev x
                      end) as Hm
    by (intros x; by apply init_vertex_map_glue).
  destruct (reverse (connected_components H)) as [|comp prev].
  - assert (prod_map m m <$> P = P) as ->.
    { rewrite <- (list_fmap_id P) at 2. apply list_fmap_ext.
      intros _ [p q] _. simpl. by rewrite !Hm. }
    by rewrite !Hm.
  - assert (prod_map m m <$> P = prod_map (glue comp prev) (glue comp prev) <$> P) as ->.
    { apply list_fmap_ext. intros _ [p q] _. simpl. by rewrite !Hm. }
    rewrite !Hm. by apply (glue_conn prev comp (pairs H)).
Qed.

(** ** A twist keeps the rank function *)

Lemma conn_edges_flip (f g : vertex * vertex * label → vertex * vertex * label)
    (P : list (vertex * vertex * label)) (e : vertex * vertex * label) :
  (∀ x, ends (f x) = ends (g x) ∨ ends (f x) = ((ends (g x)).2, (ends (g x)).1)) →
  conn (ends <$> (f <$> P)) (src (f e)) (dst (f e))
  ↔ conn (ends <$> (g <$> P)) (src (g e)) (dst (g e)).
Proof.
  intros Hfg.
  assert (∀ x y, conn (ends <$> (f <$> P)) x y ↔ conn (ends <$> (g <$> P)) x y) as Hc.
  { intros x y. split; apply conn_mono; intros p Hp;
      apply list_elem_of_fmap in Hp as (? & -> & (z & -> & Hz)%list_elem_of_fmap).
    - destruct (Hfg z) as [Heq|Heq]; [left|right]; rewrite Heq; simpl;
        apply list_elem_of_fmap; eexists; (split; [|apply list_elem_of_fmap; eauto]);
        [done|by destruct (ends (g z))].
    - destruct (Hfg z) as [Heq|Heq]; [left|right];
        apply list_elem_of_fmap; eexists; (split; [|apply list_elem_of_fmap; eauto]);
        rewrite Heq; [done|by destruct (ends (g z))]. }
  rewrite Hc. unfold src, dst.
  destruct (Hfg e) as [Heq|Heq]; unfold ends in Heq; rewrite Heq; [done|].
  simpl. split; intros; by symmetry.
Qed.

Lemma same_labels_same_list (S l1 l2 : list (vertex * vertex * label)) :
  NoDup (lbl <$> S) → (∀ e, e ∈ l1 → e ∈ S) → (∀ e, e ∈ l2 → e ∈ S) →
  lbl <$> l1 = lbl <$> l2 → l1 = l2.
Proof.
  intros Hnd. revert l2. induction l1 as [|x l1 IH]; intros [|y l2] H1 H2 Hl;
    try done.
  rewrite !fmap_cons in Hl. injection Hl as Hxy Hl. f_equal.
  - apply (same_label_same_edge S); [done|set_solver..|done].
  - apply IH; [set_solver..|done].
Qed.

Section twist_rank.
Context (M : GraphicMatroid) (Hwf : wf M) (X : gset label) (a b : vertex).
Context (A B : gset vertex).
Context (HA : ∀ e, e ∈ edges (_G M) → lbl e ∈ X → src e ∈ A ∧ dst e ∈ A).
Context (HB : ∀ e, e ∈ edges (_G M) → lbl e ∉ X → src e ∈ B ∧ dst e ∈ B).
Context (HAB : ∀ x, x ∈ A → x ∈ B → x = a ∨ x = b).
Context (G' : Graph label) (Hok : graph_ok G').
Context (HG' : edges G' ≡ₚ twist_edge a b X <$> edges (_G M)).

Let M' := __init__ (labelled G') None.
Let m := lookup_vertex (init_vertex_map (labelled G')).
Let twisted (e : vertex * vertex * label) := norm (rename_edge m (twist_edge a b X e)).
Let twisted0 (e : vertex * vertex * label) :=
  if decide (lbl e ∈ X) then rename_edge (swap a b) e else e.

Lemma twisted_labels : NoDup (lbl <$> edges G').
Proof.
  rewrite HG', <- list_fmap_compose.
  erewrite list_fmap_ext; [exact (wf_labels M Hwf)|].
  intros _ e _. apply lbl_swapped_in.
Qed.

Lemma twisted_wf : wf M'.
Proof. by apply init_wf. Qed.

Lemma twisted_edges : edges (_G M') ≡ₚ twisted <$> edges (_G M).
Proof.
  unfold M'. rewrite init_labelled_edges by apply twisted_labels.
  rewrite HG', <- list_fmap_compose. done.
Qed.

Lemma twisted_groundset : _groundset M' = _groundset M.
Proof.
  unfold M'. rewrite init_labelled_groundset by apply twisted_labels.
  rewrite (wf_groundset M Hwf). apply set_eq. intros l.
  rewrite !elem_of_list_to_set, HG', <- list_fmap_compose.
  erewrite list_fmap_ext; [done|]. intros _ e _. apply lbl_swapped_in.
Qed.

Lemma lbl_twisted e : lbl (twisted e) = lbl e.
Proof. unfold twisted. rewrite lbl_norm. apply lbl_swapped_in. Qed.

Lemma conn_twisted0 (P : list (vertex * vertex * label)) e :
  (∀ x, x ∈ P → x ∈ edges (_G M)) → e ∈ edges (_G M) →
  conn (ends <$> P) (src e) (dst e)
  ↔ conn (ends <$> (twisted0 <$> P)) (src (twisted0 e)) (dst (twisted0 e)).
Proof.
  intros HP He.
  set (P1 := ends <$> filter (λ x, lbl x ∈ X) P).
  set (P2 := ends <$> filter (λ x, lbl x ∉ X) P).
  assert (∀ x y, conn (ends <$> P) x y ↔ conn (P1 ++ P2) x y) as H1.
  { intros x y. apply conn_ext. intros p. unfold P1, P2.
    rewrite elem_of_app, !list_elem_of_fmap.
    setoid_rewrite list_elem_of_filter. split.
    - intros (z & -> & Hz). destruct (decide (lbl z ∈ X)); [left|right]; eauto.
    - intros [(z & -> & _ & Hz)|(z & -> & _ & Hz)]; eauto. }
  assert (∀ x y, conn (ends <$> (twisted0 <$> P)) x y
                 ↔ conn ((prod_map (swap a b) (swap a b) <$> P1) ++ P2) x y) as H2.
  { intros x y. apply conn_ext. intros p. unfold P1, P2.
    rewrite elem_of_app, !list_elem_of_fmap. split.
    - intros (? & -> & (z & -> & Hz)%list_elem_of_fmap). unfold twisted0.
      case_decide.
      + left. exists (ends z). split; [done|]. apply list_elem_of_fmap.
        exists z. split; [done|]. by apply list_elem_of_filter.
      + right. exists z. split; [done|]. by apply list_elem_of_filter.
    - intros [(? & -> & (z & -> & [Hl Hz]%list_elem_of_filter)%list_elem_of_fmap)
             |(z & -> & [Hl Hz]%list_elem_of_filter)].
      + exists (twisted0 z). split; [|apply list_elem_of_fmap; eauto].
        unfold twisted0. by rewrite decide_True.
      + exists (twisted0 z). split; [|apply list_elem_of_fmap; eauto].
        unfold twisted0. by rewrite decide_False. }
  assert (∀ p, p ∈ P1 → p.1 ∈ A ∧ p.2 ∈ A) as HP1.
  { intros p (z & -> & [Hl Hz]%list_elem_of_filter)%list_elem_of_fmap.
    by apply HA; [apply HP|]. }
  assert (∀ p, p ∈ P2 → p.1 ∈ B ∧ p.2 ∈ B) as HP2.
  { intros p (z & -> & [Hl Hz]%list_elem_of_filter)%list_elem_of_fmap.
    by apply HB; [apply HP|]. }
  rewrite H1, H2. unfold twisted0. case_decide as Hl.
  - destruct (HA e He Hl). by apply (conn_twist_inside A B).
  - destruct (HB e He Hl) as [Hs Hd].
    apply (conn_twist_outside A B a b HAB); [done..| |].
    + destruct (decide (src e ∈ A)); [right; by apply HAB|by left].
    + destruct (decide (dst e ∈ A)); [right; by apply HAB|by left].
Qed.

Lemma conn_twisted (P : list (vertex * vertex * label)) e :
  (∀ x, x ∈ P → x ∈ edges (_G M)) → e ∈ edges (_G M) →
  conn (ends <$> P) (src e) (dst e)
  ↔ conn (ends <$> (twisted <$> P)) (src (twisted e)) (dst (twisted e)).
Proof.
  intros HP He. rewrite (conn_twisted0 P e HP He).
  assert (∀ x : vertex * vertex * label,
            ends (norm x) = ends x ∨ ends (norm x) = ((ends x).2, (ends x).1)) as Hnorm.
  { intros x. destruct (norm_ends x) as [[Hs Hd]|[Hs Hd]]; [left|right];
      unfold ends, src, dst in *; destruct (norm x) as [[??]?], x as [[??]?];
      simpl in *; congruence. }
  rewrite <- (conn_edges_flip (twist_edge a b X) twisted0).
  2:{ intros x. unfold twist_edge, twisted0. case_decide; [apply Hnorm|by left]. }
  set (t := twist_edge a b X).
  assert (∀ x, x ∈ edges (_G M) → t x ∈ edges G') as Ht.
  { intros x Hx. rewrite HG'. apply list_elem_of_fmap. eauto. }
  rewrite <- (init_vertex_map_conn (labelled G') (ends <$> (t <$> P))
                (src (t e)) (dst (t e))).
  - fold m. rewrite (conn_edges_flip twisted (rename_edge m ∘ t)).
    2:{ intros x. unfold twisted. apply Hnorm. }
    rewrite <- !list_fmap_compose. done.
  - by apply graph_ok_labelled.
  - rewrite pairs_labelled. intros p (? & -> & (x & -> & Hx)%list_elem_of_fmap)%list_elem_of_fmap.
    apply list_elem_of_fmap. exists (t x). split; [done|]. apply Ht. by apply HP.
  - rewrite pairs_labelled. apply conn_edge. apply list_elem_of_fmap.
    exists (t e). split; [by destruct (t e) as [[??]?]|]. by apply Ht.
Qed.

Lemma agree_twisted (P es : list (vertex * vertex * label)) :
  (∀ x, x ∈ P → x ∈ edges (_G M)) → (∀ x, x ∈ es → x ∈ edges (_G M)) →
  agree (ends <$> P) (ends <$> (twisted <$> P))
        (ends <$> es) (ends <$> (twisted <$> es)).
Proof.
  revert P. induction es as [|e es IH]; intros P HP Hes; [done|].
  rewrite !fmap_cons. split.
  - apply conn_twisted; [done|set_solver].
  - apply (IH (e :: P)); set_solver.
Qed.

Lemma rank_twisted (Y : gset label) :
  Y ⊆ _groundset M → rank M' Y = rank M Y.
Proof.
  intros HY. unfold rank, validated. rewrite twisted_groundset.
  rewrite !decide_True by done. unfold _rank.
  destruct (groundset_to_edges_spec M Hwf Y HY) as (es & -> & Hl & Hin).
  destruct (groundset_to_edges_spec M' twisted_wf Y) as (es' & -> & Hl' & Hin');
    [by rewrite twisted_groundset|].
  cbn. f_equal.
  assert (es' = twisted <$> es) as ->.
  { apply (same_labels_same_list (edges (_G M'))).
    - apply (wf_labels M' twisted_wf).
    - intros e He. by apply Hin'.
    - intros e (x & -> & Hx)%list_elem_of_fmap. rewrite twisted_edges.
      apply list_elem_of_fmap. exists x. split; [done|]. by apply Hin.
    - rewrite Hl', <- Hl, <- list_fmap_compose. apply list_fmap_ext.
      intros _ x _. symmetry. exact (lbl_twisted x). }
  symmetry. apply rank_of_edges_agree.
  apply (agree_twisted []); [by intros ? ?%elem_of_nil|]. intros x Hx. by apply Hin.
Qed.

End twist_rank.

Lemma NoDup_fmap_filter (P : vertex * vertex * label → Prop) `{!∀ e, Decision (P e)}
    (es : list (vertex * vertex * label)) :
  NoDup (lbl <$> es) → NoDup (lbl <$> filter P es).
Proof.
  induction es as [|e es IH]; [done|].
  rewrite fmap_cons. intros [He Hnd]%NoDup_cons. rewrite filter_cons.
  case_decide; [|by apply IH]. rewrite fmap_cons. apply NoDup_cons. split; [|by apply IH].
  intros (x & Hx & [_ Hin]%list_elem_of_filter)%list_elem_of_fmap.
  apply He. apply list_elem_of_fmap. eauto.
Qed.

Lemma wf_graph_ok M : wf M → graph_ok (_G M).
Proof.
  intros Hwf. split; [apply (wf_vertices_nodup M Hwf)|].
  intros e He. split; apply (wf_vertices M Hwf); exists e; auto.
Qed.

Lemma elements_two (S : gset vertex) :
  size S = 2 →
  let a := default 0 (elements S !! 0) in
  let b := default 0 (elements S !! 1) in
  a ≠ b ∧ S = {[a; b]}.
Proof.
  intros Hsz. change (size S) with (length (elements S)) in Hsz.
  pose proof (NoDup_elements S) as Hnd.
  assert (∀ x, x ∈ S ↔ x ∈ elements S) as Hel by (intros; by rewrite elem_of_elements).
  destruct (elements S) as [|a [|b [|??]]]; try done. simpl.
  apply NoDup_cons in Hnd as [Hab _]. split; [set_solver|].
  apply set_eq. intros x. rewrite Hel. set_solver.
Qed.

(** What a successful [twist] computes. *)
Lemma twist_Ok_inv M X M' :
  wf M → twist M X = Ok M' →
  X ⊆ _groundset M ∧ connectivity M X = Ok 1%Z ∧
  ∃ S a b G',
    shared_vertices M X = Ok S ∧ size S = 2 ∧ a ≠ b ∧ S = {[a; b]} ∧
    graph_ok G' ∧ edges G' ≡ₚ twist_edge a b X <$> edges (_G M) ∧
    M' = __init__ (labelled G') None ∧
    (∀ e, e ∈ edges (_G M) → lbl e ∈ X → src e ∈ S ∨ src e ∉ S) ∧
    ∃ A B, S = A ∩ B ∧
      (∀ e, e ∈ edges (_G M) → lbl e ∈ X → src e ∈ A ∧ dst e ∈ A) ∧
      (∀ e, e ∈ edges (_G M) → lbl e ∉ X → src e ∈ B ∧ dst e ∈ B).
Proof.
  intros Hwf. unfold twist, shared_vertices, groundset.
  case_decide as HX; [|done]. split; [done|].
  destruct (connectivity M X) as [c|] eqn:Hc; [|done]. cbn in H.
  case_decide as Hc1; [done|]. subst c. split; [done|].
  destruct (groundset_to_edges_spec M Hwf X HX) as (xs & Hxs & Hlx & Hinx).
  destruct (groundset_to_edges_spec M Hwf (_groundset M ∖ X)) as (ys & Hys & Hly & Hiny);
    [set_solver|].
  rewrite Hxs, Hys in H |- *. cbn in H |- *.
  case_decide as Hsz; [done|].
  injection H as <-.
  destruct (elements_two _ Hsz) as [Hab HS].
  set (S := spanned xs ∩ spanned ys) in *.
  set (a := default 0 (elements S !! 0)) in *.
  set (b := default 0 (elements S !! 1)) in *.
  set (T := filter (λ e, src e ∈ S ∨ dst e ∈ S) xs).
  exists S, a, b, (foldl (twist_step a b) (graph M) T).
  split_and!; try done.
  - apply graph_ok_twist_fold. by apply wf_graph_ok.
  - unfold graph. rewrite edges_twist_fold.
    + apply eq_subrelation; [apply _|]. apply list_fmap_ext.
      intros _ e He%list_elem_of_lookup_2. unfold twist_edge.
      destruct (decide (lbl e ∈ X)) as [HeX|HeX].
      * assert (e ∈ xs) as Hexs by (by apply Hinx).
        destruct (decide (lbl e ∈ (list_to_set (lbl <$> T) : gset label))) as [|HnT];
          [done|].
        assert (e ∉ T) as HeT.
        { intros HeT. apply HnT. apply elem_of_list_to_set, list_elem_of_fmap. eauto. }
        assert (¬ (src e ∈ S ∨ dst e ∈ S)) as Hinc.
        { intros Hinc. apply HeT. by apply list_elem_of_filter. }
        assert (rename_edge (swap a b) e = e) as ->; [|by rewrite (wf_norm M Hwf)].
        unfold rename_edge. rewrite !swap_outside; [by destruct e as [[??]?]|..];
          intros Heq; apply Hinc; rewrite HS; set_solver.
      * rewrite decide_False; [done|].
        intros (x & Hl & [_ Hx]%list_elem_of_filter)%elem_of_list_to_set%list_elem_of_fmap.
        apply HeX. rewrite Hl. by apply Hinx.
    + apply (wf_labels M Hwf).
    + apply (wf_norm M Hwf).
    + apply NoDup_fmap_filter. rewrite Hlx. apply NoDup_elements.
    + intros e [_ He]%list_elem_of_filter. by apply Hinx.
  - intros e _ _. destruct (decide (src e ∈ S)); auto.
  - exists (spanned xs), (spanned ys). split_and!; [done| |].
    + intros e He Hl. rewrite !elem_of_spanned.
      split; exists e; (split; [by apply Hinx|auto]).
    + intros e He Hl. rewrite !elem_of_spanned.
      assert (e ∈ ys).
      { apply Hiny. split; [done|]. apply elem_of_difference. split; [|done].
        apply (elem_of_groundset M Hwf). eauto. }
      split; exists e; auto.
Qed.

(** C2: when [twist(X)] succeeds on a graphic matroid [M] (which it does
    only for [X] inside the ground set with connectivity [1] whose edges
    share exactly two vertices with the other edges), the result has the
    ground set and the rank function of [M]: [M.twist(X).rank(Y) = M.rank(Y)]
    for every [Y] inside the ground set. *)
Theorem C2_twist_preserves_rank
    (G : Graph (option label)) (groundset : option (list (option label)))
    (X : gset label) (M' : GraphicMatroid) :
  valid_groundset G groundset →
  twist (__init__ G groundset) X = Ok M' →
  let M := __init__ G groundset in
  X ⊆ _groundset M ∧
  connectivity M X = Ok 1%Z ∧
  (∃ S, shared_vertices M X = Ok S ∧ size S = 2) ∧
  _groundset M' = _groundset M ∧
  ∀ Y, Y ⊆ _groundset M → rank M' Y = rank M Y ∧ is_Ok (rank M Y).
Proof.
  intros Hvalid Htwist M. pose proof (init_wf G groundset Hvalid) as Hwf.
  fold M in Hwf, Htwist.
  destruct (twist_Ok_inv M X M' Hwf Htwist)
    as (HX & Hc & S & a & b & G' & HS & Hsz & Hab & HSab & Hok & HG' & -> & _
        & A & B & HAB & HA & HB).
  assert (∀ x, x ∈ A → x ∈ B → x = a ∨ x = b) as HAB' by set_solver.
  split_and!; [done|done|by eauto| |].
  - by apply (twisted_groundset M Hwf X a b).
  - intros Y HY. split.
    + by apply (rank_twisted M Hwf X a b A B).
    + destruct (_rank_bounds M Y Hwf HY) as (r & Hr & _).
      unfold rank, validated. rewrite decide_True by done. by rewrite Hr.
Qed.

Lemma C2_witness :
  let M := Examples.two_separation in
  let X : gset label := {[0; 1; 2]} in
  X ⊆ _groundset M ∧
  connectivity M X = Ok 1%Z ∧
  (∃ S, shared_vertices M X = Ok S ∧ size S = 2) ∧
  _groundset twisted_example = _groundset M ∧
  ∀ Y, Y ⊆ _groundset M → rank twisted_example Y = rank M Y ∧ is_Ok (rank M Y).
Proof.
  apply (C2_twist_preserves_rank
           (of_edges [(0, 1, Some 0); (1, 2, Some 1); (1, 2, Some 2); (2, 3, Some 3);
                      (2, 3, Some 4); (2, 3, Some 5); (3, 0, Some 6)])
           None {[0; 1; 2]} twisted_example).
  - exact I.
  - vm_compute. reflexivity.
Defined.

(** The twisted graph need not be the original one. *)
Lemma twist_changes_graph :
  edges (_G Examples.two_separation)
  = [(0, 1, 0); (0, 3, 6); (1, 2, 1); (1, 2, 2); (2, 3, 3); (2, 3, 4); (2, 3, 5)] ∧
  edges (_G twisted_example)
  = [(0, 1, 1); (0, 1, 2); (0, 3, 6); (1, 2, 0); (2, 3, 3); (2, 3, 4); (2, 3, 5)].
Proof. split; by vm_compute. Qed.

(** ** Programs on the object store *)

Section store_facts.
Import Store.
Implicit Types (σ : gmap nat object) (l self : nat) (g : Graph label)
  (M : GraphicMatroid).

Lemma bind_Ok {A B} (c : prog A) (k : A → prog B) σ a σ' :
  c σ = (Ok a, σ') → (c ≫= k) σ = k a σ'.
Proof. intros H. unfold mbind, prog_bind, bind. by rewrite H. Qed.

Lemma bind_Raise {A B} (c : prog A) (k : A → prog B) σ e σ' :
  c σ = (Raise e, σ') → (c ≫= k) σ = (Raise e, σ').
Proof. intros H. unfold mbind, prog_bind, bind. by rewrite H. Qed.

Lemma fresh_lookup σ : σ !! fresh (dom σ) = None.
Proof. apply not_elem_of_dom, is_fresh. Qed.

Lemma view_mono σ σ' self M : σ ⊆ σ' → view σ self = Some M → view σ' self = Some M.
Proof.
  intros Hsub. unfold view.
  destruct (σ !! self) as [[|gs vm G em]|] eqn:Hs; try done.
  destruct (σ !! G) as [[g|]|] eqn:HG; try done.
  rewrite (lookup_weaken _ _ _ _ Hs Hsub), (lookup_weaken _ _ _ _ HG Hsub). done.
Qed.

Lemma read_self_run σ self M : view σ self = Some M → read_self self σ = (Ok M, σ).
Proof. intros H. unfold read_self. by rewrite H. Qed.

Lemma read_graph_local σ l g :
  read_graph l (<[l := Graph_object g]> σ) = (Ok g, <[l := Graph_object g]> σ).
Proof. unfold read_graph. by rewrite lookup_insert_eq. Qed.

Lemma update_graph_local σ l g (f : Graph label → Graph label) :
  update_graph l f (<[l := Graph_object g]> σ) = (Ok tt, <[l := Graph_object (f g)]> σ).
Proof. unfold update_graph. by rewrite lookup_insert_eq, insert_insert_eq. Qed.

Lemma add_vertex_at_local σ l g :
  add_vertex_at l (<[l := Graph_object g]> σ)
  = (Ok (add_vertex g).1, <[l := Graph_object (add_vertex g).2]> σ).
Proof. unfold add_vertex_at. by rewrite lookup_insert_eq, insert_insert_eq. Qed.

Lemma view_local σ l g self M :
  σ !! l = None → view σ self = Some M →
  view (<[l := Graph_object g]> σ) self = Some M.
Proof. intros Hl. apply view_mono. by apply insert_subseteq. Qed.

Lemma graph_at_run σ self M :
  view σ self = Some M →
  graph_at self σ = (Ok (fresh (dom σ)), <[fresh (dom σ) := Graph_object (_G M)]> σ).
Proof.
  intros Hv. unfold graph_at. by rewrite (bind_Ok _ _ _ _ _ (read_self_run _ _ _ Hv)).
Qed.

Lemma for_each_local {A} σ l (f : Graph label → A → Graph label)
    (body : A → prog unit) (xs : list A) g :
  (∀ x g, body x (<[l := Graph_object g]> σ) = (Ok tt, <[l := Graph_object (f g x)]> σ)) →
  for_each xs body (<[l := Graph_object g]> σ)
  = (Ok tt, <[l := Graph_object (foldl f g xs)]> σ).
Proof.
  intros Hbody. revert g. induction xs as [|x xs IH]; intros g; [done|].
  cbn [for_each foldl]. rewrite (bind_Ok _ _ _ _ _ (Hbody x g)). apply IH.
Qed.

Lemma fold_each_local {A B} σ l (f : Graph label * B → A → Graph label * B)
    (body : B → A → prog B) (xs : list A) g b :
  (∀ x g b, body b x (<[l := Graph_object g]> σ)
            = (Ok (f (g, b) x).2, <[l := Graph_object (f (g, b) x).1]> σ)) →
  fold_each xs body b (<[l := Graph_object g]> σ)
  = (Ok (foldl f (g, b) xs).2, <[l := Graph_object (foldl f (g, b) xs).1]> σ).
Proof.
  intros Hbody. revert g b. induction xs as [|x xs IH]; intros g b; [done|].
  cbn [fold_each foldl]. rewrite (bind_Ok _ _ _ _ _ (Hbody x g b)).
  rewrite IH. by destruct (f (g, b) x).
Qed.

(** The constructor, run on a graph [l] that the edit allocated itself,
    completes a structural edit. *)
Lemma GraphicMatroid_new_post σ σb self M l g groundset answer :
  σ ⊆ σb → σb !! l = None → view σ self = Some M →
  answer = Ok (__init__ (labelled g) groundset) →
  edit_post σ self M (GraphicMatroid_new l groundset (<[l := Graph_object g]> σb)) answer.
Proof.
  intros Hsub Hl Hv ->. unfold GraphicMatroid_new.
  rewrite (bind_Ok _ _ _ _ _ (read_graph_local σb l g)).
  set (M' := __init__ (labelled g) groundset).
  set (σ1 := <[l := Graph_object g]> σb).
  unfold mbind, prog_bind, bind, alloc. cbn [fst snd].
  set (l2 := fresh (dom σ1)).
  set (σ2 := <[l2 := Graph_object (_G M')]> σ1).
  set (l3 := fresh (dom σ2)).
  assert (σ1 !! l2 = None) as Hl2 by apply fresh_lookup.
  assert (σ2 !! l3 = None) as Hl3 by apply fresh_lookup.
  assert (σ ⊆ σ1) as H1 by (etrans; [exact Hsub|by apply insert_subseteq]).
  assert (σ1 ⊆ σ2) as H12 by (by apply insert_subseteq).
  assert (σ ⊆ σ2) as H2 by (by etrans).
  assert (σ ⊆ <[l3 := Matroid_object (_groundset M') (_vertex_map M') l2
                        (_groundset_edge_map M')]> σ2) as H3.
  { etrans; [exact H2|by apply insert_subseteq]. }
  assert (l2 ≠ l3) as Hne.
  { intros Heq. rewrite <- Heq in Hl3. unfold σ2 in Hl3.
    by rewrite lookup_insert_eq in Hl3. }
  split; [exact H3|]. split; [by eapply view_mono|]. cbn [fst snd]. split.
  - eapply lookup_weaken_None; [exact Hl3|exact H2].
  - exists M', (_groundset M'), (_vertex_map M'), l2, (_groundset_edge_map M').
    split_and!; [done| |apply lookup_insert_eq|].
    + unfold view. rewrite lookup_insert_eq, lookup_insert_ne by done.
      unfold σ2. rewrite lookup_insert_eq. by destruct M'.
    + eapply lookup_weaken_None; [exact Hl2|exact H1].
Qed.

End store_facts.

Section store_methods.
Import Store.
Context (σ : gmap nat object) (self : nat) (M : GraphicMatroid).
Context (Hview : view σ self = Some M).

Ltac step H := rewrite (bind_Ok _ _ _ _ _ H); cbn beta.
Ltac step_lift := erewrite (bind_Ok (lift (Ok _)) _ _ _ _ eq_refl); cbn beta.
Ltac stop_lift := erewrite (bind_Raise (lift (Raise _)) _ _ _ _ eq_refl).
Ltac query_done := unfold lift; cbn [fst snd]; split_and!; [done|done|exact Hview].

Lemma edit_post_Raise e answer :
  answer = Raise e → edit_post σ self M (Raise e, σ) answer.
Proof. intros ->. by split_and!. Qed.

Lemma edit_post_Raise_local e answer l g :
  σ !! l = None → answer = Raise e →
  edit_post σ self M (Raise e, <[l := Graph_object g]> σ) answer.
Proof.
  intros Hl ->. split_and!; [by apply insert_subseteq|by apply view_local|done].
Qed.

Lemma rank_at_ok X : query_ok σ self M (rank_at self X) (rank M X).
Proof.
  unfold query_ok, rank_at. step (read_self_run _ _ _ Hview). query_done.
Qed.

Lemma closure_body_local l V components X e g :
  closure_body l V components X e (<[l := Graph_object g]> σ)
  = (Ok (closure_step V components (g, X) e).2,
     <[l := Graph_object (closure_step V components (g, X) e).1]> σ).
Proof.
  unfold closure_body, closure_step. case_decide; [|done].
  step (update_graph_local σ l g (λ g, add_edge g e)).
  step (read_graph_local σ l (add_edge g e)).
  case_decide; [done|].
  step (update_graph_local σ l (add_edge g e) (λ g, delete_edge g e)). done.
Qed.

Lemma closure_at_ok X : query_ok σ self M (closure_at self X) (closure M X).
Proof.
  unfold query_ok, closure_at, closure, validated.
  step (read_self_run _ _ _ Hview).
  case_decide; [|query_done].
  unfold _closure_at, _closure. step (read_self_run _ _ _ Hview).
  destruct (_groundset_to_edges M (_groundset M ∖ X)) as [ys|e] eqn:Hys;
    [step_lift|stop_lift; query_done].
  unfold _subgraph_from_set_at, _subgraph_from_set.
  destruct (_groundset_to_edges M X) as [xs|e] eqn:Hxs.
  2:{ erewrite bind_Raise; [query_done|].
      step (read_self_run _ _ _ Hview). rewrite Hxs. by stop_lift. }
  set (l := fresh (dom σ)).
  assert (σ !! l = None) as Hl by apply fresh_lookup.
  erewrite bind_Ok.
  2:{ step (read_self_run _ _ _ Hview). rewrite Hxs. step_lift. done. }
  fold l. step (read_graph_local σ l (of_edges xs)).
  step (fold_each_local σ l (closure_step (vertices (of_edges xs))
          (connected_components_number (of_edges xs)))
          _ ys (of_edges xs) X (λ x g b, closure_body_local l _ _ b x g)).
  erewrite bind_Ok; [|apply read_self_run; by apply view_local].
  cbn. destruct (foldl _ _ ys) as [g' X']. cbn.
  split_and!; [done|by apply insert_subseteq|by apply view_local].
Qed.

Lemma graphic_extension_at_ok u v element :
  edit_ok σ self M (graphic_extension_at self u v element)
    (graphic_extension M u v element).
Proof.
  unfold edit_ok, graphic_extension_at, graphic_extension.
  step (read_self_run _ _ _ Hview).
  destruct (new_element M element) as [x|e];
    [step_lift|stop_lift; by apply edit_post_Raise].
  step (graph_at_run _ _ _ Hview).
  step (update_graph_local σ (fresh (dom σ)) (_G M) (λ g, add_edge g (u, default u v, x))).
  apply GraphicMatroid_new_post; [done|apply fresh_lookup|done|done].
Qed.

Lemma _minor_at_ok contractions deletions :
  edit_ok σ self M (_minor_at self contractions deletions)
    (_minor M contractions deletions).
Proof.
  unfold edit_ok, _minor_at, _minor.
  step (read_self_run _ _ _ Hview). step (graph_at_run _ _ _ Hview).
  assert (σ !! fresh (dom σ) = None) as Hl by apply fresh_lookup.
  destruct (_groundset_to_edges M contractions) as [cs|e];
    [step_lift|stop_lift; by apply edit_post_Raise_local].
  destruct (_groundset_to_edges M deletions) as [ds|e];
    [step_lift|stop_lift; by apply edit_post_Raise_local].
  step (update_graph_local σ (fresh (dom σ)) (_G M) (λ g, delete_edges g ds)).
  step (update_graph_local σ (fresh (dom σ)) (delete_edges (_G M) ds)
          (λ g, contract_edges g cs)).
  apply GraphicMatroid_new_post; [done|apply fresh_lookup|done|done].
Qed.

Lemma twist_body_local σ' l a b e g :
  twist_body l a b e (<[l := Graph_object g]> σ')
  = (Ok tt, <[l := Graph_object (twist_step a b g e)]> σ').
Proof.
  unfold twist_body, twist_step.
  step (update_graph_local σ' l g (λ g, delete_edge g e)).
  apply update_graph_local.
Qed.

Lemma twist_at_ok X : edit_ok σ self M (twist_at self X) (twist M X).
Proof.
  unfold edit_ok, twist_at, twist.
  step (read_self_run _ _ _ Hview).
  case_decide; [|by apply edit_post_Raise].
  destruct (connectivity M X) as [c|e];
    [step_lift|stop_lift; by apply edit_post_Raise].
  cbn. case_decide; [by apply edit_post_Raise|].
  step (graph_at_run _ _ _ Hview).
  set (l0 := fresh (dom σ)).
  assert (σ !! l0 = None) as Hl0 by apply fresh_lookup.
  set (σ1 := <[l0 := Graph_object (_G M)]> σ).
  assert (view σ1 self = Some M) as Hview1 by (by apply view_local).
  destruct (groundset_to_edges M X) as [xs|e];
    [step_lift|stop_lift; by apply edit_post_Raise_local].
  destruct (groundset_to_edges M (groundset M ∖ X)) as [ys|e];
    [step_lift|stop_lift; by apply edit_post_Raise_local].
  cbn. case_decide; [by apply edit_post_Raise_local|].
  step (graph_at_run _ _ _ Hview1).
  set (l := fresh (dom σ1)).
  assert (σ1 !! l = None) as Hl by apply fresh_lookup.
  erewrite (bind_Ok (for_each _ _));
    [|eapply for_each_local; intros; apply twist_body_local].
  apply GraphicMatroid_new_post; [by apply insert_subseteq|done|done|done].
Qed.

Lemma one_sum_at_ok X u v : edit_ok σ self M (one_sum_at self X u v) (one_sum M X u v).
Proof.
  unfold edit_ok, one_sum_at, one_sum.
  step (read_self_run _ _ _ Hview).
  case_decide; [|by apply edit_post_Raise].
  destruct (connectivity M X) as [c|e];
    [step_lift|stop_lift; by apply edit_post_Raise].
  cbn. case_decide; [by apply edit_post_Raise|].
  step (graph_at_run _ _ _ Hview).
  set (l := fresh (dom σ)).
  assert (σ !! l = None) as Hl by apply fresh_lookup.
  step (read_graph_local σ l (_G M)). unfold graph.
  destruct (negb (has_vertex (_G M) u && has_vertex (_G M) v));
    [by apply edit_post_Raise_local|].
  destruct (groundset_to_edges M X) as [xs|e];
    [step_lift|stop_lift; by apply edit_post_Raise_local].
  cbn. case_decide; [by apply edit_post_Raise_local|].
  destruct (groundset_to_edges M (groundset M ∖ X)) as [ys|e];
    [step_lift|stop_lift; by apply edit_post_Raise_local].
  cbn. case_decide; [by apply edit_post_Raise_local|].
  case_decide; [by apply edit_post_Raise_local|].
  step (add_vertex_at_local σ l (_G M)).
  destruct (add_vertex (_G M)) as [b G1]. cbn [fst snd].
  step (read_graph_local σ l G1).
  erewrite (bind_Ok (update_graph _ _)); [|apply update_graph_local].
  case_decide.
  - erewrite (bind_Ok (update_graph _ _)); [|apply update_graph_local].
    apply GraphicMatroid_new_post; [done|done|done|done].
  - erewrite (bind_Ok (update_graph _ _)); [|apply update_graph_local].
    apply GraphicMatroid_new_post; [done|done|done|done].
Qed.

End store_methods.

(** C9: run from any store on a receiver [self] holding a matroid [M], the
    queries [rank] and [closure] and the structural edits [minor],
    [graphic_extension], [twist] and [one_sum] leave every object of the
    store as it was, in particular the receiver with its ground set and
    element-to-edge map and the graph it refers to; they compute what the
    methods on values compute; and each edit returns a matroid object that
    did not exist before, with a graph object that did not exist before. *)
Theorem C9_no_operation_mutates_its_receiver
    (σ : gmap nat Store.object) (self : nat) (M : GraphicMatroid) :
  Store.view σ self = Some M →
  (∀ X, Store.query_ok σ self M (Store.rank_at self X) (rank M X)) ∧
  (∀ X, Store.query_ok σ self M (Store.closure_at self X) (closure M X)) ∧
  (∀ contractions deletions,
     Store.edit_ok σ self M (Store._minor_at self contractions deletions)
       (_minor M contractions deletions)) ∧
  (∀ u v element,
     Store.edit_ok σ self M (Store.graphic_extension_at self u v element)
       (graphic_extension M u v element)) ∧
  (∀ X, Store.edit_ok σ self M (Store.twist_at self X) (twist M X)) ∧
  (∀ X u v, Store.edit_ok σ self M (Store.one_sum_at self X u v) (one_sum M X u v)).
Proof.
  intros Hview. split_and!; intros.
  - by apply rank_at_ok.
  - by apply closure_at_ok.
  - by apply _minor_at_ok.
  - by apply graphic_extension_at_ok.
  - by apply twist_at_ok.
  - by apply one_sum_at_ok.
Qed.

Lemma C9_witness :
  let σ := Store.sample in
  let M := Examples.triangle in
  (∀ X, Store.query_ok σ 1 M (Store.rank_at 1 X) (rank M X)) ∧
  (∀ X, Store.query_ok σ 1 M (Store.closure_at 1 X) (closure M X)) ∧
  (∀ contractions deletions,
     Store.edit_ok σ 1 M (Store._minor_at 1 contractions deletions)
       (_minor M contractions deletions)) ∧
  (∀ u v element,
     Store.edit_ok σ 1 M (Store.graphic_extension_at 1 u v element)
       (graphic_extension M u v element)) ∧
  (∀ X, Store.edit_ok σ 1 M (Store.twist_at 1 X) (twist M X)) ∧
  (∀ X u v, Store.edit_ok σ 1 M (Store.one_sum_at 1 X u v) (one_sum M X u v)).
Proof.
  apply (C9_no_operation_mutates_its_receiver Store.sample 1 Examples.triangle).
  vm_compute. reflexivity.
Defined.

(** * Further properties *)

Section forest_size.
Implicit Types (P R : list (vertex * vertex)) (V : list vertex) (u v x y : vertex).

Lemma agree_refl es l : agree es es l l.
Proof. revert es. induction l as [|p l IH]; intros es; [done|]. split; [done|apply IH]. Qed.

Lemma merges_make V V' P :
  (∀ p, p ∈ P → p.1 ∈ V ∧ p.2 ∈ V) → (∀ p, p ∈ P → p.1 ∈ V' ∧ p.2 ∈ V') →
  merges (DisjointSet.make V) P = merges (DisjointSet.make V') P.
Proof.
  intros HV HV'. eapply merges_agree; [apply represents_make|apply represents_make|done..|].
  apply agree_refl.
Qed.

Lemma ends_in_fst_snd P p : p ∈ P → p.1 ∈ P.*1 ++ P.*2 ∧ p.2 ∈ P.*1 ++ P.*2.
Proof.
  intros Hp. rewrite !elem_of_app, !list_elem_of_fmap. split; [left|right]; eauto.
Qed.

Lemma rk_make V P :
  (∀ p, p ∈ P → p.1 ∈ V ∧ p.2 ∈ V) → merges (DisjointSet.make V) P = rk P.
Proof. intros HV. apply merges_make; [done|apply ends_in_fst_snd]. Qed.

Lemma number_of_subsets_run V P :
  NoDup V → (∀ p, p ∈ P → p.1 ∈ V ∧ p.2 ∈ V) →
  DisjointSet.number_of_subsets (DisjointSet.union_all (DisjointSet.make V) P) + rk P
  = length V.
Proof.
  intros Hnd HV. rewrite <- (rk_make V P HV), <- (number_of_subsets_make V Hnd).
  by apply number_of_subsets_union_all.
Qed.

Lemma conn_reverse P x y : conn (reverse P ++ []) x y ↔ conn P x y.
Proof. apply conn_ext. intros p. by rewrite app_nil_r, elem_of_reverse. Qed.

Lemma rk_conn_ext P P' : (∀ x y, conn P x y ↔ conn P' x y) → rk P = rk P'.
Proof.
  intros Hc.
  set (V := remove_dups ((P.*1 ++ P.*2) ++ (P'.*1 ++ P'.*2))).
  assert (∀ p, p ∈ P → p.1 ∈ V ∧ p.2 ∈ V) as HV.
  { intros p [??]%ends_in_fst_snd. unfold V. rewrite !elem_of_remove_dups. set_solver. }
  assert (∀ p, p ∈ P' → p.1 ∈ V ∧ p.2 ∈ V) as HV'.
  { intros p [??]%ends_in_fst_snd. unfold V. rewrite !elem_of_remove_dups. set_solver. }
  pose proof (number_of_subsets_run V P (NoDup_remove_dups _) HV) as H1.
  pose proof (number_of_subsets_run V P' (NoDup_remove_dups _) HV') as H2.
  assert (DisjointSet.number_of_subsets (DisjointSet.union_all (DisjointSet.make V) P)
          = DisjointSet.number_of_subsets (DisjointSet.union_all (DisjointSet.make V) P'))
    as Heq; [|lia].
  eapply number_of_subsets_represents; [done| |by apply represents_run..].
  intros x y. by rewrite !conn_reverse.
Qed.

Lemma conn_perm P P' x y : P ≡ₚ P' → conn P x y ↔ conn P' x y.
Proof. intros HP. apply conn_ext. intros p. by rewrite HP. Qed.

Lemma rk_perm P P' : P ≡ₚ P' → rk P = rk P'.
Proof. intros HP. apply rk_conn_ext. intros x y. by apply conn_perm. Qed.

Lemma merges_app ds P R :
  merges ds (P ++ R) = merges ds P + merges (DisjointSet.union_all ds P) R.
Proof.
  revert ds. induction P as [|p P IH]; intros ds; [done|].
  cbn [app merges]. rewrite IH. unfold DisjointSet.union_all. cbn [foldl]. lia.
Qed.

Lemma conn_decide P u v : conn P u v ∨ ¬ conn P u v.
Proof.
  set (V := u :: v :: (P.*1 ++ P.*2)).
  assert (∀ p, p ∈ P → p.1 ∈ V ∧ p.2 ∈ V) as HV.
  { intros p [??]%ends_in_fst_snd. unfold V. set_solver. }
  pose proof (find_run_conn V P u v HV ltac:(unfold V; set_solver)
                ltac:(unfold V; set_solver)) as H.
  destruct (decide (DisjointSet.find (DisjointSet.union_all (DisjointSet.make V) P) u
                    = DisjointSet.find (DisjointSet.union_all (DisjointSet.make V) P) v));
    [left|right]; by rewrite <- H.
Qed.

Lemma rk_snoc P u v :
  (conn P u v → rk (P ++ [(u, v)]) = rk P) ∧
  (¬ conn P u v → rk (P ++ [(u, v)]) = S (rk P)).
Proof.
  set (V := u :: v :: (P.*1 ++ P.*2)).
  assert (∀ p, p ∈ P → p.1 ∈ V ∧ p.2 ∈ V) as HV.
  { intros p [??]%ends_in_fst_snd. unfold V. set_solver. }
  assert (∀ p, p ∈ P ++ [(u, v)] → p.1 ∈ V ∧ p.2 ∈ V) as HV'.
  { intros p [Hp|Hp%list_elem_of_singleton]%elem_of_app; [by apply HV|].
    subst p. unfold V. set_solver. }
  rewrite <- (rk_make V _ HV'), <- (rk_make V _ HV), merges_app. cbn [merges fst snd].
  pose proof (find_run_conn V P u v HV ltac:(unfold V; set_solver)
                ltac:(unfold V; set_solver)) as H.
  case_decide as Hd; split; intros Hc; try lia; exfalso; tauto.
Qed.

Lemma rk_cons P u v :
  (conn P u v → rk ((u, v) :: P) = rk P) ∧
  (¬ conn P u v → rk ((u, v) :: P) = S (rk P)).
Proof.
  rewrite (rk_perm ((u, v) :: P) (P ++ [(u, v)])); [apply rk_snoc|].
  by rewrite Permutation_app_comm.
Qed.

Lemma rk_nil : rk [] = 0.
Proof. done. Qed.

Lemma rk_le P : rk P ≤ length P.
Proof. apply merges_le. Qed.

Lemma rk_app_bounds P R : rk P ≤ rk (P ++ R) ∧ rk (P ++ R) ≤ rk P + length R.
Proof.
  induction R as [|[u v] R IH] using rev_ind; [rewrite app_nil_r; simpl; lia|].
  rewrite app_assoc, length_app. simpl.
  destruct (rk_snoc (P ++ R) u v) as [H1 H2].
  destruct (conn_decide (P ++ R) u v) as [Hc|Hc]; [rewrite H1 by done|rewrite H2 by done]; lia.
Qed.

Lemma rk_flip P u v : rk ((u, v) :: P) = rk ((v, u) :: P).
Proof.
  apply rk_conn_ext. intros x y. rewrite !conn_cons. tauto.
Qed.

(** The gain of a list of pairs is the smaller, the more is connected
    already. *)
Lemma rk_diminishing A B R :
  (∀ x y, conn A x y → conn B x y) →
  rk (B ++ R) + rk A ≤ rk (A ++ R) + rk B.
Proof.
  intros HAB. induction R as [|[u v] R IH] using rev_ind; [rewrite !app_nil_r; lia|].
  rewrite !app_assoc.
  assert (∀ x y, conn (A ++ R) x y → conn (B ++ R) x y) as HABR.
  { intros x y. apply conn_sub. intros p [Hp|Hp]%elem_of_app.
    - eapply conn_mono; [|apply HAB, conn_edge; by destruct p].
      intros q Hq. left. set_solver.
    - apply conn_edge. destruct p. set_solver. }
  destruct (rk_snoc (A ++ R) u v) as [HA1 HA2], (rk_snoc (B ++ R) u v) as [HB1 HB2].
  destruct (conn_decide (B ++ R) u v) as [Hc|Hc].
  - rewrite HB1 by done. pose proof (rk_app_bounds (A ++ R) [(u, v)]). lia.
  - rewrite HB2 by done. rewrite HA2; [lia|]. intros Hc'. by apply Hc, HABR.
Qed.

(** A sublist of a forest is a forest. *)
Lemma rk_full_submseteq P P' : P ⊆+ P' → rk P' = length P' → rk P = length P.
Proof.
  intros (R & HR)%submseteq_Permutation Hfull.
  rewrite (rk_perm _ _ HR), HR, length_app in Hfull.
  pose proof (rk_app_bounds P R). pose proof (rk_le P). lia.
Qed.

End forest_size.

Lemma rank_of_edges_rk (es : list (vertex * vertex * label)) :
  rank_of_edges es = Z.of_nat (rk (ends <$> es)).
Proof.
  rewrite rank_of_edges_merges. f_equal. apply rk_make. apply ends_in_spanned.
Qed.

Lemma connected_components_number_rk {L} (g : Graph L) :
  graph_ok g → connected_components_number g + rk (pairs g) = length (vertices g).
Proof.
  intros [Hnd Hin]. rewrite connected_components_number_subsets.
  apply number_of_subsets_run; [done|].
  intros p (e & -> & He)%list_elem_of_fmap. by apply Hin.
Qed.

(** ** Graph values by content *)

Section content.
Implicit Types (g : Graph label) (e : vertex * vertex * label)
  (es : list (vertex * vertex * label)).

Lemma conn_ends_mono es es' x y :
  (∀ e, e ∈ es → ∃ e', e' ∈ es' ∧
     (ends e = ends e' ∨ ends e = ((ends e').2, (ends e').1))) →
  conn (ends <$> es) x y → conn (ends <$> es') x y.
Proof.
  intros H. apply conn_mono. intros p (e & -> & He)%list_elem_of_fmap.
  destruct (H e He) as (e' & He' & [Heq|Heq]); rewrite Heq; [left|right]; simpl;
    apply list_elem_of_fmap; exists e'; (split; [|done]); by destruct (ends e').
Qed.

Lemma ends_norm e :
  ends (norm e) = ends e ∨ ends (norm e) = ((ends e).2, (ends e).1).
Proof.
  destruct (norm_ends e) as [[Hs Hd]|[Hs Hd]]; [left|right];
    unfold ends, src, dst in *; destruct (norm e) as [[??]?], e as [[??]?];
    simpl in *; congruence.
Qed.

Lemma ends_norm_inv e :
  ends e = ends (norm e) ∨ ends e = ((ends (norm e)).2, (ends (norm e)).1).
Proof. destruct (ends_norm e) as [-> | ->]; [by left|right]. by destruct (ends e). Qed.

Lemma conn_norm es x y : conn (ends <$> (norm <$> es)) x y ↔ conn (ends <$> es) x y.
Proof.
  split; apply conn_ends_mono.
  - intros ? (e & -> & He)%list_elem_of_fmap. exists e. split; [done|apply ends_norm].
  - intros e He. exists (norm e). split; [by apply list_elem_of_fmap_2|apply ends_norm_inv].
Qed.

Lemma pairs_ends g : pairs g = ends <$> edges g.
Proof. done. Qed.

Lemma conn_of_edges es x y : conn (pairs (of_edges es)) x y ↔ conn (ends <$> es) x y.
Proof.
  rewrite pairs_ends. unfold of_edges, of_lists. cbn [edges].
  rewrite <- (conn_norm es). apply conn_perm. apply fmap_Permutation, sort_edges_perm.
Qed.

Lemma rk_of_edges es : rk (pairs (of_edges es)) = rk (ends <$> es).
Proof. apply rk_conn_ext. intros x y. apply conn_of_edges. Qed.

Lemma length_edges_of_edges es : length (edges (of_edges es)) = length es.
Proof.
  unfold of_edges, of_lists. cbn [edges]. by rewrite sort_edges_perm, length_fmap.
Qed.

Lemma graph_ok_of_edges es : graph_ok (of_edges es).
Proof.
  split; [apply NoDup_sort_vertices|].
  intros e He. split; apply vertices_of_edges_spec; exists e; auto.
Qed.

Lemma is_forest_rk {L} (g : Graph L) :
  graph_ok g → is_forest g = true ↔ rk (pairs g) = length (edges g).
Proof.
  intros Hok. unfold is_forest. rewrite bool_decide_eq_true.
  pose proof (connected_components_number_rk g Hok). lia.
Qed.

Lemma is_forest_of_edges es :
  is_forest (of_edges es) = true ↔ rk (ends <$> es) = length es.
Proof.
  rewrite is_forest_rk by apply graph_ok_of_edges.
  by rewrite rk_of_edges, length_edges_of_edges.
Qed.

End content.

(** ** Elements and edges *)

(** X1: for a matroid built by the constructor, [groundset_to_edges] and
    [subgraph_from_set] raise the [ValueError] exactly when [X] is not inside
    the ground set; on a subset of the ground set the dictionary lookups
    never fail, the edges returned carry the elements of [X], one each and
    in the order of [X], every one of them is an edge of the graph, and the
    subgraph has exactly these edges. *)
Theorem X1_groundset_to_edges_round_trip
    (G : Graph (option label)) (groundset : option (list (option label)))
    (X : gset label) :
  valid_groundset G groundset →
  let M := __init__ G groundset in
  (X ⊈ _groundset M →
   groundset_to_edges M X = Raise NotASubset ∧
   subgraph_from_set M X = Raise NotASubset) ∧
  (X ⊆ _groundset M →
   ∃ es, groundset_to_edges M X = Ok es ∧
         _groundset_to_edges M X = Ok es ∧
         lbl <$> es = elements X ∧
         (∀ e, e ∈ es ↔ e ∈ edges (graph M) ∧ lbl e ∈ X) ∧
         subgraph_from_set M X = Ok (of_edges es) ∧
         edges (of_edges es) ≡ₚ es).
Proof.
  intros Hvalid M. pose proof (init_wf G groundset Hvalid) as Hwf. fold M in Hwf.
  split.
  - intros HX. unfold groundset_to_edges, subgraph_from_set.
    by rewrite !decide_False by done.
  - intros HX. destruct (_groundset_to_edges_spec M Hwf X HX) as (es & Hes & Hl & Hin).
    exists es. unfold groundset_to_edges, subgraph_from_set, _subgraph_from_set.
    rewrite !decide_True by done. rewrite Hes. split_and!; try done.
    unfold of_edges, of_lists. cbn [edges]. rewrite sort_edges_perm.
    rewrite fmap_fixed; [done|]. intros e He. apply (wf_norm M Hwf). by apply Hin.
Qed.

Lemma X1_witness :
  let M := Examples.triangle in
  let X : gset label := {[0; 2]} in
  (X ⊈ _groundset M →
   groundset_to_edges M X = Raise NotASubset ∧
   subgraph_from_set M X = Raise NotASubset) ∧
  (X ⊆ _groundset M →
   ∃ es, groundset_to_edges M X = Ok es ∧
         _groundset_to_edges M X = Ok es ∧
         lbl <$> es = elements X ∧
         (∀ e, e ∈ es ↔ e ∈ edges (graph M) ∧ lbl e ∈ X) ∧
         subgraph_from_set M X = Ok (of_edges es) ∧
         edges (of_edges es) ≡ₚ es).
Proof.
  apply (X1_groundset_to_edges_round_trip
           (Examples.unlabelled [(0, 1); (0, 2); (1, 2)]) None {[0; 2]}).
  exact I.
Defined.

(** ** Independence and rank *)

Lemma _rank_rk M X es :
  wf M → X ⊆ _groundset M → _groundset_to_edges M X = Ok es →
  _rank M X = Ok (Z.of_nat (rk (ends <$> es))).
Proof.
  intros Hwf HX Hes. unfold _rank, groundset_to_edges.
  rewrite decide_True by done. rewrite Hes. cbn. by rewrite rank_of_edges_rk.
Qed.

(** X2: a set of elements is independent ([_is_independent]: its subgraph
    is a forest) exactly when its rank ([_rank]) is its number of
    elements. *)
Theorem X2_independent_iff_full_rank
    (G : Graph (option label)) (groundset : option (list (option label)))
    (X : gset label) :
  valid_groundset G groundset →
  X ⊆ _groundset (__init__ G groundset) →
  let M := __init__ G groundset in
  ∃ b r, _is_independent M X = Ok b ∧ _rank M X = Ok r ∧
         (b = true ↔ r = Z.of_nat (size X)).
Proof.
  intros Hvalid HX M. pose proof (init_wf G groundset Hvalid) as Hwf. fold M in Hwf, HX.
  destruct (_groundset_to_edges_spec M Hwf X HX) as (es & Hes & Hl & Hin).
  exists (is_forest (of_edges es)), (Z.of_nat (rk (ends <$> es))).
  split_and!.
  - unfold _is_independent, _subgraph_from_set. by rewrite Hes.
  - by apply _rank_rk.
  - rewrite is_forest_of_edges, <- (_groundset_to_edges_length M X es Hes). lia.
Qed.

Lemma X2_witness :
  let M := Examples.triangle in
  ∃ b r, _is_independent M {[0; 1]} = Ok b ∧ _rank M {[0; 1]} = Ok r ∧
         (b = true ↔ r = Z.of_nat (size ({[0%nat; 1%nat]} : gset label))).
Proof.
  apply (X2_independent_iff_full_rank
           (Examples.unlabelled [(0, 1); (0, 2); (1, 2)]) None {[0; 1]}).
  - exact I.
  - apply (bool_decide_unpack _). vm_compute. exact I.
Defined.

(** ** The rank axioms *)

Section edges_of_sets.
Context (M : GraphicMatroid) (Hwf : wf M).
Implicit Types (X Y : gset label) (es : list (vertex * vertex * label)).

Lemma edges_of_NoDup X es : _groundset_to_edges M X = Ok es → NoDup es.
Proof.
  intros [Hl _]%lookup_edges_Ok_inv. apply (NoDup_fmap_1 lbl). rewrite Hl.
  apply NoDup_elements.
Qed.

Lemma edges_of_submseteq X Y xs ys :
  X ⊆ Y → Y ⊆ _groundset M →
  _groundset_to_edges M X = Ok xs → _groundset_to_edges M Y = Ok ys → xs ⊆+ ys.
Proof.
  intros HXY HY Hxs Hys.
  destruct (_groundset_to_edges_spec M Hwf X) as (xs' & Hxs' & _ & Hinx); [set_solver|].
  destruct (_groundset_to_edges_spec M Hwf Y HY) as (ys' & Hys' & _ & Hiny).
  assert (xs' = xs) as -> by congruence. assert (ys' = ys) as -> by congruence.
  apply NoDup_submseteq; [by eapply edges_of_NoDup|].
  intros e [He Hl]%Hinx. apply Hiny. split; [done|set_solver].
Qed.

Lemma _rank_mono X Y rX rY :
  X ⊆ Y → Y ⊆ _groundset M → _rank M X = Ok rX → _rank M Y = Ok rY → (rX ≤ rY)%Z.
Proof.
  intros HXY HY HrX HrY.
  destruct (_groundset_to_edges_spec M Hwf X) as (xs & Hxs & _); [set_solver|].
  destruct (_groundset_to_edges_spec M Hwf Y HY) as (ys & Hys & _).
  rewrite (_rank_rk M X xs Hwf) in HrX by (done || set_solver).
  rewrite (_rank_rk M Y ys Hwf) in HrY by done.
  injection HrX as <-. injection HrY as <-.
  pose proof (edges_of_submseteq X Y xs ys HXY HY Hxs Hys) as Hsub.
  apply (fmap_submseteq ends) in Hsub.
  apply submseteq_Permutation in Hsub as (R & HR).
  rewrite (rk_perm _ _ HR). pose proof (rk_app_bounds (ends <$> xs) R). lia.
Qed.

Lemma _rank_submodular X Y rX rY rU rI :
  X ⊆ _groundset M → Y ⊆ _groundset M →
  _rank M X = Ok rX → _rank M Y = Ok rY →
  _rank M (X ∪ Y) = Ok rU → _rank M (X ∩ Y) = Ok rI →
  (rU + rI ≤ rX + rY)%Z.
Proof.
  intros HX HY HrX HrY HrU HrI.
  destruct (_groundset_to_edges_spec M Hwf X HX) as (xs & Hxs & _ & Hinx).
  destruct (_groundset_to_edges_spec M Hwf Y HY) as (ys & Hys & _ & Hiny).
  destruct (_groundset_to_edges_spec M Hwf (X ∪ Y)) as (us & Hus & _ & Hinu); [set_solver|].
  destruct (_groundset_to_edges_spec M Hwf (X ∩ Y)) as (ns & Hns & _ & Hini); [set_solver|].
  rewrite (_rank_rk M _ _ Hwf HX Hxs) in HrX. rewrite (_rank_rk M _ _ Hwf HY Hys) in HrY.
  rewrite (_rank_rk M _ us Hwf) in HrU by (done || set_solver).
  rewrite (_rank_rk M _ ns Hwf) in HrI by (done || set_solver).
  injection HrX as <-. injection HrY as <-. injection HrU as <-. injection HrI as <-.
  set (R := ends <$> filter (λ e, lbl e ∉ Y) xs).
  assert (rk (ends <$> us) = rk ((ends <$> ys) ++ R)) as ->.
  { apply rk_conn_ext. intros x y. apply conn_ext. intros p. unfold R.
    rewrite elem_of_app, !list_elem_of_fmap. setoid_rewrite list_elem_of_filter.
    setoid_rewrite Hinu. setoid_rewrite Hiny. setoid_rewrite Hinx. split.
    - intros (e & -> & He & Hl). destruct (decide (lbl e ∈ Y)); [left|right]; exists e.
      + done.
      + split; [done|]. split; [done|]. split; [done|set_solver].
    - intros [(e & -> & He & Hl)|(e & -> & Hn & He & Hl)]; exists e;
        (split; [done|]); (split; [done|set_solver]). }
  assert (rk (ends <$> xs) = rk ((ends <$> ns) ++ R)) as ->.
  { apply rk_conn_ext. intros x y. apply conn_ext. intros p. unfold R.
    rewrite elem_of_app, !list_elem_of_fmap. setoid_rewrite list_elem_of_filter.
    setoid_rewrite Hini. setoid_rewrite Hinx. split.
    - intros (e & -> & He & Hl). destruct (decide (lbl e ∈ Y)); [left|right]; exists e.
      + split; [done|]. split; [done|set_solver].
      + done.
    - intros [(e & -> & He & Hl)|(e & -> & Hn & He & Hl)]; exists e;
        (split; [done|]); (split; [done|set_solver]). }
  pose proof (rk_diminishing (ends <$> ns) (ends <$> ys) R) as Hd.
  assert (∀ x y, conn (ends <$> ns) x y → conn (ends <$> ys) x y) as Hsub; [|specialize (Hd Hsub); lia].
  intros x y. apply conn_mono. intros p (e & -> & He)%list_elem_of_fmap. left.
  apply list_elem_of_fmap. exists e. split; [done|].
  apply Hini in He as [He Hl]. apply Hiny. split; [done|set_solver].
Qed.

End edges_of_sets.

(** X3: [is_valid] answers [True], and rightly so: the rank function of a
    graphic matroid obeys the rank axioms.  For all [X] and [Y] inside the
    ground set, [0 <= rank(X) <= |X|], [rank(X) <= rank(Y)] when [X] is
    inside [Y], and [rank(X ∪ Y) + rank(X ∩ Y) <= rank(X) + rank(Y)]. *)
Theorem X3_rank_axioms
    (G : Graph (option label)) (groundset : option (list (option label)))
    (X Y : gset label) :
  valid_groundset G groundset →
  X ⊆ _groundset (__init__ G groundset) →
  Y ⊆ _groundset (__init__ G groundset) →
  let M := __init__ G groundset in
  is_valid M = true ∧
  ∃ rX rY rU rI,
    _rank M X = Ok rX ∧ _rank M Y = Ok rY ∧
    _rank M (X ∪ Y) = Ok rU ∧ _rank M (X ∩ Y) = Ok rI ∧
    (0 ≤ rX ≤ Z.of_nat (size X))%Z ∧
    (X ⊆ Y → rX ≤ rY)%Z ∧
    (rU + rI ≤ rX + rY)%Z.
Proof.
  intros Hvalid HX HY M. pose proof (init_wf G groundset Hvalid) as Hwf.
  fold M in Hwf, HX, HY. split; [done|].
  destruct (_rank_bounds M X Hwf HX) as (rX & HrX & HbX).
  destruct (_rank_bounds M Y Hwf HY) as (rY & HrY & _).
  destruct (_rank_bounds M (X ∪ Y) Hwf) as (rU & HrU & _); [set_solver|].
  destruct (_rank_bounds M (X ∩ Y) Hwf) as (rI & HrI & _); [set_solver|].
  exists rX, rY, rU, rI. do 4 (split; [done|]). split; [exact HbX|]. split.
  - intros HXY. by apply (_rank_mono M Hwf X Y).
  - by apply (_rank_submodular M Hwf X Y).
Qed.

Lemma X3_witness :
  let M := Examples.triangle in
  let X : gset label := {[0; 1]} in
  let Y : gset label := {[1; 2]} in
  is_valid M = true ∧
  ∃ rX rY rU rI,
    _rank M X = Ok rX ∧ _rank M Y = Ok rY ∧
    _rank M (X ∪ Y) = Ok rU ∧ _rank M (X ∩ Y) = Ok rI ∧
    (0 ≤ rX ≤ Z.of_nat (size X))%Z ∧
    (X ⊆ Y → rX ≤ rY)%Z ∧
    (rU + rI ≤ rX + rY)%Z.
Proof.
  apply (X3_rank_axioms (Examples.unlabelled [(0, 1); (0, 2); (1, 2)]) None
           {[0; 1]} {[1; 2]}).
  - exact I.
  - apply (bool_decide_unpack _). vm_compute. exact I.
  - apply (bool_decide_unpack _). vm_compute. exact I.
Defined.

(** ** Graphs under edits *)

Section holding.
Implicit Types (g : Graph label) (e : vertex * vertex * label)
  (es : list (vertex * vertex * label)) (V : list vertex).

Lemma holds_graph_ok g V es : holds g V es → graph_ok g.
Proof.
  intros (Hnd & HV & Hes & Hin). split; [by rewrite HV|].
  intros e He. rewrite HV. apply Hin. by rewrite <- Hes.
Qed.

Lemma holds_perm g V es es' : holds g V es → es ≡ₚ es' → holds g V es'.
Proof.
  intros (Hnd & HV & Hes & Hin) Hp. split_and!; [done|done|by rewrite Hes|].
  intros e He. apply Hin. by rewrite Hp.
Qed.

Lemma holds_connected_components_number g V es :
  holds g V es → connected_components_number g + rk (ends <$> es) = length V.
Proof.
  intros H. pose proof (holds_graph_ok _ _ _ H) as Hok.
  destruct H as (Hnd & HV & Hes & Hin).
  rewrite <- (Permutation_length HV), <- (connected_components_number_rk g Hok). f_equal.
  apply rk_perm. rewrite pairs_ends. symmetry. by apply fmap_Permutation.
Qed.

Lemma holds_same g g' V es :
  holds g V es → holds g' V es →
  connected_components_number g = connected_components_number g'.
Proof.
  intros H H'. apply holds_connected_components_number in H, H'. lia.
Qed.

Lemma holds_graph g : graph_ok g → holds g (vertices g) (edges g).
Proof. intros [Hnd Hin]. split_and!; try done. Qed.

Lemma src_dst_norm e V : src e ∈ V → dst e ∈ V → src (norm e) ∈ V ∧ dst (norm e) ∈ V.
Proof. intros Hs Hd. destruct (norm_ends e) as [[-> ->]|[-> ->]]; done. Qed.

Lemma holds_add_edge g V es e :
  holds g V es → src e ∈ V → dst e ∈ V → holds (add_edge g e) V (norm e :: es).
Proof.
  intros (Hnd & HV & Hes & Hin) Hs Hd. split_and!; [done| | |].
  - apply NoDup_Permutation; [apply NoDup_sort_vertices|done|].
    intros v. rewrite elem_of_vertices_add_edge, HV. naive_solver.
  - by rewrite edges_add_edge, Hes.
  - intros x [->|Hx]%elem_of_cons; [by apply src_dst_norm|by apply Hin].
Qed.

Lemma holds_delete_edge g V es e :
  holds g V (norm e :: es) → holds (delete_edge g e) V es.
Proof.
  intros (Hnd & HV & Hes & Hin). split_and!; [done|done| |].
  - unfold delete_edge. cbn [edges].
    assert (norm e ∈ edges g) as He by (rewrite Hes; left).
    apply (remove_first_perm (norm e)) in He. rewrite He in Hes.
    by apply Permutation_cons_inv in Hes.
  - intros x Hx. apply Hin. by right.
Qed.

Lemma remove_first_absent (x : vertex * vertex * label) es :
  x ∉ es → remove_first x es = es.
Proof.
  induction es as [|y es IH]; [done|]. intros [Hne Hx]%not_elem_of_cons. simpl.
  rewrite decide_False by done. by rewrite IH.
Qed.

Lemma holds_delete_absent g V es e :
  holds g V es → norm e ∉ es → holds (delete_edge g e) V es.
Proof.
  intros (Hnd & HV & Hes & Hin) Hne. split_and!; try done.
  unfold delete_edge. cbn [edges]. rewrite remove_first_absent; [done|].
  by rewrite Hes.
Qed.

Lemma holds_delete_edges g V ds es :
  (∀ e, e ∈ ds → norm e = e) →
  holds g V (ds ++ es) → holds (delete_edges g ds) V es.
Proof.
  unfold delete_edges. revert g. induction ds as [|d ds IH]; intros g Hn H; [done|].
  cbn [foldl]. apply IH; [set_solver|]. apply holds_delete_edge.
  rewrite Hn by set_solver. done.
Qed.

End holding.

Section separation.
Context (M : GraphicMatroid) (Hwf : wf M).
Implicit Types (X Y : gset label) (es : list (vertex * vertex * label)).

Lemma wf_edges_NoDup : NoDup (edges (_G M)).
Proof. apply (NoDup_fmap_1 lbl), (wf_labels M Hwf). Qed.

Lemma holds_wf : holds (_G M) (vertices (_G M)) (edges (_G M)).
Proof. apply holds_graph. by apply wf_graph_ok. Qed.

(** The edges of [X] and the edges of the other elements make up the
    graph. *)
Lemma edges_split X xs ys :
  X ⊆ _groundset M →
  _groundset_to_edges M X = Ok xs →
  _groundset_to_edges M (_groundset M ∖ X) = Ok ys →
  edges (_G M) ≡ₚ xs ++ ys.
Proof.
  intros HX Hxs Hys.
  destruct (_groundset_to_edges_spec M Hwf X HX) as (xs' & Hxs' & _ & Hinx).
  destruct (_groundset_to_edges_spec M Hwf (_groundset M ∖ X)) as (ys' & Hys' & _ & Hiny);
    [set_solver|].
  assert (xs' = xs) as -> by congruence. assert (ys' = ys) as -> by congruence.
  apply NoDup_Permutation; [apply wf_edges_NoDup| |].
  - apply NoDup_app. split_and!; [by eapply (edges_of_NoDup M)| |by eapply (edges_of_NoDup M)].
    intros e [_ Hl]%Hinx [_ Hl']%Hiny. set_solver.
  - intros e. rewrite elem_of_app, Hinx, Hiny. split; [|naive_solver].
    intros He. destruct (decide (lbl e ∈ X)); [by left|right]. split; [done|].
    apply elem_of_difference. split; [|done]. apply (elem_of_groundset M Hwf). eauto.
Qed.

Lemma edges_of_norm X xs e :
  X ⊆ _groundset M → _groundset_to_edges M X = Ok xs → e ∈ xs → norm e = e.
Proof.
  intros HX Hxs He.
  destruct (_groundset_to_edges_spec M Hwf X HX) as (xs' & Hxs' & _ & Hinx).
  assert (xs' = xs) as -> by congruence. apply (wf_norm M Hwf). by apply Hinx.
Qed.

(** The graph without the edges of [X]. *)
Lemma holds_without X xs ys :
  X ⊆ _groundset M →
  _groundset_to_edges M X = Ok xs →
  _groundset_to_edges M (_groundset M ∖ X) = Ok ys →
  holds (delete_edges (graph M) xs) (vertices (_G M)) ys.
Proof.
  intros HX Hxs Hys. apply holds_delete_edges.
  - intros e He. by apply (edges_of_norm X xs).
  - eapply holds_perm; [apply holds_wf|]. by apply (edges_split X).
Qed.

Lemma _rank_groundset_rk :
  _rank M (_groundset M) = Ok (Z.of_nat (rk (pairs (_G M)))).
Proof.
  destruct (_groundset_to_edges_spec M Hwf (_groundset M)) as (es & Hes & _ & Hin); [done|].
  rewrite (_rank_rk M _ es Hwf) by done. do 2 f_equal. apply rk_perm.
  rewrite pairs_ends. apply fmap_Permutation.
  apply NoDup_Permutation; [by eapply (edges_of_NoDup M)|apply wf_edges_NoDup|].
  intros e. rewrite Hin. split; [naive_solver|]. intros He. split; [done|].
  apply (elem_of_groundset M Hwf). eauto.
Qed.

End separation.

(** ** Corank and coindependence *)

(** X4: the corank is the rank function of the dual matroid, up to the
    number of components of the graph.  For [X] inside the ground set [E],
    [_corank(X) = |X| + rank(E - X) - rank(E) + 1 - c], where [c] is the
    number of connected components of the graph; so
    [_corank(X) = |X| + rank(E - X) - rank(E)] when the graph has exactly
    one component, and [_corank] of the empty set is [1] on the matroid of
    the empty graph. *)
Theorem X4_corank_is_dual_rank
    (G : Graph (option label)) (groundset : option (list (option label)))
    (X : gset label) :
  valid_groundset G groundset →
  X ⊆ _groundset (__init__ G groundset) →
  let M := __init__ G groundset in
  ∃ c rY rE,
    _corank M X = Ok c ∧
    _rank M (_groundset M ∖ X) = Ok rY ∧
    _rank M (_groundset M) = Ok rE ∧
    (c = Z.of_nat (size X) + rY - rE + 1
         - Z.of_nat (connected_components_number (_G M)))%Z ∧
    (connected_components_number (_G M) = 1 → (c = Z.of_nat (size X) + rY - rE)%Z).
Proof.
  intros Hvalid HX M. pose proof (init_wf G groundset Hvalid) as Hwf. fold M in Hwf, HX. clearbody M.
  destruct (_groundset_to_edges_spec M Hwf X HX) as (xs & Hxs & _).
  destruct (_groundset_to_edges_spec M Hwf (_groundset M ∖ X)) as (ys & Hys & _);
    [set_solver|].
  pose proof (holds_connected_components_number _ _ _ (holds_without M Hwf X xs ys HX Hxs Hys))
    as Hc'.
  pose proof (holds_connected_components_number _ _ _ (holds_wf M Hwf)) as Hc.
  eexists _, _, _. split_and!.
  - unfold _corank. rewrite Hxs. cbn. reflexivity.
  - apply (_rank_rk M _ ys Hwf); [set_solver|done].
  - by apply _rank_groundset_rk.
  - unfold graph in *. rewrite pairs_ends. lia.
  - intros H1. unfold graph in *. rewrite pairs_ends. lia.
Qed.

Lemma X4_witness :
  let M := Examples.triangle in
  let X : gset label := {[0; 1]} in
  ∃ c rY rE,
    _corank M X = Ok c ∧
    _rank M (_groundset M ∖ X) = Ok rY ∧
    _rank M (_groundset M) = Ok rE ∧
    (c = Z.of_nat (size X) + rY - rE + 1
         - Z.of_nat (connected_components_number (_G M)))%Z ∧
    (connected_components_number (_G M) = 1 → (c = Z.of_nat (size X) + rY - rE)%Z).
Proof.
  apply (X4_corank_is_dual_rank (Examples.unlabelled [(0, 1); (0, 2); (1, 2)]) None
           {[0; 1]}).
  - exact I.
  - apply (bool_decide_unpack _). vm_compute. exact I.
Defined.

(** X5: [_is_coindependent(X)] answers whether removing the elements of
    [X] keeps the rank of the ground set: it is [True] exactly when
    [rank(E - X) = rank(E)]. *)
Theorem X5_coindependent_iff_rank_kept
    (G : Graph (option label)) (groundset : option (list (option label)))
    (X : gset label) :
  valid_groundset G groundset →
  X ⊆ _groundset (__init__ G groundset) →
  let M := __init__ G groundset in
  ∃ b rY rE,
    _is_coindependent M X = Ok b ∧
    _rank M (_groundset M ∖ X) = Ok rY ∧
    _rank M (_groundset M) = Ok rE ∧
    (b = true ↔ rY = rE).
Proof.
  intros Hvalid HX M. pose proof (init_wf G groundset Hvalid) as Hwf. fold M in Hwf, HX. clearbody M.
  destruct (_groundset_to_edges_spec M Hwf X HX) as (xs & Hxs & _).
  destruct (_groundset_to_edges_spec M Hwf (_groundset M ∖ X)) as (ys & Hys & _);
    [set_solver|].
  pose proof (holds_connected_components_number _ _ _ (holds_without M Hwf X xs ys HX Hxs Hys))
    as Hc'.
  pose proof (holds_connected_components_number _ _ _ (holds_wf M Hwf)) as Hc.
  eexists _, _, _. split_and!.
  - unfold _is_coindependent. rewrite Hxs. cbn. reflexivity.
  - apply (_rank_rk M _ ys Hwf); [set_solver|done].
  - by apply _rank_groundset_rk.
  - rewrite bool_decide_eq_true, pairs_ends. unfold graph in *. lia.
Qed.

Lemma X5_witness :
  let M := Examples.triangle in
  let X : gset label := {[0]} in
  ∃ b rY rE,
    _is_coindependent M X = Ok b ∧
    _rank M (_groundset M ∖ X) = Ok rY ∧
    _rank M (_groundset M) = Ok rE ∧
    (b = true ↔ rY = rE).
Proof.
  apply (X5_coindependent_iff_rank_kept (Examples.unlabelled [(0, 1); (0, 2); (1, 2)]) None
           {[0]}).
  - exact I.
  - apply (bool_decide_unpack _). vm_compute. exact I.
Defined.

(** ** Parts of the edge list *)

Lemma rk_submseteq (P P' : list (vertex * vertex)) : P ⊆+ P' → rk P ≤ rk P'.
Proof.
  intros (R & HR)%submseteq_Permutation. rewrite (rk_perm _ _ HR).
  apply rk_app_bounds.
Qed.

Lemma filter_submseteq_impl {A} (P Q : A → Prop) `{!∀ x, Decision (P x), !∀ x, Decision (Q x)}
    (l : list A) :
  (∀ x, P x → Q x) → filter P l ⊆+ filter Q l.
Proof.
  intros HPQ. induction l as [|x l IH]; [done|].
  rewrite !filter_cons. destruct (decide (P x)) as [HP|HP].
  - rewrite decide_True by auto. by apply submseteq_skip.
  - destruct (decide (Q x)); [by apply submseteq_cons|done].
Qed.

(** Pairs whose ends are connected already add nothing. *)
Lemma conn_app_connected (P Q : list (vertex * vertex)) x y :
  (∀ p, p ∈ Q → conn P p.1 p.2) → conn (P ++ Q) x y ↔ conn P x y.
Proof.
  intros HQ. split.
  - apply conn_sub. intros p [Hp|Hp]%elem_of_app; [|by apply HQ].
    apply conn_edge. by destruct p.
  - apply conn_mono. intros p Hp. left. set_solver.
Qed.

Lemma rk_app_connected (P Q : list (vertex * vertex)) :
  (∀ p, p ∈ Q → conn P p.1 p.2) → rk (P ++ Q) = rk P.
Proof. intros HQ. apply rk_conn_ext. intros x y. by apply conn_app_connected. Qed.

Section parts.
Context (M : GraphicMatroid) (Hwf : wf M).
Implicit Types (X R : gset label) (e : vertex * vertex * label)
  (es : list (vertex * vertex * label)).

Lemma elem_of_edges_within X e : e ∈ edges_within M X ↔ e ∈ edges (_G M) ∧ lbl e ∈ X.
Proof. unfold edges_within. rewrite list_elem_of_filter. tauto. Qed.

Lemma elem_of_edges_without X e : e ∈ edges_without M X ↔ e ∈ edges (_G M) ∧ lbl e ∉ X.
Proof. unfold edges_without. rewrite list_elem_of_filter. tauto. Qed.

Lemma edges_within_NoDup X : NoDup (edges_within M X).
Proof. apply NoDup_filter, (wf_edges_NoDup M Hwf). Qed.

Lemma edges_without_NoDup X : NoDup (edges_without M X).
Proof. apply NoDup_filter, (wf_edges_NoDup M Hwf). Qed.

Lemma edges_of_within X es :
  X ⊆ _groundset M → _groundset_to_edges M X = Ok es → es ≡ₚ edges_within M X.
Proof.
  intros HX Hes.
  destruct (_groundset_to_edges_spec M Hwf X HX) as (es' & Hes' & _ & Hin).
  assert (es' = es) as -> by congruence.
  apply NoDup_Permutation; [by eapply (edges_of_NoDup M)|apply edges_within_NoDup|].
  intros e. by rewrite Hin, elem_of_edges_within.
Qed.

Lemma edges_of_without X ys :
  _groundset_to_edges M (_groundset M ∖ X) = Ok ys → ys ≡ₚ edges_without M X.
Proof.
  intros Hys.
  destruct (_groundset_to_edges_spec M Hwf (_groundset M ∖ X)) as (ys' & Hys' & _ & Hin);
    [set_solver|].
  assert (ys' = ys) as -> by congruence.
  apply NoDup_Permutation; [by eapply (edges_of_NoDup M)|apply edges_without_NoDup|].
  intros e. rewrite Hin, elem_of_edges_without, elem_of_difference.
  split; [naive_solver|]. intros [He Hl]. split; [done|]. split; [|done].
  apply (elem_of_groundset M Hwf). eauto.
Qed.

Lemma edges_without_cons R e :
  e ∈ edges (_G M) → lbl e ∉ R →
  edges_without M R ≡ₚ e :: edges_without M ({[lbl e]} ∪ R).
Proof.
  intros He Hl.
  apply NoDup_Permutation; [apply edges_without_NoDup| |].
  - apply NoDup_cons. split; [|apply edges_without_NoDup].
    rewrite elem_of_edges_without. set_solver.
  - intros x. rewrite elem_of_cons, !elem_of_edges_without. split.
    + intros [Hx Hlx]. destruct (decide (x = e)) as [->|Hne]; [by left|right].
      split; [done|]. rewrite not_elem_of_union, not_elem_of_singleton. split; [|done].
      intros Heq. apply Hne. by apply (same_label_same_edge (edges (_G M)));
        [apply (wf_labels M Hwf)|..].
    + intros [->|[Hx Hlx]]; [done|]. split; [done|set_solver].
Qed.

Lemma edges_without_submseteq R R' : R ⊆ R' → edges_without M R' ⊆+ edges_without M R.
Proof. intros HR. apply filter_submseteq_impl. set_solver. Qed.

(** The graph without the edges of [R], whichever way they were listed. *)
Lemma holds_delete_set R es :
  R ⊆ _groundset M → _groundset_to_edges M R = Ok es →
  holds (delete_edges (graph M) es) (vertices (_G M)) (edges_without M R).
Proof.
  intros HR Hes.
  destruct (_groundset_to_edges_spec M Hwf (_groundset M ∖ R)) as (ys & Hys & _);
    [set_solver|].
  eapply holds_perm; [by apply (holds_without M Hwf R es ys)|by apply edges_of_without].
Qed.

Lemma _is_coindependent_rk R :
  R ⊆ _groundset M →
  _is_coindependent M R
  = Ok (bool_decide (rk (ends <$> edges_without M R) = rk (pairs (_G M)))).
Proof.
  intros HR. destruct (_groundset_to_edges_spec M Hwf R HR) as (es & Hes & _).
  unfold _is_coindependent. rewrite Hes. cbn. f_equal.
  pose proof (holds_connected_components_number _ _ _ (holds_delete_set R es HR Hes)) as H1.
  pose proof (holds_connected_components_number _ _ _ (holds_wf M Hwf)) as H2.
  rewrite pairs_ends. unfold graph in *.
  apply bool_decide_ext. lia.
Qed.

End parts.

(** ** A maximal coindependent subset *)

Lemma filter_all {A} (P : A → Prop) `{!∀ x, Decision (P x)} (l : list A) :
  (∀ x, x ∈ l → P x) → filter P l = l.
Proof.
  induction l as [|x l IH]; [done|]. intros Hall. rewrite filter_cons.
  rewrite decide_True by (apply Hall; left). f_equal. apply IH.
  intros y Hy. apply Hall. by right.
Qed.

Section max_coindependent.
Context (M : GraphicMatroid) (Hwf : wf M).
Implicit Types (e : vertex * vertex * label) (es : list (vertex * vertex * label)).

Lemma max_coindependent_loop es :
  NoDup es → (∀ e, e ∈ es → e ∈ edges (_G M)) →
  let st := foldl max_coindependent_step (_G M, ∅) es in
  st.2 ⊆ list_to_set (lbl <$> es) ∧
  holds st.1 (vertices (_G M)) (edges_without M st.2) ∧
  connected_components_number st.1 = connected_components_number (_G M) ∧
  ∀ e, e ∈ es → lbl e ∉ st.2 →
       rk (ends <$> edges_without M ({[lbl e]} ∪ st.2)) + 1 < length (vertices (_G M)).
Proof.
  induction es as [|e es IH] using rev_ind; intros Hnd Hin.
  - cbn. split_and!; [done| |done|by intros ? ?%elem_of_nil].
    unfold edges_without. rewrite filter_all by set_solver. apply (holds_wf M Hwf).
  - apply NoDup_app in Hnd as (Hnd & Hne & _).
    destruct IH as (HR & Hh & Hc & Hrej); [done|set_solver|].
    rewrite foldl_app. cbn [foldl].
    destruct (foldl max_coindependent_step (_G M, ∅) es) as [g R]. cbn [fst snd] in *.
    assert (e ∈ edges (_G M)) as He by set_solver.
    assert (lbl e ∉ R) as HlR.
    { intros Hl. apply HR, elem_of_list_to_set, list_elem_of_fmap in Hl as (x & Hx & Hxin).
      assert (x = e) as ->; [|by apply (Hne e); [|left]].
      symmetry. apply (same_label_same_edge (edges (_G M)));
        [apply (wf_labels M Hwf)|done|set_solver|done]. }
    assert (norm e = e) as Hn by (by apply (wf_norm M Hwf)).
    pose proof (edges_without_cons M Hwf R e He HlR) as Hsplit.
    assert (holds (delete_edge g e) (vertices (_G M))
              (edges_without M ({[lbl e]} ∪ R))) as Hh1.
    { apply holds_delete_edge. rewrite Hn. by eapply holds_perm. }
    pose proof (holds_connected_components_number _ _ _ Hh) as Hn0.
    pose proof (holds_connected_components_number _ _ _ Hh1) as Hn1.
    assert (rk (ends <$> edges_without M ({[lbl e]} ∪ R))
            ≤ rk (ends <$> edges_without M R)) as Hle.
    { apply rk_submseteq, fmap_submseteq, edges_without_submseteq; [done|set_solver]. }
    unfold max_coindependent_step. case_decide as Hcc; cbn [fst snd].
    + split_and!.
      * rewrite fmap_app, list_to_set_app_L. set_solver.
      * eapply holds_perm; [apply holds_add_edge; [exact Hh1|..]|].
        -- destruct Hh as (_ & _ & _ & Hends). apply Hends, elem_of_edges_without. done.
        -- destruct Hh as (_ & _ & _ & Hends). apply Hends, elem_of_edges_without. done.
        -- rewrite Hn. done.
      * rewrite <- Hc. eapply holds_same; [|exact Hh].
        eapply holds_perm; [apply holds_add_edge; [exact Hh1|..]|].
        -- destruct Hh as (_ & _ & _ & Hends). apply Hends, elem_of_edges_without. done.
        -- destruct Hh as (_ & _ & _ & Hends). apply Hends, elem_of_edges_without. done.
        -- rewrite Hn. done.
      * intros x [Hx|Hx%list_elem_of_singleton]%elem_of_app Hlx; [by apply Hrej|].
        subst x. lia.
    + assert (vertices (_G M) ≠ []) as HV.
      { destruct Hh as (_ & _ & _ & Hends).
        destruct (Hends e) as [Hs _]; [by apply elem_of_edges_without|].
        intros Hnil. rewrite Hnil in Hs. by apply elem_of_nil in Hs. }
      pose proof (connected_components_number_pos (_G M) HV).
      split_and!.
      * rewrite fmap_app, list_to_set_app_L. set_solver.
      * done.
      * lia.
      * intros x [Hx|Hx%list_elem_of_singleton]%elem_of_app Hlx; [|set_solver].
        specialize (Hrej x Hx ltac:(set_solver)).
        assert (rk (ends <$> edges_without M ({[lbl x]} ∪ ({[lbl e]} ∪ R)))
                ≤ rk (ends <$> edges_without M ({[lbl x]} ∪ R))) as Hle'; [|lia].
        apply rk_submseteq, fmap_submseteq, edges_without_submseteq; [done|set_solver].
Qed.

Lemma max_coindependent_spec (X : gset label) es es' :
  X ⊆ _groundset M → _groundset_to_edges M X = Ok es → es' ≡ₚ es →
  let R := (foldl max_coindependent_step (graph M, ∅) es').2 in
  R ⊆ X ∧ _is_coindependent M R = Ok true ∧
  (connected_components_number (_G M) = 1 →
   ∀ x, x ∈ X → x ∉ R → _is_coindependent M ({[x]} ∪ R) = Ok false).
Proof.
  intros HX Hes Hp R. subst R. unfold graph.
  set (R := (foldl max_coindependent_step (_G M, ∅) es').2).
  destruct (_groundset_to_edges_spec M Hwf X HX) as (es0 & Hes0 & Hl & Hin).
  assert (es0 = es) as -> by congruence.
  destruct (max_coindependent_loop es') as (HR & Hh & Hc & Hrej).
  { rewrite Hp. by eapply (edges_of_NoDup M). }
  { intros e He. rewrite Hp in He. by apply Hin. }
  fold R in HR, Hh, Hc, Hrej.
  assert (R ⊆ X) as HRX.
  { intros l Hl'. apply HR, elem_of_list_to_set, list_elem_of_fmap in Hl' as (x & -> & Hx).
    rewrite Hp in Hx. by apply Hin. }
  pose proof (holds_connected_components_number _ _ _ Hh) as Hn.
  pose proof (holds_connected_components_number _ _ _ (holds_wf M Hwf)) as Hn0.
  split_and!; [done| |].
  - rewrite (_is_coindependent_rk M Hwf) by set_solver. f_equal.
    apply bool_decide_eq_true. rewrite pairs_ends. lia.
  - intros H1 x Hx HxR. rewrite (_is_coindependent_rk M Hwf) by set_solver. f_equal.
    apply bool_decide_eq_false. rewrite pairs_ends.
    assert (∃ e, e ∈ es' ∧ lbl e = x) as (e & He & <-).
    { assert (x ∈ lbl <$> es) as (e & -> & He)%list_elem_of_fmap
        by (rewrite Hl; by apply elem_of_elements).
      exists e. by rewrite Hp. }
    specialize (Hrej e He HxR). lia.
Qed.

End max_coindependent.

(** X6: [_max_coindependent(X)] returns a coindependent subset of [X] (one
    that [_is_coindependent] accepts), in whatever order the elements of [X]
    are visited; when the graph has exactly one component the subset is
    maximal: adding any other element of [X] to it gives a set that is not
    coindependent. *)
Theorem X6_max_coindependent_is_coindependent
    (G : Graph (option label)) (groundset : option (list (option label)))
    (X : gset label) :
  valid_groundset G groundset →
  X ⊆ _groundset (__init__ G groundset) →
  let M := __init__ G groundset in
  ∃ es,
    _groundset_to_edges M X = Ok es ∧
    _max_coindependent M X = Ok (foldl max_coindependent_step (graph M, ∅) es).2 ∧
    ∀ es', es' ≡ₚ es →
      let R := (foldl max_coindependent_step (graph M, ∅) es').2 in
      R ⊆ X ∧ _is_coindependent M R = Ok true ∧
      (connected_components_number (_G M) = 1 →
       ∀ x, x ∈ X → x ∉ R → _is_coindependent M ({[x]} ∪ R) = Ok false).
Proof.
  intros Hvalid HX M. pose proof (init_wf G groundset Hvalid) as Hwf. fold M in Hwf, HX.
  clearbody M.
  destruct (_groundset_to_edges_spec M Hwf X HX) as (es & Hes & _).
  exists es. split; [done|]. split.
  - unfold _max_coindependent. by rewrite Hes.
  - intros es' Hp. by apply (max_coindependent_spec M Hwf X es es').
Qed.

Lemma X6_witness :
  let M := Examples.triangle in
  let X : gset label := {[0; 1; 2]} in
  ∃ es,
    _groundset_to_edges M X = Ok es ∧
    _max_coindependent M X = Ok (foldl max_coindependent_step (graph M, ∅) es).2 ∧
    ∀ es', es' ≡ₚ es →
      let R := (foldl max_coindependent_step (graph M, ∅) es').2 in
      R ⊆ X ∧ _is_coindependent M R = Ok true ∧
      (connected_components_number (_G M) = 1 →
       ∀ x, x ∈ X → x ∉ R → _is_coindependent M ({[x]} ∪ R) = Ok false).
Proof.
  apply (X6_max_coindependent_is_coindependent
           (Examples.unlabelled [(0, 1); (0, 2); (1, 2)]) None {[0; 1; 2]}).
  - exact I.
  - apply (bool_decide_unpack _). vm_compute. exact I.
Defined.

(** ** Cocircuits *)

Section cocircuit.
Context (M : GraphicMatroid) (Hwf : wf M).
Implicit Types (e : vertex * vertex * label) (es : list (vertex * vertex * label))
  (g : Graph label).

#[local] Abbreviation V := (vertices (_G M)).
#[local] Abbreviation c0 := (connected_components_number (_G M)).
#[local] Abbreviation r0 := (rk (pairs (_G M))).
#[local] Abbreviation lbls l := (list_to_set (lbl <$> l) : gset label).
#[local] Abbreviation part R := (ends <$> edges_without M R).

Lemma components_rank : c0 + r0 = length V.
Proof. apply connected_components_number_rk. by apply wf_graph_ok. Qed.

Lemma lbls_snoc es e : lbls (es ++ [e]) = {[lbl e]} ∪ lbls es.
Proof. rewrite fmap_app, list_to_set_app_L. set_solver. Qed.

Lemma not_elem_of_lbls es e :
  NoDup (es ++ [e]) → (∀ x, x ∈ es ++ [e] → x ∈ edges (_G M)) → lbl e ∉ lbls es.
Proof.
  intros (_ & Hne & _)%NoDup_app Hin.
  intros (x & Hx & Hxin)%elem_of_list_to_set%list_elem_of_fmap.
  assert (x = e) as ->; [|by apply (Hne e); [|left]].
  symmetry. apply (same_label_same_edge (edges (_G M)));
    [apply (wf_labels M Hwf)|set_solver|set_solver|done].
Qed.

Lemma edge_ends_in e : e ∈ edges (_G M) → src e ∈ V ∧ dst e ∈ V.
Proof. intros He. split; apply (wf_vertices M Hwf); exists e; auto. Qed.

Lemma part_step R e :
  e ∈ edges (_G M) → lbl e ∉ R →
  rk (part ({[lbl e]} ∪ R)) ≤ rk (part R) ∧ rk (part R) ≤ rk (part ({[lbl e]} ∪ R)) + 1 ∧
  (rk (part R) = rk (part ({[lbl e]} ∪ R)) + 1
   ↔ ¬ conn (part ({[lbl e]} ∪ R)) (src e) (dst e)).
Proof.
  intros He Hl. pose proof (edges_without_cons M Hwf R e He Hl) as Hsplit.
  rewrite (rk_perm (part R) ((src e, dst e) :: part ({[lbl e]} ∪ R))).
  2:{ rewrite Hsplit, fmap_cons. by destruct e as [[??]?]. }
  destruct (rk_cons (part ({[lbl e]} ∪ R)) (src e) (dst e)) as [H1 H2].
  destruct (conn_decide (part ({[lbl e]} ∪ R)) (src e) (dst e)) as [Hc|Hc].
  - rewrite H1 by done. split_and!; [lia..|]. split; [lia|done].
  - rewrite H2 by done. split_and!; [lia..|]. split; [done|lia].
Qed.

Lemma cocircuit_delete_spec rest : ∀ done g g1 P,
  NoDup (done ++ rest) → (∀ e, e ∈ done ++ rest → e ∈ edges (_G M)) →
  holds g V (edges_without M (lbls done)) →
  rk (part (lbls done)) = r0 →
  cocircuit_delete c0 g rest done = (g1, P) →
  (∀ e, e ∈ P → e ∈ done ++ rest) ∧ NoDup P ∧
  holds g1 V (edges_without M (lbls P)) ∧
  (rk (part (lbls P)) + 1 = r0 ∨ (P = done ++ rest ∧ rk (part (lbls P)) = r0)).
Proof.
  induction rest as [|e rest IH]; intros done g g1 P Hnd Hin Hh Hr Heq.
  - cbn in Heq. injection Heq as <- <-. rewrite app_nil_r in *. split_and!; auto.
  - cbn [cocircuit_delete] in Heq.
    assert (NoDup (done ++ [e])) as Hnd1.
    { rewrite cons_middle, app_assoc in Hnd. by apply NoDup_app in Hnd as (? & _). }
    assert (∀ x, x ∈ done ++ [e] → x ∈ edges (_G M)) as Hin1 by set_solver.
    assert (e ∈ edges (_G M)) as He by set_solver.
    pose proof (not_elem_of_lbls done e Hnd1 Hin1) as Hl.
    assert (holds (delete_edge g e) V (edges_without M (lbls (done ++ [e])))) as Hh1.
    { rewrite lbls_snoc. apply holds_delete_edge. rewrite (wf_norm M Hwf) by done.
      eapply holds_perm; [exact Hh|]. by apply edges_without_cons. }
    pose proof (holds_connected_components_number _ _ _ Hh1) as Hn1.
    pose proof components_rank as Hcr.
    pose proof (part_step (lbls done) e He Hl) as (Hs1 & Hs2 & _).
    rewrite <- lbls_snoc in Hs1, Hs2.
    case_decide as Hcc.
    + injection Heq as <- <-. split_and!; [set_solver|done|done|left; lia].
    + rewrite cons_middle, app_assoc in Hnd, Hin |- *.
      apply (IH (done ++ [e]) (delete_edge g e)); [done|done|done|lia|done].
Qed.

Lemma cocircuit_step_spec (R : gset label) P : ∀ g C,
  rk (part R) + 1 = r0 →
  holds g V (edges_without M R) →
  (∀ e, e ∈ P → e ∈ edges (_G M) ∧ lbl e ∈ R) →
  let st := foldl (cocircuit_step c0) (g, C) P in
  holds st.1 V (edges_without M R) ∧
  ∀ l, l ∈ st.2 ↔ l ∈ C ∨ ∃ e, e ∈ P ∧ lbl e = l ∧ ¬ conn (part R) (src e) (dst e).
Proof.
  induction P as [|e P IH]; intros g C Hr Hh HP.
  - cbn. split; [done|]. intros l. split; [by left|].
    intros [?|(e & ?%elem_of_nil & _)]; done.
  - cbn [foldl]. destruct (HP e) as [He HlR]; [by left|].
    assert (norm e = e) as Hn by (by apply (wf_norm M Hwf)).
    assert (e ∉ edges_without M R) as HeR by (rewrite elem_of_edges_without; tauto).
    destruct (edge_ends_in e He) as [Hs Hd].
    pose proof (holds_add_edge g V _ e Hh Hs Hd) as Hh1. rewrite Hn in Hh1.
    pose proof (holds_connected_components_number _ _ _ Hh1) as Hn1.
    pose proof components_rank as Hcr.
    assert (connected_components_number (add_edge g e) = c0
            ↔ ¬ conn (part R) (src e) (dst e)) as Hiff.
    { rewrite fmap_cons in Hn1. destruct (rk_cons (part R) (src e) (dst e)) as [H1 H2].
      replace (ends e) with (src e, dst e) in Hn1 by (by destruct e as [[??]?]).
      destruct (conn_decide (part R) (src e) (dst e)) as [Hc|Hc].
      - rewrite H1 in Hn1 by done. split; [lia|done].
      - rewrite H2 in Hn1 by done. split; [done|lia]. }
    unfold cocircuit_step at 2.
    specialize (IH (delete_edge (add_edge g e) e)
                  (if decide (connected_components_number (add_edge g e) = c0)
                   then {[lbl e]} ∪ C else C) Hr).
    destruct IH as [IH1 IH2].
    { apply holds_delete_edge. by rewrite Hn. }
    { intros x Hx. apply HP. by right. }
    split; [exact IH1|]. intros l. rewrite IH2. case_decide as Hcc.
    + apply Hiff in Hcc. rewrite elem_of_union, elem_of_singleton. split.
      * intros [[->|?]|(x & Hx & Hlx & Hc)]; [right; exists e|by left|right; exists x];
          set_solver.
      * intros [?|(x & [->|Hx]%elem_of_cons & Hlx & Hc)]; [by left; right|by left; left|].
        right. by exists x.
    + split.
      * intros [?|(x & Hx & Hlx & Hc)]; [by left|right; exists x]. set_solver.
      * intros [?|(x & [->|Hx]%elem_of_cons & Hlx & Hc)]; [by left| |right; by exists x].
        exfalso. apply Hcc, Hiff, Hc.
Qed.

Lemma is_cocircuit_repairs_spec (C : gset label) es : ∀ g,
  rk (part C) + 1 = r0 →
  holds g V (edges_without M C) →
  (∀ e, e ∈ es → e ∈ edges (_G M) ∧ lbl e ∈ C ∧ ¬ conn (part C) (src e) (dst e)) →
  is_cocircuit_repairs c0 g es = true.
Proof.
  induction es as [|e es IH]; intros g Hr Hh Hes; [done|].
  cbn [is_cocircuit_repairs]. destruct (Hes e) as (He & HlC & Hc); [by left|].
  assert (norm e = e) as Hn by (by apply (wf_norm M Hwf)).
  destruct (edge_ends_in e He) as [Hs Hd].
  pose proof (holds_add_edge g V _ e Hh Hs Hd) as Hh1. rewrite Hn in Hh1.
  pose proof (holds_connected_components_number _ _ _ Hh1) as Hn1.
  pose proof components_rank as Hcr.
  rewrite fmap_cons in Hn1. destruct (rk_cons (part C) (src e) (dst e)) as [_ H2].
  replace (ends e) with (src e, dst e) in Hn1 by (by destruct e as [[??]?]).
  rewrite H2 in Hn1 by done.
  rewrite decide_True by lia. apply IH; [done| |].
  - apply holds_delete_edge. by rewrite Hn.
  - intros x Hx. apply Hes. by right.
Qed.

Lemma cocircuit_loops_spec (X : gset label) es :
  X ⊆ _groundset M → _is_coindependent M X = Ok false →
  NoDup es → (∀ e, e ∈ es ↔ e ∈ edges (_G M) ∧ lbl e ∈ X) →
  let C := cocircuit_loops (graph M) es in
  C ⊆ X ∧ _is_cocircuit M C = Ok true.
Proof.
  intros HX Hco Hnd Hin C. subst C. unfold cocircuit_loops, graph.
  destruct (cocircuit_delete c0 (_G M) es []) as [g1 P] eqn:Hdel.
  rewrite (_is_coindependent_rk M Hwf X HX) in Hco.
  injection Hco as Hco. apply bool_decide_eq_false in Hco.
  destruct (cocircuit_delete_spec es [] (_G M) g1 P) as (HP & HndP & Hh1 & Hr); try done.
  { intros e He. by apply Hin. }
  { cbn. unfold edges_without. rewrite filter_all by set_solver. apply (holds_wf M Hwf). }
  { cbn. unfold edges_without. by rewrite filter_all by set_solver. }
  cbn [app] in HP, Hr.
  assert (∀ e, e ∈ edges (_G M) → (lbl e ∈ lbls P ↔ e ∈ P)) as HlP.
  { intros e He. rewrite elem_of_list_to_set, list_elem_of_fmap. split; [|by eauto].
    intros (x & Hlx & Hx). assert (x = e) as ->; [|done].
    symmetry. apply (same_label_same_edge (edges (_G M)));
      [apply (wf_labels M Hwf)|done| |done]. by apply Hin, HP. }
  destruct Hr as [Hr|[-> Hr]].
  2:{ exfalso. apply Hco. rewrite <- Hr. apply rk_perm, fmap_Permutation.
      apply NoDup_Permutation; [by apply edges_without_NoDup..|].
      intros e. rewrite !elem_of_edges_without. split; intros [He Hl]; (split; [done|]).
      - rewrite HlP by done. rewrite Hin. tauto.
      - rewrite HlP in Hl by done. rewrite Hin in Hl. tauto. }
  destruct (cocircuit_step_spec (lbls P) P g1 ∅ Hr Hh1) as [_ HC].
  { intros e He. split; [by apply Hin, HP|].
    apply elem_of_list_to_set, list_elem_of_fmap. eauto. }
  set (C := (foldl (cocircuit_step c0) (g1, ∅) P).2) in *.
  assert (∀ l, l ∈ C ↔ ∃ e, e ∈ P ∧ lbl e = l ∧ ¬ conn (part (lbls P)) (src e) (dst e))
    as HC'.
  { intros l. rewrite HC. set_solver. }
  assert (C ⊆ X) as HCX.
  { intros l (e & He & <- & _)%HC'. by apply Hin, HP. }
  split; [done|].
  assert (∀ x y, conn (part C) x y ↔ conn (part (lbls P)) x y) as Hconn.
  { intros x y. split.
    - apply conn_sub. intros p (e & -> & [He Hl]%elem_of_edges_without)%list_elem_of_fmap.
      destruct (decide (e ∈ P)) as [HeP|HeP].
      + destruct (conn_decide (part (lbls P)) (src e) (dst e)) as [Hc|Hc]; [done|].
        exfalso. apply Hl, HC'. by exists e.
      + apply conn_edge, list_elem_of_fmap. exists e. split; [by destruct e as [[??]?]|].
        apply elem_of_edges_without. split; [done|]. by rewrite HlP.
    - apply conn_mono. intros p (e & -> & [He Hl]%elem_of_edges_without)%list_elem_of_fmap.
      left. apply list_elem_of_fmap. exists e. split; [done|].
      apply elem_of_edges_without. split; [done|].
      intros (z & Hz & Hlz & _)%HC'. apply Hl. rewrite <- Hlz.
      apply elem_of_list_to_set, list_elem_of_fmap. eauto. }
  assert (rk (part C) + 1 = r0) as HrC by (by rewrite (rk_conn_ext _ _ Hconn)).
  destruct (_groundset_to_edges_spec M Hwf C) as (cs & Hcs & _ & Hinc); [set_solver|].
  unfold _is_cocircuit. rewrite Hcs. cbn.
  pose proof (holds_delete_set M Hwf C cs ltac:(set_solver) Hcs) as HhC.
  pose proof (holds_connected_components_number _ _ _ HhC) as HnC.
  pose proof components_rank as Hcr. unfold graph in *.
  rewrite decide_True by lia. f_equal.
  apply (is_cocircuit_repairs_spec C); [done|done|].
  intros e [He Hl]%Hinc. split_and!; [done|done|].
  apply HC' in Hl as (x & Hx & Hlx & Hc).
  assert (x = e) as ->.
  { apply (same_label_same_edge (edges (_G M)));
      [apply (wf_labels M Hwf)|by apply Hin, HP|done|done]. }
  by rewrite Hconn.
Qed.

End cocircuit.

(** X7: [_cocircuit(X)] raises "no cocircuit in coindependent set" exactly
    when [_is_coindependent(X)] holds; otherwise it returns a subset of [X]
    that [_is_cocircuit] accepts, in whatever order the elements of [X] are
    visited. *)
Theorem X7_cocircuit_returns_a_cocircuit
    (G : Graph (option label)) (groundset : option (list (option label)))
    (X : gset label) :
  valid_groundset G groundset →
  X ⊆ _groundset (__init__ G groundset) →
  let M := __init__ G groundset in
  (_cocircuit M X = Raise NoCocircuitInCoindependentSet
   ↔ _is_coindependent M X = Ok true) ∧
  (_is_coindependent M X = Ok false →
   ∃ es,
     _groundset_to_edges M X = Ok es ∧
     _cocircuit M X = Ok (cocircuit_loops (graph M) es) ∧
     ∀ es', es' ≡ₚ es →
       let C := cocircuit_loops (graph M) es' in
       C ⊆ X ∧ _is_cocircuit M C = Ok true).
Proof.
  intros Hvalid HX M. pose proof (init_wf G groundset Hvalid) as Hwf. fold M in Hwf, HX.
  clearbody M.
  destruct (_groundset_to_edges_spec M Hwf X HX) as (es & Hes & _ & Hin).
  split.
  - unfold _cocircuit. rewrite (_is_coindependent_rk M Hwf X HX). cbn.
    case_bool_decide; rewrite ?Hes; cbn; unfold mret, result_ret; split; congruence.
  - intros Hco. exists es. split; [done|]. split.
    + unfold _cocircuit. rewrite Hco. cbn. by rewrite Hes.
    + intros es' Hp. apply (cocircuit_loops_spec M Hwf X es' HX Hco).
      * rewrite Hp. by eapply (edges_of_NoDup M).
      * intros e. by rewrite Hp.
Qed.

Lemma X7_witness :
  let M := Examples.triangle in
  let X : gset label := {[0; 1]} in
  (_cocircuit M X = Raise NoCocircuitInCoindependentSet
   ↔ _is_coindependent M X = Ok true) ∧
  (_is_coindependent M X = Ok false →
   ∃ es,
     _groundset_to_edges M X = Ok es ∧
     _cocircuit M X = Ok (cocircuit_loops (graph M) es) ∧
     ∀ es', es' ≡ₚ es →
       let C := cocircuit_loops (graph M) es' in
       C ⊆ X ∧ _is_cocircuit M C = Ok true).
Proof.
  apply (X7_cocircuit_returns_a_cocircuit
           (Examples.unlabelled [(0, 1); (0, 2); (1, 2)]) None {[0; 1]}).
  - exact I.
  - apply (bool_decide_unpack _). vm_compute. exact I.
Defined.

(** ** Closure *)

Section closure.
Context (M : GraphicMatroid) (Hwf : wf M).
Implicit Types (X : gset label) (e : vertex * vertex * label)
  (es xs : list (vertex * vertex * label)) (g : Graph label).

Lemma holds_of_edges xs :
  (∀ e, e ∈ xs → norm e = e) → holds (of_edges xs) (vertices (of_edges xs)) xs.
Proof.
  intros Hn. pose proof (graph_ok_of_edges xs) as [Hnd Hin].
  assert (edges (of_edges xs) ≡ₚ xs) as Hp.
  { unfold of_edges, of_lists. cbn [edges]. by rewrite sort_edges_perm, fmap_fixed. }
  split_and!; [done|done|done|]. intros e He. apply Hin. by rewrite Hp.
Qed.

Lemma closure_loop xs V c l :
  c + rk (ends <$> xs) = length V →
  ∀ g S A,
  holds g V (xs ++ A) →
  (∀ a, a ∈ A → conn (ends <$> xs) (src a) (dst a)) →
  (∀ e, e ∈ l → norm e = e) →
  ∀ lb, lb ∈ (foldl (closure_step V c) (g, S) l).2 ↔
        lb ∈ S ∨ ∃ e, e ∈ l ∧ lbl e = lb ∧ src e ∈ V ∧ dst e ∈ V ∧
                      conn (ends <$> xs) (src e) (dst e).
Proof.
  intros Hc0. induction l as [|e l IH]; intros g S A Hh HA Hnl lb.
  - cbn. split; [by left|]. intros [?|(e & ?%elem_of_nil & _)]; done.
  - cbn [foldl].
    assert (rk (ends <$> (xs ++ A)) = rk (ends <$> xs)) as HrA.
    { rewrite fmap_app. apply rk_app_connected.
      intros p (a & -> & Ha)%list_elem_of_fmap. by apply HA. }
    assert (∀ x y, conn (ends <$> (xs ++ A)) x y ↔ conn (ends <$> xs) x y) as HcA.
    { intros x y. rewrite fmap_app. apply conn_app_connected.
      intros p (a & -> & Ha)%list_elem_of_fmap. by apply HA. }
    assert (norm e = e) as Hne by (apply Hnl; left).
    unfold closure_step at 2. case_decide as Hends.
    + destruct Hends as [Hs Hd].
      pose proof (holds_add_edge g V _ e Hh Hs Hd) as Hh1. rewrite Hne in Hh1.
      pose proof (holds_connected_components_number _ _ _ Hh1) as Hc1.
      rewrite fmap_cons in Hc1.
      replace (ends e) with (src e, dst e) in Hc1 by (by destruct e as [[??]?]).
      destruct (rk_cons (ends <$> (xs ++ A)) (src e) (dst e)) as [H1 H2].
      destruct (conn_decide (ends <$> (xs ++ A)) (src e) (dst e)) as [Hc|Hc].
      * rewrite H1 in Hc1 by done. rewrite decide_True by lia.
        rewrite (IH (add_edge g e) ({[lbl e]} ∪ S) (A ++ [e])); cycle 1.
        -- eapply holds_perm; [exact Hh1|]. rewrite app_assoc.
           by rewrite (Permutation_app_comm (xs ++ A) [e]).
        -- intros a [Ha| ->%list_elem_of_singleton]%elem_of_app; [by apply HA|].
           by apply HcA.
        -- intros x Hx. apply Hnl. by right.
        -- rewrite elem_of_union, elem_of_singleton. split.
           ++ intros [[->|?]|(x & Hx & ?)]; [right; exists e|by left|right; exists x].
              ** split_and!; [by left|done..|by apply HcA].
              ** split; [by right|done].
           ++ intros [?|(x & [->|Hx]%elem_of_cons & Hl & ?)];
                [by left; right|by left; left|right; by exists x].
      * rewrite H2 in Hc1 by done. rewrite decide_False by lia.
        rewrite (IH (delete_edge (add_edge g e) e) S A); cycle 1.
        -- apply holds_delete_edge. by rewrite Hne.
        -- done.
        -- intros x Hx. apply Hnl. by right.
        -- split.
           ++ intros [?|(x & Hx & ?)]; [by left|right; exists x].
              split; [by right|done].
           ++ intros [?|(x & [->|Hx]%elem_of_cons & Hl & ? & ? & Hcx)];
                [by left| |right; by exists x].
              exfalso. by apply Hc, HcA.
    + rewrite (IH g S A); cycle 1; [done|done|intros x Hx; apply Hnl; by right|].
      split.
      * intros [?|(x & Hx & ?)]; [by left|right; exists x]. split; [by right|done].
      * intros [?|(x & [->|Hx]%elem_of_cons & Hl & ? & ? & Hcx)];
          [by left| |right; by exists x].
        exfalso. by apply Hends.
Qed.

Lemma conn_distinct_spanned (P : list (vertex * vertex)) x y :
  conn P x y → x ≠ y →
  (∃ p, p ∈ P ∧ (p.1 = x ∨ p.2 = x)) ∧ (∃ p, p ∈ P ∧ (p.1 = y ∨ p.2 = y)).
Proof.
  intros Hc Hne. split.
  - symmetry in Hc. apply conn_endpoint in Hc as [?|?]; [congruence|done].
  - apply conn_endpoint in Hc as [?|?]; [congruence|done].
Qed.

(** An element is in the closure of [X] when it is in [X] or the two ends
    of its edge are joined by a walk along edges of [X]. *)
Lemma _closure_spec X :
  X ⊆ _groundset M →
  ∃ C, _closure M X = Ok C ∧
       ∀ l, l ∈ C ↔ l ∈ X ∨ ∃ e, e ∈ edges (_G M) ∧ lbl e = l ∧
                              conn (ends <$> edges_within M X) (src e) (dst e).
Proof.
  intros HX.
  destruct (_groundset_to_edges_spec M Hwf X HX) as (xs & Hxs & _ & Hinx).
  destruct (_groundset_to_edges_spec M Hwf (_groundset M ∖ X)) as (ys & Hys & _ & Hiny);
    [set_solver|].
  unfold _closure, _subgraph_from_set. rewrite Hys, Hxs. cbn.
  destruct (foldl _ _ ys) as [g' C'] eqn:Hfold.
  eexists. split; [done|]. intros l.
  assert (∀ e, e ∈ xs → norm e = e) as Hnx.
  { intros e He. apply (wf_norm M Hwf). by apply Hinx. }
  assert (∀ e, e ∈ ys → norm e = e) as Hny.
  { intros e He. apply (wf_norm M Hwf). by apply Hiny. }
  pose proof (closure_loop xs _ _ ys
                (holds_connected_components_number _ _ _ (holds_of_edges xs Hnx))
                (of_edges xs) X []) as Hloop.
  rewrite Hfold in Hloop. cbn [snd] in Hloop. rewrite app_nil_r in Hloop.
  specialize (Hloop (holds_of_edges xs Hnx) ltac:(by intros ? ?%elem_of_nil) Hny).
  assert (∀ x y, conn (ends <$> edges_within M X) x y ↔ conn (ends <$> xs) x y) as Hconn.
  { intros x y. apply conn_perm, fmap_Permutation. symmetry.
    by apply (edges_of_within M Hwf). }
  rewrite elem_of_union, Hloop, elem_of_list_to_set, list_elem_of_fmap.
  setoid_rewrite Hconn. split.
  - intros [[?|(e & He & Hl & _ & _ & Hc)]|(e & -> & [Hloop' He]%list_elem_of_filter)].
    + by left.
    + right. exists e. split; [by apply Hiny|done].
    + right. exists e. split; [done|]. split; [done|]. by rewrite Hloop'.
  - intros [?|(e & He & Hl & Hc)]; [by left; left|].
    destruct (decide (l ∈ X)) as [?|HlX]; [by left; left|].
    destruct (decide (src e = dst e)) as [Heq|Hne].
    + right. exists e. split; [done|]. by apply list_elem_of_filter.
    + left. right. exists e.
      destruct (conn_distinct_spanned _ _ _ Hc Hne) as [(p & Hp & Hps) (q & Hq & Hqs)].
      apply list_elem_of_fmap in Hp as (ep & -> & Hep).
      apply list_elem_of_fmap in Hq as (eq & -> & Heq).
      split_and!; [|done| | |done].
      * apply Hiny. split; [done|]. rewrite Hl. apply elem_of_difference. split; [|done].
        rewrite <- Hl. apply (elem_of_groundset M Hwf). eauto.
      * apply elem_of_vertices_of_edges, elem_of_endpoints. exists ep. by split.
      * apply elem_of_vertices_of_edges, elem_of_endpoints. exists eq. by split.
Qed.

Lemma edges_within_cons X e :
  e ∈ edges (_G M) → lbl e ∉ X →
  edges_within M ({[lbl e]} ∪ X) ≡ₚ e :: edges_within M X.
Proof.
  intros He Hl.
  apply NoDup_Permutation; [by apply edges_within_NoDup| |].
  - apply NoDup_cons. split; [|by apply edges_within_NoDup].
    rewrite elem_of_edges_within. tauto.
  - intros x. rewrite elem_of_cons, !elem_of_edges_within, elem_of_union, elem_of_singleton.
    split.
    + intros [Hx [Hlx|Hlx]]; [left|by right].
      by apply (same_label_same_edge (edges (_G M))); [apply (wf_labels M Hwf)|..].
    + intros [->|[Hx Hlx]]; [by split; [|left]|by split; [|right]].
Qed.

Lemma _rank_within X :
  X ⊆ _groundset M → _rank M X = Ok (Z.of_nat (rk (ends <$> edges_within M X))).
Proof.
  intros HX. destruct (_groundset_to_edges_spec M Hwf X HX) as (xs & Hxs & _).
  rewrite (_rank_rk M X xs Hwf HX Hxs). do 2 f_equal.
  apply rk_perm, fmap_Permutation. by apply (edges_of_within M Hwf).
Qed.

Lemma conn_within_closure X C :
  X ⊆ _groundset M →
  (∀ l, l ∈ C ↔ l ∈ X ∨ ∃ e, e ∈ edges (_G M) ∧ lbl e = l ∧
                          conn (ends <$> edges_within M X) (src e) (dst e)) →
  ∀ x y, conn (ends <$> edges_within M C) x y ↔ conn (ends <$> edges_within M X) x y.
Proof.
  intros HX HC x y. split.
  - apply conn_sub. intros p (e & -> & [He Hl]%elem_of_edges_within)%list_elem_of_fmap.
    apply HC in Hl as [Hl|(e' & He' & Hl & Hc)].
    + apply conn_edge, list_elem_of_fmap. exists e.
      split; [by destruct e as [[??]?]|]. by apply elem_of_edges_within.
    + assert (e' = e) as ->; [|done].
      by apply (same_label_same_edge (edges (_G M))); [apply (wf_labels M Hwf)|..].
  - apply conn_mono. intros p (e & -> & [He Hl]%elem_of_edges_within)%list_elem_of_fmap.
    left. apply list_elem_of_fmap. exists e. split; [done|].
    apply elem_of_edges_within. split; [done|]. apply HC. by left.
Qed.

End closure.

(** X8: an element belongs to [_closure(X)] exactly when it is in [X] or
    the two ends of its edge are joined by a walk along edges of [X] (for a
    loop, always). *)
Theorem X8_closure_by_connectivity
    (G : Graph (option label)) (groundset : option (list (option label)))
    (X : gset label) :
  valid_groundset G groundset →
  X ⊆ _groundset (__init__ G groundset) →
  let M := __init__ G groundset in
  ∃ C, _closure M X = Ok C ∧
       (∀ l, l ∈ C ↔ l ∈ X ∨ ∃ e, e ∈ edges (graph M) ∧ lbl e = l ∧
                               conn (ends <$> edges_within M X) (src e) (dst e)) ∧
       ∀ u L, (u, u, L) ∈ edges (graph M) → L ∈ C.
Proof.
  intros Hvalid HX M. pose proof (init_wf G groundset Hvalid) as Hwf. fold M in Hwf, HX.
  clearbody M. destruct (_closure_spec M Hwf X HX) as (C & HC & Hiff).
  exists C. split; [done|]. split; [done|].
  intros u L Hloop. apply Hiff. right. exists (u, u, L). done.
Qed.

Lemma X8_witness :
  let M := Examples.triangle in
  let X : gset label := {[0; 1]} in
  ∃ C, _closure M X = Ok C ∧
       (∀ l, l ∈ C ↔ l ∈ X ∨ ∃ e, e ∈ edges (graph M) ∧ lbl e = l ∧
                               conn (ends <$> edges_within M X) (src e) (dst e)) ∧
       ∀ u L, (u, u, L) ∈ edges (graph M) → L ∈ C.
Proof.
  apply (X8_closure_by_connectivity (Examples.unlabelled [(0, 1); (0, 2); (1, 2)]) None
           {[0; 1]}).
  - exact I.
  - apply (bool_decide_unpack _). vm_compute. exact I.
Defined.

(** X9: [_closure] is a closure operator on the subsets of the ground
    set: [X] is inside [_closure(X)], which is inside the ground set; a
    larger set has a larger closure; and the closure of a closure is that
    closure. *)
Theorem X9_closure_operator
    (G : Graph (option label)) (groundset : option (list (option label)))
    (X Y : gset label) :
  valid_groundset G groundset →
  X ⊆ Y → Y ⊆ _groundset (__init__ G groundset) →
  let M := __init__ G groundset in
  ∃ CX CY,
    _closure M X = Ok CX ∧ _closure M Y = Ok CY ∧
    X ⊆ CX ∧ CX ⊆ _groundset M ∧
    CX ⊆ CY ∧
    _closure M CX = Ok CX.
Proof.
  intros Hvalid HXY HY M. pose proof (init_wf G groundset Hvalid) as Hwf.
  fold M in Hwf, HY. clearbody M.
  assert (X ⊆ _groundset M) as HX by set_solver.
  destruct (_closure_spec M Hwf X HX) as (CX & HCX & HiffX).
  destruct (_closure_spec M Hwf Y HY) as (CY & HCY & HiffY).
  assert (CX ⊆ _groundset M) as HCXE.
  { intros l [?|(e & He & <- & _)]%HiffX; [set_solver|].
    apply (elem_of_groundset M Hwf). eauto. }
  exists CX, CY. split_and!; try done.
  - intros l Hl. apply HiffX. by left.
  - intros l [?|(e & He & Hl & Hc)]%HiffX; apply HiffY; [left; set_solver|].
    right. exists e. split_and!; [done..|].
    revert Hc. apply conn_mono.
    intros p (x & -> & [Hx Hlx]%elem_of_edges_within)%list_elem_of_fmap. left.
    apply list_elem_of_fmap. exists x. split; [done|].
    apply elem_of_edges_within. split; [done|set_solver].
  - destruct (_closure_spec M Hwf CX HCXE) as (CC & HCC & HiffC).
    rewrite HCC. f_equal. apply set_eq. intros l. rewrite HiffC.
    setoid_rewrite (conn_within_closure M Hwf X CX HX HiffX).
    rewrite (HiffX l). split; [|tauto]. intros [[?|?]|?]; auto.
Qed.

Lemma X9_witness :
  let M := Examples.triangle in
  let X : gset label := {[0]} in
  let Y : gset label := {[0; 1]} in
  ∃ CX CY,
    _closure M X = Ok CX ∧ _closure M Y = Ok CY ∧
    X ⊆ CX ∧ CX ⊆ _groundset M ∧
    CX ⊆ CY ∧
    _closure M CX = Ok CX.
Proof.
  apply (X9_closure_operator (Examples.unlabelled [(0, 1); (0, 2); (1, 2)]) None
           {[0]} {[0; 1]}).
  - exact I.
  - apply (bool_decide_unpack _). vm_compute. exact I.
  - apply (bool_decide_unpack _). vm_compute. exact I.
Defined.

(** X10: the closure of [X] is made of the elements that do not raise the
    rank: [rank(_closure(X)) = rank(X)], and an element [x] of the ground
    set is in [_closure(X)] exactly when [rank(X ∪ {x}) = rank(X)]. *)
Theorem X10_closure_keeps_rank
    (G : Graph (option label)) (groundset : option (list (option label)))
    (X : gset label) :
  valid_groundset G groundset →
  X ⊆ _groundset (__init__ G groundset) →
  let M := __init__ G groundset in
  ∃ C r,
    _closure M X = Ok C ∧ _rank M X = Ok r ∧ _rank M C = Ok r ∧
    ∀ x, x ∈ _groundset M → (x ∈ C ↔ _rank M ({[x]} ∪ X) = Ok r).
Proof.
  intros Hvalid HX M. pose proof (init_wf G groundset Hvalid) as Hwf. fold M in Hwf, HX.
  clearbody M. destruct (_closure_spec M Hwf X HX) as (C & HC & Hiff).
  assert (C ⊆ _groundset M) as HCE.
  { intros l [?|(e & He & <- & _)]%Hiff; [set_solver|].
    apply (elem_of_groundset M Hwf). eauto. }
  exists C, (Z.of_nat (rk (ends <$> edges_within M X))).
  split_and!; [done|by apply _rank_within| |].
  - rewrite (_rank_within M Hwf C HCE). do 2 f_equal. apply rk_conn_ext.
    by apply conn_within_closure.
  - intros x Hx. rewrite (_rank_within M Hwf) by set_solver.
    apply (elem_of_groundset M Hwf) in Hx as (e & He & <-).
    destruct (decide (lbl e ∈ X)) as [HlX|HlX].
    + assert ({[lbl e]} ∪ X = X) as -> by set_solver. split; [done|]. intros _.
      apply Hiff. by left.
    + rewrite (rk_perm _ _ (fmap_Permutation ends _ _ (edges_within_cons M Hwf X e He HlX))).
      rewrite fmap_cons. replace (ends e) with (src e, dst e) by (by destruct e as [[??]?]).
      destruct (rk_cons (ends <$> edges_within M X) (src e) (dst e)) as [H1 H2].
      rewrite Hiff. split.
      * intros [?|(e' & He' & Hl & Hc)]; [done|].
        assert (e' = e) as ->
          by (by apply (same_label_same_edge (edges (_G M))); [apply (wf_labels M Hwf)|..]).
        by rewrite H1.
      * intros [= Heq]. right. exists e. split_and!; [done..|].
        destruct (conn_decide (ends <$> edges_within M X) (src e) (dst e)) as [?|Hn]; [done|].
        rewrite H2 in Heq by done. lia.
Qed.

Lemma X10_witness :
  let M := Examples.triangle in
  let X : gset label := {[0; 1]} in
  ∃ C r,
    _closure M X = Ok C ∧ _rank M X = Ok r ∧ _rank M C = Ok r ∧
    ∀ x, x ∈ _groundset M → (x ∈ C ↔ _rank M ({[x]} ∪ X) = Ok r).
Proof.
  apply (X10_closure_keeps_rank (Examples.unlabelled [(0, 1); (0, 2); (1, 2)]) None
           {[0; 1]}).
  - exact I.
  - apply (bool_decide_unpack _). vm_compute. exact I.
Defined.

(** X11: [_is_closed] is sound: when it answers [True] for a subset [X] of
    the ground set, [X] is its own closure.  (It always answers, with
    [True] or [False].) *)
Theorem X11_is_closed_sound
    (G : Graph (option label)) (groundset : option (list (option label)))
    (X : gset label) :
  valid_groundset G groundset →
  X ⊆ _groundset (__init__ G groundset) →
  let M := __init__ G groundset in
  ∃ b, _is_closed M X = Ok b ∧ (b = true → _closure M X = Ok X).
Proof.
  intros Hvalid HX M. pose proof (init_wf G groundset Hvalid) as Hwf. fold M in Hwf, HX.
  clearbody M.
  destruct (_is_closed_spec M X Hwf HX) as (xs & Hxs & Hiff).
  destruct (_closure_spec M Hwf X HX) as (C & HC & HCiff).
  set (LL := (list_to_set (lbl <$> loops (_G M)) : gset label)) in *.
  destruct (_groundset_to_edges_spec M Hwf (X ∖ LL)) as (xs' & Hxs' & _ & Hinx);
    [set_solver|].
  assert (xs' = xs) as -> by congruence.
  assert (∃ b, _is_closed M X = Ok b) as [b Hb].
  { unfold _is_closed. fold LL. case_decide; [|by eexists].
    rewrite Hxs. cbn.
    destruct (_groundset_to_edges_spec M Hwf (_groundset M ∖ (X ∖ LL))) as (ys & -> & _);
      [set_solver|]. by eexists. }
  exists b. split; [done|]. intros ->. apply Hiff in Hb as [HLL Hout].
  rewrite HC. f_equal. apply set_eq. intros l. rewrite HCiff. split; [|by left].
  intros [?|(e & He & Hl & Hc)]; [done|].
  destruct (decide (l ∈ X)) as [?|HlX]; [done|]. exfalso.
  assert (∀ e', e' ∈ edges (_G M) → lbl e' ∈ LL → src e' = dst e') as Hloops.
  { intros e' He' (x & Hlx & [Hx Hxin]%list_elem_of_filter)%elem_of_list_to_set%list_elem_of_fmap.
    assert (x = e') as <-; [|done].
    symmetry. by apply (same_label_same_edge (edges (_G M))); [apply (wf_labels M Hwf)|..]. }
  assert (src e ≠ dst e) as Hne.
  { intros Heq. apply HlX, HLL. rewrite <- Hl.
    apply elem_of_list_to_set, list_elem_of_fmap. exists e. split; [done|].
    by apply list_elem_of_filter. }
  assert (conn (ends <$> xs) (src e) (dst e)) as Hc'.
  { revert Hc. apply conn_sub.
    intros p (e' & -> & [He' Hl']%elem_of_edges_within)%list_elem_of_fmap.
    destruct (decide (lbl e' ∈ LL)) as [HLe|HLe].
    - replace (ends e') with (src e', dst e') by (by destruct e' as [[??]?]). simpl.
      by rewrite (Hloops e' He' HLe).
    - apply conn_edge, list_elem_of_fmap. exists e'.
      split; [by destruct e' as [[??]?]|]. apply Hinx. split; [done|set_solver]. }
  destruct (conn_distinct_spanned _ _ _ Hc' Hne) as [(p & Hp & Hps) (q & Hq & Hqs)].
  apply list_elem_of_fmap in Hp as (ep & -> & Hep).
  apply list_elem_of_fmap in Hq as (eq & -> & Heq).
  apply (Hout e He); [set_solver|]. rewrite !elem_of_spanned. split; eauto.
Qed.

Lemma X11_witness :
  let M := Examples.triangle in
  let X : gset label := {[0]} in
  ∃ b, _is_closed M X = Ok b ∧ (b = true → _closure M X = Ok X).
Proof.
  apply (X11_is_closed_sound (Examples.unlabelled [(0, 1); (0, 2); (1, 2)]) None {[0]}).
  - exact I.
  - apply (bool_decide_unpack _). vm_compute. exact I.
Defined.

(** ** Coclosure *)

Section coclosure.
Context (M : GraphicMatroid) (Hwf : wf M).
Implicit Types (X : gset label) (e : vertex * vertex * label)
  (es : list (vertex * vertex * label)) (g : Graph label).

Lemma coclosure_loop X c l :
  c + rk (ends <$> edges_without M X) = length (vertices (_G M)) →
  (∀ e, e ∈ l → e ∈ edges (_G M) ∧ lbl e ∉ X) →
  ∀ g S,
  holds g (vertices (_G M)) (edges_without M X) →
  ∀ lb, lb ∈ (foldl (coclosure_step c) (g, S) l).2 ↔
        lb ∈ S ∨ ∃ e, e ∈ l ∧ lbl e = lb ∧
                      ¬ conn (ends <$> edges_without M ({[lbl e]} ∪ X)) (src e) (dst e).
Proof.
  intros Hc0. induction l as [|e l IH]; intros Hl g S Hh lb.
  - cbn. split; [by left|]. intros [?|(e & ?%elem_of_nil & _)]; done.
  - cbn [foldl]. destruct (Hl e) as [He HlX]; [by left|].
    assert (norm e = e) as Hn by (by apply (wf_norm M Hwf)).
    pose proof (edges_without_cons M Hwf X e He HlX) as Hsplit.
    assert (holds (delete_edge g e) (vertices (_G M))
              (edges_without M ({[lbl e]} ∪ X))) as Hh1.
    { apply holds_delete_edge. rewrite Hn. by eapply holds_perm. }
    pose proof (holds_connected_components_number _ _ _ Hh1) as Hc1.
    pose proof (part_step M Hwf X e He HlX) as (Hs1 & Hs2 & Hs3).
    unfold coclosure_step at 2.
    rewrite IH; cycle 1.
    { intros x Hx. apply Hl. by right. }
    { eapply holds_perm; [apply holds_add_edge; [exact Hh1|..]|].
      - by apply (edge_ends_in M Hwf).
      - by apply (edge_ends_in M Hwf).
      - by rewrite Hn. }
    case_decide as Hcc.
    + assert (¬ conn (ends <$> edges_without M ({[lbl e]} ∪ X)) (src e) (dst e)) as Hbr
        by (apply Hs3; lia).
      rewrite elem_of_union, elem_of_singleton. split.
      * intros [[->|?]|(x & Hx & ?)]; [right; exists e|by left|right; exists x].
        -- split; [by left|done].
        -- split; [by right|done].
      * intros [?|(x & [->|Hx]%elem_of_cons & Hlx & ?)];
          [by left; right|by left; left|right; by exists x].
    + split.
      * intros [?|(x & Hx & ?)]; [by left|right; exists x]. split; [by right|done].
      * intros [?|(x & [->|Hx]%elem_of_cons & Hlx & Hbr)]; [by left| |right; by exists x].
        exfalso. apply Hs3 in Hbr. lia.
Qed.

Lemma _corank_rk X :
  X ⊆ _groundset M →
  _corank M X
  = Ok (Z.of_nat (size X) + Z.of_nat (rk (ends <$> edges_without M X)) + 1
        - Z.of_nat (length (vertices (_G M))))%Z.
Proof.
  intros HX. destruct (_groundset_to_edges_spec M Hwf X HX) as (es & Hes & _).
  unfold _corank. rewrite Hes. cbn. f_equal.
  pose proof (holds_connected_components_number _ _ _ (holds_delete_set M Hwf X es HX Hes)).
  lia.
Qed.

End coclosure.

(** X12: [_coclosure(X)] contains [X] and lies in the ground set, and an
    element [x] of the ground set is in [_coclosure(X)] exactly when adding
    it to [X] leaves the corank unchanged, that is when [x] is in [X] or its
    edge is a bridge of the graph without the edges of [X]. *)
Theorem X12_coclosure_keeps_corank
    (G : Graph (option label)) (groundset : option (list (option label)))
    (X : gset label) :
  valid_groundset G groundset →
  X ⊆ _groundset (__init__ G groundset) →
  let M := __init__ G groundset in
  ∃ C c,
    _coclosure M X = Ok C ∧ _corank M X = Ok c ∧
    X ⊆ C ∧ C ⊆ _groundset M ∧
    (∀ x, x ∈ _groundset M → (x ∈ C ↔ _corank M ({[x]} ∪ X) = Ok c)) ∧
    (∀ e, e ∈ edges (graph M) → lbl e ∉ X →
          (lbl e ∈ C ↔
           ¬ conn (ends <$> edges_without M ({[lbl e]} ∪ X)) (src e) (dst e))).
Proof.
  intros Hvalid HX M. pose proof (init_wf G groundset Hvalid) as Hwf. fold M in Hwf, HX.
  clearbody M.
  destruct (_groundset_to_edges_spec M Hwf X HX) as (xs & Hxs & _).
  destruct (_groundset_to_edges_spec M Hwf (_groundset M ∖ X)) as (ys & Hys & _ & Hiny);
    [set_solver|].
  pose proof (holds_delete_set M Hwf X xs HX Hxs) as Hh.
  pose proof (coclosure_loop M Hwf X _ ys (holds_connected_components_number _ _ _ Hh))
    as Hloop.
  specialize (Hloop ltac:(intros e [? ?]%Hiny; split; [done|set_solver]) _ X Hh).
  assert (_coclosure M X
          = Ok (foldl (coclosure_step (connected_components_number
                                         (delete_edges (graph M) xs)))
                  (delete_edges (graph M) xs, X) ys).2) as HC.
  { unfold _coclosure. rewrite Hxs. cbn. by rewrite Hys. }
  set (C := (foldl _ _ ys).2) in *.
  assert (∀ e, e ∈ edges (_G M) → lbl e ∉ X →
            (lbl e ∈ C ↔
             ¬ conn (ends <$> edges_without M ({[lbl e]} ∪ X)) (src e) (dst e))) as Hbridge.
  { intros e He Hl. rewrite Hloop. split.
    - intros [?|(e' & He' & Hl' & Hbr)]; [done|].
      assert (e' = e) as ->; [|done].
      apply (same_label_same_edge (edges (_G M)));
        [apply (wf_labels M Hwf)|by apply Hiny|done|done].
    - intros Hbr. right. exists e. split_and!; [|done..]. apply Hiny. split; [done|].
      apply elem_of_difference. split; [|done]. apply (elem_of_groundset M Hwf). eauto. }
  exists C, (Z.of_nat (size X) + Z.of_nat (rk (ends <$> edges_without M X)) + 1
             - Z.of_nat (length (vertices (_G M))))%Z.
  split_and!; [done|by apply _corank_rk| | | |done].
  - intros l Hl. apply Hloop. by left.
  - intros l [?|(e & [He _]%Hiny & <- & _)]%Hloop; [set_solver|].
    apply (elem_of_groundset M Hwf). eauto.
  - intros x Hx. rewrite (_corank_rk M Hwf) by set_solver.
    destruct (decide (x ∈ X)) as [HxX|HxX].
    + assert ({[x]} ∪ X = X) as -> by set_solver. split; [done|]. intros _.
      apply Hloop. by left.
    + apply (elem_of_groundset M Hwf) in Hx as (e & He & <-).
      rewrite (Hbridge e He HxX).
      pose proof (part_step M Hwf X e He HxX) as (Hs1 & Hs2 & Hs3).
      rewrite <- Hs3. rewrite size_union, size_singleton by set_solver.
      split; [intros ->; f_equal; lia|intros [= Heq]; lia].
Qed.

Lemma X12_witness :
  let M := Examples.triangle in
  let X : gset label := {[0]} in
  ∃ C c,
    _coclosure M X = Ok C ∧ _corank M X = Ok c ∧
    X ⊆ C ∧ C ⊆ _groundset M ∧
    (∀ x, x ∈ _groundset M → (x ∈ C ↔ _corank M ({[x]} ∪ X) = Ok c)) ∧
    (∀ e, e ∈ edges (graph M) → lbl e ∉ X →
          (lbl e ∈ C ↔
           ¬ conn (ends <$> edges_without M ({[lbl e]} ∪ X)) (src e) (dst e))).
Proof.
  apply (X12_coclosure_keeps_corank (Examples.unlabelled [(0, 1); (0, 2); (1, 2)]) None
           {[0]}).
  - exact I.
  - apply (bool_decide_unpack _). vm_compute. exact I.
Defined.

(** ** Circuits and bases *)

Lemma holds_is_forest (g : Graph label) V es :
  holds g V es → is_forest g = true ↔ rk (ends <$> es) = length es.
Proof.
  intros Hh. rewrite (is_forest_rk g (holds_graph_ok _ _ _ Hh)).
  destruct Hh as (_ & _ & Hes & _).
  rewrite pairs_ends, (rk_perm _ _ (fmap_Permutation ends _ _ Hes)).
  by rewrite (Permutation_length Hes).
Qed.

Lemma is_cut_edge_spec (g : Graph label) V e es :
  holds g V (e :: es) → norm e = e →
  is_cut_edge g e = true ↔ ¬ conn (ends <$> es) (src e) (dst e).
Proof.
  intros Hh Hn. unfold is_cut_edge. rewrite bool_decide_eq_true.
  assert (holds (delete_edge g e) V es) as Hh' by (apply holds_delete_edge; by rewrite Hn).
  pose proof (holds_graph_ok _ _ _ Hh') as [_ Hin].
  destruct Hh as (_ & _ & _ & Hends). destruct (Hends e) as [Hs Hd]; [by left|].
  destruct Hh' as (_ & HV & Hes & _).
  rewrite find_run_conn; cycle 1.
  { intros p (x & -> & Hx)%list_elem_of_fmap. by apply Hin. }
  { by rewrite HV. }
  { by rewrite HV. }
  rewrite pairs_ends. by rewrite (conn_perm _ _ _ _ (fmap_Permutation ends _ _ Hes)).
Qed.

(** A list of edges each of which is a bridge of the others is a forest. *)
Lemma rk_all_bridges (l : list (vertex * vertex * label)) :
  (∀ l1 e l2, l = l1 ++ e :: l2 → ¬ conn (ends <$> (l1 ++ l2)) (src e) (dst e)) →
  rk (ends <$> l) = length l.
Proof.
  induction l as [|e l IH]; intros Hbr; [done|].
  rewrite fmap_cons. replace (ends e) with (src e, dst e) by (by destruct e as [[??]?]).
  destruct (rk_cons (ends <$> l) (src e) (dst e)) as [_ ->].
  - cbn. f_equal. apply IH. intros l1 x l2 -> Hc.
    apply (Hbr (e :: l1) x l2); [done|]. revert Hc. apply conn_mono.
    intros p Hp. left. rewrite fmap_app in Hp. rewrite fmap_app, fmap_cons. set_solver.
  - by apply (Hbr [] e l).
Qed.

Section circuit.
Context (M : GraphicMatroid) (Hwf : wf M).
Implicit Types (X C S : gset label) (e : vertex * vertex * label)
  (es rest : list (vertex * vertex * label)) (g : Graph label).

#[local] Abbreviation lbls l := (list_to_set (lbl <$> l) : gset label).
#[local] Abbreviation full S :=
  (rk (ends <$> edges_within M S) = length (edges_within M S)).

Lemma edges_within_submseteq S S' : S ⊆ S' → edges_within M S ⊆+ edges_within M S'.
Proof. intros HS. apply filter_submseteq_impl. set_solver. Qed.

Lemma full_subseteq S S' : S ⊆ S' → full S' → full S.
Proof.
  intros HS Hf. rewrite <- (length_fmap ends).
  apply (rk_full_submseteq _ (ends <$> edges_within M S')).
  - apply fmap_submseteq, edges_within_submseteq, HS.
  - by rewrite length_fmap.
Qed.

Lemma _is_independent_full S :
  S ⊆ _groundset M →
  _is_independent M S
  = Ok (bool_decide (rk (ends <$> edges_within M S) = length (edges_within M S))).
Proof.
  intros HS. destruct (_groundset_to_edges_spec M Hwf S HS) as (es & Hes & _).
  unfold _is_independent, _subgraph_from_set. rewrite Hes. cbn. f_equal.
  pose proof (edges_of_within M Hwf S es HS Hes) as Hp.
  rewrite <- (rk_perm _ _ (fmap_Permutation ends _ _ Hp)), <- (Permutation_length Hp).
  destruct (is_forest (of_edges es)) eqn:Hf; symmetry.
  - apply bool_decide_eq_true. by apply is_forest_of_edges.
  - apply bool_decide_eq_false. rewrite <- is_forest_of_edges. congruence.
Qed.

Lemma circuit_loop V rest : ∀ g C,
  NoDup (lbl <$> rest) → (∀ e, e ∈ rest → e ∈ edges (_G M)) →
  C ## lbls rest →
  holds g V (edges_within M (C ∪ lbls rest)) →
  ¬ full (C ∪ lbls rest) →
  (∀ k, k ∈ C → full ((C ∪ lbls rest) ∖ {[k]})) →
  let C' := (foldl circuit_step (g, C) rest).2 in
  C' ⊆ C ∪ lbls rest ∧ ¬ full C' ∧ ∀ k, k ∈ C' → full (C' ∖ {[k]}).
Proof.
  induction rest as [|e rest IH]; intros g C Hnd Hin Hdisj Hh Hnf Hk.
  - cbn in *. rewrite union_empty_r_L in *. done.
  - cbn [foldl]. rewrite fmap_cons in Hnd. apply NoDup_cons in Hnd as [Hle Hnd].
    assert (e ∈ edges (_G M)) as He by (apply Hin; left).
    assert (norm e = e) as Hn by (by apply (wf_norm M Hwf)).
    assert (lbl e ∉ lbls rest) as Hle' by (by rewrite elem_of_list_to_set).
    assert (lbl e ∉ C) as HleC by set_solver.
    assert (C ∪ lbls (e :: rest) = {[lbl e]} ∪ (C ∪ lbls rest)) as HS by set_solver.
    rewrite HS in Hh, Hnf.
    pose proof (edges_within_cons M Hwf (C ∪ lbls rest) e He ltac:(set_solver)) as Hsplit.
    assert (holds (delete_edge g e) V (edges_within M (C ∪ lbls rest))) as Hh1.
    { apply holds_delete_edge. rewrite Hn. by eapply holds_perm. }
    assert (circuit_step (g, C) e
            = if is_forest (delete_edge g e)
              then (add_edge (delete_edge g e) e, {[lbl e]} ∪ C)
              else (delete_edge g e, C)) as -> by done.
    destruct (is_forest (delete_edge g e)) eqn:Hforest.
    + apply (holds_is_forest _ _ _ Hh1) in Hforest.
      destruct (IH (add_edge (delete_edge g e) e) ({[lbl e]} ∪ C)) as (H1 & H2 & H3);
        try done.
      * set_solver.
      * set_solver.
      * assert ({[lbl e]} ∪ C ∪ lbls rest = {[lbl e]} ∪ (C ∪ lbls rest)) as -> by set_solver.
        eapply holds_perm; [apply holds_add_edge; [exact Hh1|..]|].
        -- destruct Hh as (_ & _ & _ & Hends). apply Hends, elem_of_edges_within.
           split; [done|set_solver].
        -- destruct Hh as (_ & _ & _ & Hends). apply Hends, elem_of_edges_within.
           split; [done|set_solver].
        -- by rewrite Hn.
      * by assert ({[lbl e]} ∪ C ∪ lbls rest = {[lbl e]} ∪ (C ∪ lbls rest)) as -> by set_solver.
      * intros k [->%elem_of_singleton|HkC]%elem_of_union.
        -- eapply full_subseteq; [|exact Hforest]. set_solver.
        -- eapply full_subseteq; [|exact (Hk k HkC)]. set_solver.
      * cbv zeta. split_and!; [rewrite HS; clear -H1; set_solver|done|done].
    + assert (¬ full (C ∪ lbls rest)) as Hnf'.
      { intros Hf. apply (holds_is_forest _ _ _ Hh1) in Hf. congruence. }
      destruct (IH (delete_edge g e) C) as (H1 & H2 & H3); try done.
      * set_solver.
      * set_solver.
      * intros k HkC. eapply full_subseteq; [|exact (Hk k HkC)]. clear; set_solver.
      * cbv zeta. split_and!; [rewrite HS; clear -H1; set_solver|done|done].
Qed.

Lemma _circuit_spec X :
  X ⊆ _groundset M → _is_independent M X = Ok false →
  ∃ C, _circuit M X = Ok C ∧ C ⊆ X ∧ _is_independent M C = Ok false ∧
       ∀ x, x ∈ C → _is_independent M (C ∖ {[x]}) = Ok true.
Proof.
  intros HX Hind.
  destruct (_groundset_to_edges_spec M Hwf X HX) as (xs & Hxs & Hlx & Hinx).
  assert (∀ e, e ∈ xs → norm e = e) as Hnx.
  { intros e He. apply (wf_norm M Hwf). by apply Hinx. }
  pose proof (holds_of_edges xs Hnx) as Hh0.
  pose proof (edges_of_within M Hwf X xs HX Hxs) as Hpx.
  assert (edges (of_edges xs) ≡ₚ xs) as Hpe by (by destruct Hh0 as (_ & _ & ? & _)).
  assert (lbls (edges (of_edges xs)) = X) as Hlbls.
  { apply set_eq. intros l. rewrite elem_of_list_to_set, Hpe, Hlx. apply elem_of_elements. }
  rewrite (_is_independent_full X HX) in Hind. injection Hind as Hind.
  apply bool_decide_eq_false in Hind.
  destruct (circuit_loop (vertices (of_edges xs)) (edges (of_edges xs)) (of_edges xs) ∅)
    as (H1 & H2 & H3).
  - rewrite Hpe, Hlx. apply NoDup_elements.
  - intros e He. rewrite Hpe in He. by apply Hinx.
  - set_solver.
  - rewrite union_empty_l_L, Hlbls. by eapply holds_perm.
  - by rewrite union_empty_l_L, Hlbls.
  - set_solver.
  - rewrite union_empty_l_L, Hlbls in H1.
    exists (foldl circuit_step (of_edges xs, ∅) (edges (of_edges xs))).2.
    split_and!.
    + unfold _circuit, _subgraph_from_set. rewrite Hxs. cbn.
      destruct (is_forest (of_edges xs)) eqn:Hf; [|done].
      exfalso. apply Hind. apply is_forest_of_edges in Hf.
      by rewrite <- (rk_perm _ _ (fmap_Permutation ends _ _ Hpx)), <- (Permutation_length Hpx).
    + done.
    + rewrite _is_independent_full by set_solver. f_equal. by apply bool_decide_eq_false.
    + intros x Hx. rewrite _is_independent_full by set_solver. f_equal.
      apply bool_decide_eq_true. by apply H3.
Qed.

(** *** A maximal independent subset *)

Lemma max_independent_loop V X rest : ∀ g ind,
  NoDup (lbl <$> rest) → (∀ e, e ∈ rest → e ∈ edges (_G M)) →
  lbls rest ## list_to_set ind →
  let K : gset label := list_to_set ind in
  holds g V (edges_within M (K ∪ lbls rest)) →
  (∀ x y, conn (ends <$> edges_within M (K ∪ lbls rest)) x y
          ↔ conn (ends <$> edges_within M X) x y) →
  (∀ e, e ∈ edges (_G M) → lbl e ∈ K →
        ¬ conn (ends <$> edges_within M ((K ∪ lbls rest) ∖ {[lbl e]})) (src e) (dst e)) →
  let K' : gset label := list_to_set (foldl max_independent_step (g, ind) rest).2 in
  K' ⊆ K ∪ lbls rest ∧
  (∀ x y, conn (ends <$> edges_within M K') x y ↔ conn (ends <$> edges_within M X) x y) ∧
  (∀ e, e ∈ edges (_G M) → lbl e ∈ K' →
        ¬ conn (ends <$> edges_within M (K' ∖ {[lbl e]})) (src e) (dst e)).
Proof.
  induction rest as [|e rest IH]; intros g ind Hnd Hin Hdisj K Hh Hconn Hbr.
  - cbn in *. rewrite union_empty_r_L in *. done.
  - cbn [foldl]. rewrite fmap_cons in Hnd. apply NoDup_cons in Hnd as [Hle Hnd].
    assert (e ∈ edges (_G M)) as He by (apply Hin; left).
    assert (norm e = e) as Hn by (by apply (wf_norm M Hwf)).
    assert (lbl e ∉ lbls rest) as Hle' by (by rewrite elem_of_list_to_set).
    assert (lbl e ∉ K) as HleK by set_solver.
    assert (K ∪ lbls (e :: rest) = {[lbl e]} ∪ (K ∪ lbls rest)) as HS by set_solver.
    rewrite HS in Hh, Hconn, Hbr.
    pose proof (edges_within_cons M Hwf (K ∪ lbls rest) e He ltac:(set_solver)) as Hsplit.
    pose proof (holds_perm _ _ _ _ Hh Hsplit) as Hh'.
    assert (max_independent_step (g, ind) e
            = if is_cut_edge g e then (g, ind ++ [lbl e]) else (delete_edge g e, ind))
      as -> by done.
    destruct (is_cut_edge g e) eqn:Hcut.
    + apply (is_cut_edge_spec g V e _ Hh' Hn) in Hcut.
      destruct (IH g (ind ++ [lbl e])) as (H1 & H2 & H3); try done.
      * set_solver.
      * rewrite list_to_set_app_L. set_solver.
      * rewrite list_to_set_app_L.
        by assert (list_to_set ind ∪ list_to_set [lbl e] ∪ lbls rest
                   = {[lbl e]} ∪ (K ∪ lbls rest)) as -> by set_solver.
      * rewrite list_to_set_app_L.
        by assert (list_to_set ind ∪ list_to_set [lbl e] ∪ lbls rest
                   = {[lbl e]} ∪ (K ∪ lbls rest)) as -> by set_solver.
      * rewrite list_to_set_app_L.
        assert (list_to_set ind ∪ list_to_set [lbl e] ∪ lbls rest
                = {[lbl e]} ∪ (K ∪ lbls rest)) as -> by set_solver.
        intros x Hx [HxK|Hxe%elem_of_list_to_set%list_elem_of_singleton]%elem_of_union.
        -- by apply Hbr.
        -- assert (x = e) as ->
             by (by apply (same_label_same_edge (edges (_G M))); [apply (wf_labels M Hwf)|..]).
           assert (({[lbl e]} ∪ (K ∪ lbls rest)) ∖ {[lbl e]} = K ∪ lbls rest) as ->
             by set_solver.
           done.
      * split_and!; [|done|done]. rewrite list_to_set_app_L in H1. set_solver.
    + assert (conn (ends <$> edges_within M (K ∪ lbls rest)) (src e) (dst e)) as Hc.
      { destruct (conn_decide (ends <$> edges_within M (K ∪ lbls rest)) (src e) (dst e))
          as [?|Hn']; [done|].
        apply (is_cut_edge_spec g V e _ Hh' Hn) in Hn'. congruence. }
      destruct (IH (delete_edge g e) ind) as (H1 & H2 & H3); try done.
      * set_solver.
      * set_solver.
      * apply holds_delete_edge. by rewrite Hn.
      * intros x y. rewrite <- Hconn.
        rewrite (conn_perm _ _ x y (fmap_Permutation ends _ _ Hsplit)), fmap_cons.
        replace (ends e) with (src e, dst e) by (by destruct e as [[??]?]).
        rewrite conn_cons. split; [by left|].
        intros [?|[[? ?]|[? ?]]]; [done|..].
        -- etrans; [done|]. by etrans.
        -- etrans; [done|]. etrans; [symmetry; exact Hc|done].
      * intros x Hx HxK Hcx. apply (Hbr x Hx HxK). revert Hcx. apply conn_mono.
        intros p (z & -> & [Hz Hlz]%elem_of_edges_within)%list_elem_of_fmap. left.
        apply list_elem_of_fmap. exists z. split; [done|].
        apply elem_of_edges_within. split; [done|set_solver].
      * split_and!; [set_solver|done|done].
Qed.

Lemma edges_within_remove S l1 e l2 :
  edges_within M S = l1 ++ e :: l2 → edges_within M (S ∖ {[lbl e]}) ≡ₚ l1 ++ l2.
Proof.
  intros Heq. pose proof (edges_within_NoDup M Hwf S) as Hnd. rewrite Heq in Hnd.
  assert (∀ x, x ∈ edges_within M S ↔ x ∈ l1 ∨ x = e ∨ x ∈ l2) as Hmem.
  { intros x. rewrite Heq. set_solver. }
  assert (e ∈ edges (_G M)) as He by (apply (elem_of_edges_within M S), Hmem; auto).
  apply NoDup_app in Hnd as (Hnd1 & Hd & [Hne Hnd2]%NoDup_cons).
  apply NoDup_Permutation; [by apply edges_within_NoDup| |].
  - apply NoDup_app. split_and!; [done| |done]. intros x Hx1 Hx2. apply (Hd x Hx1). by right.
  - intros x. rewrite elem_of_app, elem_of_edges_within, elem_of_difference,
      not_elem_of_singleton.
    split.
    + intros (Hx & HxS & Hlx).
      assert (x ∈ edges_within M S) as [?|[->|?]]%Hmem by (by apply elem_of_edges_within);
        [by left|done|by right].
    + intros Hx.
      assert (x ∈ edges_within M S) as [Hx' HxS]%elem_of_edges_within
        by (apply Hmem; tauto).
      split_and!; [done..|]. intros Hl.
      assert (x = e) as -> by
        (by apply (same_label_same_edge (edges (_G M))); [apply (wf_labels M Hwf)|..]).
      destruct Hx as [Hx|Hx]; [|done]. apply (Hd e Hx). by left.
Qed.

Lemma max_independent_spec X es :
  X ⊆ _groundset M →
  NoDup es → (∀ e, e ∈ es ↔ e ∈ edges (_G M) ∧ lbl e ∈ X) →
  let I : gset label := list_to_set (foldl max_independent_step (of_edges es, []) es).2 in
  I ⊆ X ∧ _is_independent M I = Ok true ∧ _rank M I = _rank M X.
Proof.
  intros HX Hnd Hin I.
  assert (∀ e, e ∈ es → norm e = e) as Hnx.
  { intros e He. apply (wf_norm M Hwf). by apply Hin. }
  assert (lbls es = X) as Hlbls.
  { apply set_eq. intros l. rewrite elem_of_list_to_set, list_elem_of_fmap. split.
    - intros (e & -> & He). by apply Hin.
    - intros Hl. assert (l ∈ _groundset M) as (e & He & <-)%(elem_of_groundset M Hwf)
        by set_solver.
      exists e. split; [done|]. by apply Hin. }
  assert (es ≡ₚ edges_within M X) as Hp.
  { apply NoDup_Permutation; [done|by apply edges_within_NoDup|].
    intros e. by rewrite Hin, elem_of_edges_within. }
  destruct (max_independent_loop (vertices (of_edges es)) X es (of_edges es) [])
    as (H1 & H2 & H3).
  - apply (NoDup_fmap_2_strong lbl); [|done]. intros x y Hx Hy Hl.
    apply (same_label_same_edge (edges (_G M)));
      [apply (wf_labels M Hwf)|by apply Hin|by apply Hin|done].
  - intros e He. by apply Hin.
  - set_solver.
  - cbn. rewrite union_empty_l_L, Hlbls. eapply holds_perm; [by apply holds_of_edges|done].
  - cbn. by rewrite union_empty_l_L, Hlbls.
  - cbn. set_solver.
  - fold I in H1, H2, H3. cbn in H1. rewrite union_empty_l_L, Hlbls in H1.
    split_and!; [done| |].
    + rewrite _is_independent_full by set_solver. f_equal. apply bool_decide_eq_true.
      apply rk_all_bridges. intros l1 e l2 Heq.
      assert (e ∈ edges_within M I) as [He HeI]%elem_of_edges_within
        by (rewrite Heq; set_solver).
      rewrite <- (conn_perm _ _ _ _ (fmap_Permutation ends _ _
                                       (edges_within_remove I l1 e l2 Heq))).
      by apply H3.
    + rewrite !(_rank_within M Hwf) by set_solver. do 2 f_equal. by apply rk_conn_ext.
Qed.

End circuit.

(** X13: when [X] is dependent, [_circuit(X)] returns a circuit inside
    [X]: a set that [_is_independent] rejects, while every set obtained by
    leaving out one of its elements is independent.  This holds however
    many cycles the edges of [X] contain. *)
Theorem X13_circuit_is_minimal_dependent
    (G : Graph (option label)) (groundset : option (list (option label)))
    (X : gset label) :
  valid_groundset G groundset →
  X ⊆ _groundset (__init__ G groundset) →
  let M := __init__ G groundset in
  ∃ b, _is_independent M X = Ok b ∧
       (b = false →
        ∃ C, _circuit M X = Ok C ∧ C ⊆ X ∧ C ≠ ∅ ∧
             _is_independent M C = Ok false ∧
             ∀ x, x ∈ C → _is_independent M (C ∖ {[x]}) = Ok true).
Proof.
  intros Hvalid HX M. pose proof (init_wf G groundset Hvalid) as Hwf. fold M in Hwf, HX.
  clearbody M. rewrite (_is_independent_full M Hwf X HX). eexists. split; [done|].
  intros Hb.
  destruct (_circuit_spec M Hwf X HX) as (C & HC & HCX & Hdep & Hmin).
  { rewrite (_is_independent_full M Hwf X HX). by rewrite Hb. }
  exists C. split_and!; try done. intros ->.
  rewrite (_is_independent_full M Hwf ∅) in Hdep by set_solver.
  injection Hdep as Hdep. apply bool_decide_eq_false in Hdep. apply Hdep.
  destruct (edges_within M ∅) as [|x l] eqn:Hnil; [done|].
  assert (x ∈ edges_within M ∅) as [_ Hx]%elem_of_edges_within by (rewrite Hnil; left).
  by apply elem_of_empty in Hx.
Qed.

Lemma X13_witness :
  let M := Examples.triangle in
  let X : gset label := {[0; 1; 2]} in
  ∃ b, _is_independent M X = Ok b ∧
       (b = false →
        ∃ C, _circuit M X = Ok C ∧ C ⊆ X ∧ C ≠ ∅ ∧
             _is_independent M C = Ok false ∧
             ∀ x, x ∈ C → _is_independent M (C ∖ {[x]}) = Ok true).
Proof.
  apply (X13_circuit_is_minimal_dependent
           (Examples.unlabelled [(0, 1); (0, 2); (1, 2)]) None {[0; 1; 2]}).
  - exact I.
  - apply (bool_decide_unpack _). vm_compute. exact I.
Defined.

(** X14: [_max_independent(X)] returns a basis of [X]: an independent
    subset of [X] with the rank of [X], in whatever order the elements of
    [X] are visited. *)
Theorem X14_max_independent_is_a_basis
    (G : Graph (option label)) (groundset : option (list (option label)))
    (X : gset label) :
  valid_groundset G groundset →
  X ⊆ _groundset (__init__ G groundset) →
  let M := __init__ G groundset in
  (∃ I, _max_independent M X = Ok I ∧ I ⊆ X ∧
        _is_independent M I = Ok true ∧ _rank M I = _rank M X) ∧
  ∃ es, _groundset_to_edges M X = Ok es ∧
        ∀ es', es' ≡ₚ es →
          let I : gset label :=
            list_to_set (foldl max_independent_step (of_edges es', []) es').2 in
          I ⊆ X ∧ _is_independent M I = Ok true ∧ _rank M I = _rank M X.
Proof.
  intros Hvalid HX M. pose proof (init_wf G groundset Hvalid) as Hwf. fold M in Hwf, HX.
  clearbody M.
  destruct (_groundset_to_edges_spec M Hwf X HX) as (es & Hes & _ & Hin).
  pose proof (edges_of_NoDup M X es Hes) as Hnd.
  split.
  - unfold _max_independent. rewrite (_is_independent_full M Hwf X HX). cbn.
    case_bool_decide as Hf.
    + exists X. split_and!; [done|done| |done].
      rewrite (_is_independent_full M Hwf X HX). f_equal. by apply bool_decide_eq_true.
    + unfold _subgraph_from_set. rewrite Hes. cbn. eexists. split; [done|].
      by apply (max_independent_spec M Hwf X es).
  - exists es. split; [done|]. intros es' Hp.
    apply (max_independent_spec M Hwf X es' HX); [by rewrite Hp|].
    intros e. by rewrite Hp.
Qed.

Lemma X14_witness :
  let M := Examples.triangle in
  let X : gset label := {[0; 1; 2]} in
  (∃ I, _max_independent M X = Ok I ∧ I ⊆ X ∧
        _is_independent M I = Ok true ∧ _rank M I = _rank M X) ∧
  ∃ es, _groundset_to_edges M X = Ok es ∧
        ∀ es', es' ≡ₚ es →
          let I : gset label :=
            list_to_set (foldl max_independent_step (of_edges es', []) es').2 in
          I ⊆ X ∧ _is_independent M I = Ok true ∧ _rank M I = _rank M X.
Proof.
  apply (X14_max_independent_is_a_basis
           (Examples.unlabelled [(0, 1); (0, 2); (1, 2)]) None {[0; 1; 2]}).
  - exact I.
  - apply (bool_decide_unpack _). vm_compute. exact I.
Defined.

(** ** The constructor keeps the cycle matroid of its input *)

Section constructor_rank.
Context (G : Graph (option label)) (groundset : option (list (option label))).
Context (Hok : graph_ok G) (Hvalid : valid_groundset G groundset).
Implicit Types (e : vertex * vertex * label) (es P : list (vertex * vertex * label)).

#[local] Abbreviation M := (__init__ G groundset).
#[local] Abbreviation m := (lookup_vertex (init_vertex_map G)).
#[local] Abbreviation input := (input_edges G groundset).
Let t (e : vertex * vertex * label) := norm (rename_edge m e).

Lemma zip_with_labels {A} (f : A → label → vertex * vertex * label) (xs : list A)
    (ls : list label) :
  (∀ x l, lbl (f x l) = l) → length ls = length xs → lbl <$> zip_with f xs ls = ls.
Proof.
  intros Hf. revert xs. induction ls as [|l ls IH]; intros [|x xs] Hlen; simpl in *;
    try done.
  rewrite Hf. f_equal. apply IH. lia.
Qed.

Lemma input_labels : lbl <$> input = init_labels G groundset.
Proof.
  apply zip_with_labels; [done|]. by destruct (init_labels_spec G groundset Hvalid).
Qed.

Lemma input_ends : ends <$> input = pairs G.
Proof.
  destruct (init_labels_spec G groundset Hvalid) as [_ Hlen].
  unfold input_edges, pairs, num_edges in *. revert Hlen.
  generalize (init_labels G groundset). generalize (edges G).
  induction l as [|x xs IH]; intros [|l ls] Hlen; simpl in *; try done.
  f_equal; [by destruct x as [[??]?]|]. apply IH. lia.
Qed.

Lemma init_edge_list :
  zip_with (λ (e : vertex * vertex * option label) (l : label),
              (m (src e), m (dst e), l)) (edges G) (init_labels G groundset)
  = rename_edge m <$> input.
Proof.
  unfold input_edges. generalize (init_labels G groundset). generalize (edges G).
  induction l as [|x xs IH]; intros [|l ls]; simpl; try done. f_equal. apply IH.
Qed.

Lemma init_edges : edges (_G M) ≡ₚ t <$> input.
Proof.
  unfold __init__. cbn [_G]. rewrite init_edge_list.
  unfold of_edges, of_lists. cbn [edges]. rewrite sort_edges_perm.
  by rewrite <- list_fmap_compose.
Qed.

Lemma lbl_t e : lbl (t e) = lbl e.
Proof. unfold t. by rewrite lbl_norm. Qed.

Lemma input_NoDup : NoDup (lbl <$> input).
Proof. rewrite input_labels. by destruct (init_labels_spec G groundset Hvalid). Qed.

Lemma conn_init P e :
  (∀ x, x ∈ P → x ∈ input) → e ∈ input →
  conn (ends <$> P) (src e) (dst e)
  ↔ conn (ends <$> (t <$> P)) (src (t e)) (dst (t e)).
Proof.
  intros HP He.
  rewrite (conn_edges_flip t (rename_edge m)).
  2:{ intros x. unfold t. apply ends_norm. }
  assert (ends <$> (rename_edge m <$> P) = prod_map m m <$> (ends <$> P)) as ->.
  { rewrite <- !list_fmap_compose. apply list_fmap_ext. by intros _ [[??]?] _. }
  symmetry. apply (init_vertex_map_conn G (ends <$> P) (src e) (dst e) Hok).
  - intros p (x & -> & Hx)%list_elem_of_fmap. rewrite <- input_ends.
    apply list_elem_of_fmap. exists x. split; [done|]. by apply HP.
  - apply conn_edge. rewrite <- input_ends. apply list_elem_of_fmap.
    exists e. split; [by destruct e as [[??]?]|done].
Qed.

Lemma agree_init P es :
  (∀ x, x ∈ P → x ∈ input) → (∀ x, x ∈ es → x ∈ input) →
  agree (ends <$> P) (ends <$> (t <$> P)) (ends <$> es) (ends <$> (t <$> es)).
Proof.
  revert P. induction es as [|e es IH]; intros P HP Hes; [done|].
  rewrite !fmap_cons. split.
  - apply (conn_init P e); [done|]. apply Hes. left.
  - apply (IH (e :: P)).
    + intros x [->|Hx]%elem_of_cons; [apply Hes; left|by apply HP].
    + intros x Hx. apply Hes. by right.
Qed.

Lemma rank_of_edges_init es :
  (∀ x, x ∈ es → x ∈ input) → rank_of_edges (t <$> es) = rank_of_edges es.
Proof.
  intros Hes. symmetry. apply rank_of_edges_agree.
  apply (agree_init []); [by intros ? ?%elem_of_nil|done].
Qed.

Lemma t_inj_on_input x y : x ∈ input → y ∈ input → t x = t y → x = y.
Proof.
  intros Hx Hy Heq. apply (same_label_same_edge input); [apply input_NoDup|done..|].
  by rewrite <- (lbl_t x), <- (lbl_t y), Heq.
Qed.

Lemma edges_within_init (Y : gset label) :
  edges_within M Y ≡ₚ t <$> filter (λ e, lbl e ∈ Y) input.
Proof.
  pose proof (init_wf G groundset Hvalid) as Hwf.
  apply NoDup_Permutation.
  - by apply edges_within_NoDup.
  - apply (NoDup_fmap_1 lbl). rewrite <- list_fmap_compose.
    erewrite list_fmap_ext; [apply NoDup_fmap_filter, input_NoDup|].
    intros _ x _. apply lbl_t.
  - intros e. rewrite elem_of_edges_within, init_edges, !list_elem_of_fmap.
    setoid_rewrite list_elem_of_filter. split.
    + intros [(x & -> & Hx) Hl]. exists x. split_and!; [done| |done]. by rewrite <- lbl_t.
    + intros (x & -> & Hl & Hx). split; [by exists x|]. by rewrite lbl_t.
Qed.

Lemma init_groundset : _groundset M = list_to_set (lbl <$> input).
Proof. unfold __init__. cbn [_groundset]. by rewrite input_labels. Qed.

(** The rank of a set of elements is the rank of their edges in the input
    graph. *)
Lemma init_rank (Y : gset label) :
  Y ⊆ _groundset M →
  _rank M Y = Ok (rank_of_edges (filter (λ e, lbl e ∈ Y) input)).
Proof.
  intros HY. pose proof (init_wf G groundset Hvalid) as Hwf.
  rewrite (_rank_within M Hwf Y HY). f_equal.
  rewrite <- rank_of_edges_init by (by intros x [_ Hx]%list_elem_of_filter).
  rewrite rank_of_edges_rk. f_equal. apply rk_perm, fmap_Permutation.
  apply edges_within_init.
Qed.

End constructor_rank.

(** X15: the matroid that the constructor builds is the cycle matroid of
    the input graph, whether or not the input is connected: the ground set
    holds one element for each edge of the input, and the rank of a set of
    elements is the rank of the corresponding edges of the input graph,
    although the constructor joins the components of a disconnected
    input. *)
Theorem X15_constructor_keeps_cycle_matroid
    (G : Graph (option label)) (groundset : option (list (option label)))
    (Y : gset label) :
  graph_ok G → valid_groundset G groundset →
  Y ⊆ _groundset (__init__ G groundset) →
  let M := __init__ G groundset in
  let input := input_edges G groundset in
  ends <$> input = pairs G ∧
  NoDup (lbl <$> input) ∧
  _groundset M = list_to_set (lbl <$> input) ∧
  size (_groundset M) = num_edges G ∧
  _rank M Y = Ok (rank_of_edges (filter (λ e, lbl e ∈ Y) input)).
Proof.
  intros Hok Hvalid HY M input. subst M input. split_and!.
  - by apply input_ends.
  - by apply input_NoDup.
  - by apply init_groundset.
  - rewrite (init_groundset G groundset Hvalid).
    rewrite size_list_to_set by (by apply input_NoDup).
    rewrite (input_labels G groundset Hvalid).
    by destruct (init_labels_spec G groundset Hvalid).
  - by apply init_rank.
Qed.

Lemma X15_witness :
  let G := Examples.unlabelled [(0, 0); (1, 1); (2, 2)] in
  let Y : gset label := {[0; 2]} in
  let M := __init__ G None in
  let input := input_edges G None in
  ends <$> input = pairs G ∧
  NoDup (lbl <$> input) ∧
  _groundset M = list_to_set (lbl <$> input) ∧
  size (_groundset M) = num_edges G ∧
  _rank M Y = Ok (rank_of_edges (filter (λ e, lbl e ∈ Y) input)).
Proof.
  apply (X15_constructor_keeps_cycle_matroid
           (Examples.unlabelled [(0, 0); (1, 1); (2, 2)]) None {[0; 2]}).
  - split; [apply NoDup_sort_vertices|]. intros e He.
    split; apply vertices_of_edges_spec; exists e; auto.
  - exact I.
  - apply (bool_decide_unpack _). vm_compute. exact I.
Defined.

(** ** Graph values are kept sorted *)

Section sorted_graphs.
Implicit Types (g : Graph label) (e : vertex * vertex * label)
  (es : list (vertex * vertex * label)) (vs : list vertex).

#[local] Abbreviation edge_le :=
  (λ e1 e2 : vertex * vertex * label, Is_true (edge_leb e1 e2)).

Lemma edge_leb_spec e1 e2 :
  edge_leb e1 e2 = true ↔
  src e1 < src e2 ∨
  (src e1 = src e2 ∧ (dst e1 < dst e2 ∨ (dst e1 = dst e2 ∧ lbl e1 ≤ lbl e2))).
Proof.
  unfold edge_leb, label_key, label_key_elt.
  repeat case_decide; rewrite ?bool_decide_eq_true; split; intros; try done; lia.
Qed.

#[local] Instance edge_le_total : Total edge_le.
Proof. intros e1 e2. rewrite !Is_true_true, !edge_leb_spec. lia. Qed.

#[local] Instance edge_le_trans : Transitive edge_le.
Proof. intros e1 e2 e3. rewrite !Is_true_true, !edge_leb_spec. lia. Qed.

#[local] Instance edge_le_antisymm : AntiSymm (=) edge_le.
Proof.
  intros [[u1 v1] l1] [[u2 v2] l2]. rewrite !Is_true_true, !edge_leb_spec.
  unfold src, dst, lbl. simpl. intros H1 H2.
  assert (u1 = u2 ∧ v1 = v2 ∧ l1 = l2) as (-> & -> & ->) by lia. done.
Qed.

Lemma sort_edges_unique es es' : es ≡ₚ es' → sort_edges es = sort_edges es'.
Proof.
  intros Hp. apply (Sorted_unique edge_le).
  - apply (Sorted_merge_sort edge_le).
  - apply (Sorted_merge_sort edge_le).
  - unfold sort_edges. by rewrite !merge_sort_Permutation.
Qed.

Lemma sort_edges_sorted es : sort_edges (sort_edges es) = sort_edges es.
Proof.
  apply (Sorted_unique edge_le).
  - apply (Sorted_merge_sort edge_le).
  - apply (Sorted_merge_sort edge_le).
  - unfold sort_edges. by rewrite !merge_sort_Permutation.
Qed.

Lemma sort_vertices_unique vs vs' :
  (∀ v, v ∈ vs ↔ v ∈ vs') → sort_vertices vs = sort_vertices vs'.
Proof.
  intros Hv. apply (Sorted_unique Nat.le).
  - apply (Sorted_merge_sort Nat.le).
  - apply (Sorted_merge_sort Nat.le).
  - unfold sort_vertices. rewrite !merge_sort_Permutation.
    apply NoDup_Permutation; [apply NoDup_remove_dups..|].
    intros v. by rewrite !elem_of_remove_dups.
Qed.

(** Two graph values with the same vertices and the same edges are the
    same value. *)
Lemma of_lists_ext vs es vs' es' :
  (∀ v, v ∈ vs ++ endpoints es ↔ v ∈ vs' ++ endpoints es') →
  norm <$> es ≡ₚ norm <$> es' →
  of_lists vs es = of_lists vs' es'.
Proof.
  intros Hv He. unfold of_lists. f_equal; [by apply sort_vertices_unique|].
  by apply sort_edges_unique.
Qed.

Lemma endpoints_perm es es' (v : vertex) : es ≡ₚ es' → v ∈ endpoints es ↔ v ∈ endpoints es'.
Proof.
  intros Hp. rewrite !elem_of_endpoints. by setoid_rewrite Hp.
Qed.

Lemma kept_of_lists vs es : kept (of_lists vs es).
Proof.
  unfold kept.
  change (of_lists vs es =
          of_lists (sort_vertices (vs ++ endpoints es)) (sort_edges (norm <$> es))).
  apply of_lists_ext.
  - intros v. rewrite !elem_of_app, !elem_of_sort_vertices, !elem_of_app.
    rewrite (endpoints_perm _ _ v (sort_edges_perm (norm <$> es))), endpoints_norm. tauto.
  - rewrite sort_edges_perm, <- list_fmap_compose.
    apply eq_subrelation; [apply _|]. apply list_fmap_ext. intros _ e _. simpl.
    by rewrite norm_idemp.
Qed.

Lemma kept_of_edges es : kept (of_edges es).
Proof. apply kept_of_lists. Qed.

Lemma kept_graph_ok g : kept g → graph_ok g.
Proof.
  intros ->. split; [apply NoDup_sort_vertices|].
  intros e He. unfold of_lists in *. cbn [vertices edges] in *.
  rewrite !elem_of_sort_vertices, !elem_of_app.
  apply elem_of_sort_edges, list_elem_of_fmap in He as (x & -> & Hx).
  split; right; apply elem_of_endpoints; exists x; (split; [done|]).
  - destruct (norm_ends x) as [[Hs _]|[Hs _]]; unfold src in *; rewrite Hs; auto.
  - destruct (norm_ends x) as [[_ Hd]|[_ Hd]]; unfold dst in *; rewrite Hd; auto.
Qed.

Lemma kept_norm g e : kept g → e ∈ edges g → norm e = e.
Proof.
  intros Hk He. rewrite Hk in He. unfold of_lists in He. cbn [edges] in He.
  apply elem_of_sort_edges, list_elem_of_fmap in He as (x & -> & _). apply norm_idemp.
Qed.

Lemma kept_ext g g' :
  kept g → kept g' →
  (∀ v, v ∈ vertices g ↔ v ∈ vertices g') → edges g ≡ₚ edges g' → g = g'.
Proof.
  intros Hk Hk' Hv He. rewrite Hk, Hk'. apply of_lists_ext.
  - intros v. rewrite !elem_of_app, Hv, (endpoints_perm _ _ v He). tauto.
  - by rewrite He.
Qed.

Lemma kept_norm_edges g : kept g → norm <$> edges g = edges g.
Proof.
  intros Hk. rewrite <- (list_fmap_id (edges g)) at 2.
  apply list_fmap_ext. intros _ e He%list_elem_of_lookup_2. by apply (kept_norm g).
Qed.

Lemma add_edge_of_lists g e :
  kept g → add_edge g e = of_lists (vertices g) (e :: edges g).
Proof.
  intros Hk. pose proof (kept_graph_ok g Hk) as [_ Hin].
  unfold add_edge, of_lists. f_equal.
  - apply sort_vertices_unique. intros v.
    rewrite !elem_of_cons, elem_of_app, elem_of_endpoints.
    setoid_rewrite elem_of_cons. split.
    + intros [->|[->|?]]; [right; exists e; auto..|by left].
    + intros [?|(x & [->|Hx] & [<-|<-])]; auto; right; right; by apply Hin.
  - by rewrite fmap_cons, kept_norm_edges.
Qed.

Lemma kept_add_edge g e : kept g → kept (add_edge g e).
Proof. intros Hk. rewrite add_edge_of_lists by done. apply kept_of_lists. Qed.

Lemma StronglySorted_remove_first (x : vertex * vertex * label) es :
  StronglySorted edge_le es → StronglySorted edge_le (remove_first x es).
Proof.
  induction 1 as [|y es Hs IH Hall]; [constructor|]. simpl. case_decide; [done|].
  constructor; [done|]. apply Forall_forall. intros z Hz%elem_of_remove_first.
  by apply (proj1 (Forall_forall _ _) Hall).
Qed.

(** Removing the edge that was just added gives the graph back. *)
Lemma delete_add_edge g e :
  kept g → src e ∈ vertices g → dst e ∈ vertices g →
  delete_edge (add_edge g e) e = g.
Proof.
  intros Hk Hs Hd. pose proof (kept_graph_ok g Hk) as [_ Hin].
  destruct g as [V E]. unfold kept, of_lists in Hk. cbn [vertices edges] in *.
  injection Hk as HV HE.
  unfold delete_edge, add_edge. cbn [vertices edges]. f_equal.
  - etrans; [|symmetry; exact HV]. apply sort_vertices_unique. intros v.
    rewrite !elem_of_cons, elem_of_app, elem_of_endpoints. split.
    + intros [->|[->|?]]; auto.
    + intros [?|(x & Hx & [<-|<-])]; auto; right; right; by apply Hin.
  - apply (Sorted_unique edge_le).
    + apply StronglySorted_Sorted, StronglySorted_remove_first.
      apply (StronglySorted_merge_sort edge_le).
    + rewrite HE. apply (Sorted_merge_sort edge_le).
    + apply (Permutation_cons_inv (a := norm e)).
      rewrite <- remove_first_perm by (apply elem_of_sort_edges; left).
      apply sort_edges_perm.
Qed.

End sorted_graphs.

(** ** Copies *)

Section copying.
Context (M : GraphicMatroid) (Hwf : wf M).
Implicit Types (e : vertex * vertex * label) (Y : gset label).

Lemma input_edges_labelled (g : Graph label) :
  NoDup (lbl <$> edges g) → input_edges (labelled g) None = edges g.
Proof.
  intros Hnd. unfold input_edges. rewrite init_labels_labelled by done.
  unfold labelled. cbn [edges].
  rewrite zip_with_fmap_l, zip_with_fmap_r, zip_with_diag.
  rewrite <- (list_fmap_id (edges g)) at 2. apply list_fmap_ext.
  by intros _ [[??]?] _.
Qed.

Lemma connected_components_labelled (g : Graph label) :
  connected_components (labelled g) = connected_components g.
Proof. unfold connected_components. by rewrite pairs_labelled. Qed.

Lemma rebuilt_groundset : _groundset (__init__ (labelled (_G M)) None) = _groundset M.
Proof.
  rewrite init_labelled_groundset by apply (wf_labels M Hwf).
  symmetry. apply (wf_groundset M Hwf).
Qed.

Lemma rebuilt_rank Y :
  Y ⊆ _groundset M → _rank (__init__ (labelled (_G M)) None) Y = _rank M Y.
Proof.
  intros HY.
  rewrite (init_rank (labelled (_G M)) None).
  - rewrite input_edges_labelled by apply (wf_labels M Hwf).
    rewrite (_rank_within M Hwf Y HY). by rewrite rank_of_edges_rk.
  - apply graph_ok_labelled. by apply wf_graph_ok.
  - exact I.
  - by rewrite rebuilt_groundset.
Qed.

(** With at most one component nothing is joined, and the constructor
    gives the stored graph back. *)
Lemma rebuilt_graph :
  kept (_G M) → connected_components_number (_G M) ≤ 1 →
  _G (__init__ (labelled (_G M)) None) = _G M.
Proof.
  intros Hk Hc.
  assert (∀ v, lookup_vertex (init_vertex_map (labelled (_G M))) v = v) as Hid.
  { intros v. unfold init_vertex_map. rewrite connected_components_labelled.
    unfold connected_components_number in Hc.
    destruct (connected_components (_G M)) as [|c [|c' cs]]; simpl in *;
      [apply lookup_vertex_identity..|lia]. }
  unfold __init__. cbn [_G].
  rewrite (init_edge_list (labelled (_G M)) None).
  rewrite input_edges_labelled by apply (wf_labels M Hwf).
  assert (rename_edge (lookup_vertex (init_vertex_map (labelled (_G M)))) <$> edges (_G M)
          = edges (_G M)) as ->.
  { rewrite <- (list_fmap_id (edges (_G M))) at 2. apply list_fmap_ext.
    intros _ [[u v] l] _. unfold rename_edge. simpl. by rewrite !Hid. }
  etrans; [|symmetry; exact Hk]. apply of_lists_ext.
  - intros v. rewrite !elem_of_app. split.
    + intros [Hv%elem_of_nil|Hv]; [done|by right].
    + intros [Hv|Hv]; [|by right]. right. apply elem_of_endpoints.
      apply (wf_vertices M Hwf) in Hv as (e & He & Hv). by exists e.
  - done.
Qed.

Lemma blocks_within (V : list vertex) (es : list (vertex * vertex)) C x :
  C ∈ blocks V es → x ∈ C → x ∈ V.
Proof.
  unfold blocks. intros (r & -> & _)%list_elem_of_fmap Hx.
  by apply list_elem_of_filter in Hx as [_ Hx].
Qed.

(** With two components or more, the first vertex of the last one is
    renamed and leaves the graph. *)
Lemma rebuilt_graph_joined :
  2 ≤ connected_components_number (_G M) →
  vertices (_G (__init__ (labelled (_G M)) None)) ≠ vertices (_G M).
Proof.
  intros Hc.
  pose proof (graph_ok_labelled (_G M) (wf_graph_ok M Hwf)) as Hok.
  set (H := labelled (_G M)) in *.
  destruct (connected_components_classes H (reverse (connected_components H)) Hok)
    as [Hcl Hnd]; [apply reverse_Permutation|].
  assert (Forall (λ c : list vertex, c ≠ []) (reverse (connected_components H))) as Hne.
  { eapply Forall_impl; [exact Hcl|]. by intros ? [? _]. }
  assert (∀ C x, C ∈ reverse (connected_components H) → x ∈ C → x ∈ vertices (_G M))
    as Hin.
  { intros C x HC. rewrite reverse_Permutation in HC. unfold connected_components in HC.
    rewrite sort_components_perm in HC. intros Hx.
    apply (blocks_within _ _ C x HC Hx). }
  assert (∀ x, lookup_vertex (init_vertex_map H) x
               = match reverse (connected_components H) with
                 | [] => x
                 | comp :: prev => glue comp prev x
                 end) as Hm.
  { intros x. apply init_vertex_map_glue.
    by rewrite <- (reverse_Permutation (connected_components H)). }
  unfold connected_components_number in Hc.
  rewrite <- connected_components_labelled, <- length_reverse in Hc. fold H in Hc.
  destruct (reverse (connected_components H)) as [|comp [|c prev]]; simpl in Hc; [lia..|].
  set (h := default 0 (head comp)).
  assert (h ∈ comp) as Hh.
  { apply head_default_elem_of. by apply Forall_cons in Hne as [? _]. }
  assert (∀ x, x ∈ comp → x ∉ concat (c :: prev)) as Hdisj.
  { change (concat (comp :: c :: prev)) with (comp ++ concat (c :: prev)) in Hnd.
    apply NoDup_app in Hnd as (_ & Hd & _). exact Hd. }
  assert (∀ x, lookup_vertex (init_vertex_map H) x ≠ h) as Hnot.
  { intros x. rewrite Hm, glue_step by done. fold h. unfold rename1.
    assert (default 0 (last c) ≠ h) as Hl.
    { intros Heq. apply (Hdisj h Hh). apply elem_of_concat. exists c.
      split; [left|]. rewrite <- Heq. apply last_default_elem_of.
      apply Forall_cons in Hne as [_ Hne]. by apply Forall_cons in Hne as [? _]. }
    by case_decide. }
  intros Heq.
  assert (h ∈ vertices (_G M)) as Hv by (apply (Hin comp); [left|done]).
  rewrite <- Heq in Hv. unfold __init__ in Hv. cbn [_G] in Hv.
  apply elem_of_vertices_of_edges, elem_of_endpoints in Hv as (e & He & Hv).
  apply elem_of_zip_with in He as (x & l & -> & _ & _).
  unfold src, dst in Hv. simpl in Hv. destruct Hv as [Hv|Hv]; by apply Hnot in Hv.
Qed.

Lemma rebuilt_eq :
  kept (_G M) →
  __eq__ (__init__ (labelled (_G M)) None) (GraphicMatroid_instance M) = true
  ↔ connected_components_number (_G M) ≤ 1.
Proof.
  intros Hk. unfold __eq__, Graph_eq. rewrite andb_true_iff, !bool_decide_eq_true. split.
  - intros [Hv _]. destruct (decide (connected_components_number (_G M) ≤ 1)); [done|].
    exfalso. apply rebuilt_graph_joined; [lia|done].
  - intros Hc. by rewrite rebuilt_graph.
Qed.

End copying.

(** X16: a copy, shallow or deep, of a matroid built by the constructor has
    the ground set and the rank function of the original; it compares equal
    to the original exactly when the stored graph has at most one
    component. *)
Theorem X16_copy_keeps_matroid
    (G : Graph (option label)) (groundset : option (list (option label)))
    (Y : gset label) (N : GraphicMatroid) :
  valid_groundset G groundset →
  Y ⊆ _groundset (__init__ G groundset) →
  let M := __init__ G groundset in
  N = __copy__ M ∨ N = __deepcopy__ M →
  _groundset N = _groundset M ∧
  _rank N Y = _rank M Y ∧
  (__eq__ N (GraphicMatroid_instance M) = true
   ↔ connected_components_number (graph M) ≤ 1).
Proof.
  intros Hvalid HY M HN. pose proof (init_wf G groundset Hvalid) as Hwf.
  fold M in Hwf, HY.
  assert (N = __init__ (labelled (_G M)) None) as -> by (by destruct HN).
  assert (kept (_G M)) as Hk by apply kept_of_edges.
  clearbody M. split_and!.
  - by apply rebuilt_groundset.
  - by apply rebuilt_rank.
  - by apply rebuilt_eq.
Qed.

Lemma X16_witness :
  let G := Examples.unlabelled [(0, 1); (0, 2); (1, 2)] in
  let M := __init__ G None in
  _groundset (__copy__ M) = _groundset M ∧
  _rank (__copy__ M) {[0; 2]} = _rank M {[0; 2]} ∧
  (__eq__ (__copy__ M) (GraphicMatroid_instance M) = true
   ↔ connected_components_number (graph M) ≤ 1).
Proof.
  apply (X16_copy_keeps_matroid
           (Examples.unlabelled [(0, 1); (0, 2); (1, 2)]) None {[0; 2]}).
  - exact I.
  - apply (bool_decide_unpack _). vm_compute. exact I.
  - by left.
Defined.

(** ** Extension by an edge *)

Lemma init_labelled_rank (g : Graph label) (Y : gset label) :
  graph_ok g → NoDup (lbl <$> edges g) → Y ⊆ list_to_set (lbl <$> edges g) →
  _rank (__init__ (labelled g) None) Y
  = Ok (Z.of_nat (rk (ends <$> filter (λ e, lbl e ∈ Y) (edges g)))).
Proof.
  intros Hok Hnd HY. rewrite (init_rank (labelled g) None).
  - by rewrite input_edges_labelled, rank_of_edges_rk.
  - by apply graph_ok_labelled.
  - exact I.
  - by rewrite init_labelled_groundset.
Qed.

Lemma filter_ext_in {A} (P Q : A → Prop) `{!∀ x, Decision (P x), !∀ x, Decision (Q x)}
    (l : list A) :
  (∀ x, x ∈ l → P x ↔ Q x) → filter P l = filter Q l.
Proof.
  induction l as [|a l IH]; intros Hl; [done|]. rewrite !filter_cons.
  rewrite IH by (intros y Hy; apply Hl; by right).
  destruct (decide (P a)) as [Ha|Ha], (decide (Q a)) as [Hb|Hb]; try done;
    exfalso; apply (Hl a) in Ha || apply (Hl a) in Hb; try done; left.
Qed.

Section extension.
Context (g : Graph label) (Hok : graph_ok g) (Hnd : NoDup (lbl <$> edges g)).
Context (u w : vertex) (x : label) (Hx : x ∉ lbl <$> edges g).
Implicit Types (e : vertex * vertex * label) (Y : gset label).

#[local] Abbreviation G' := (add_edge g (u, w, x)).
#[local] Abbreviation N := (__init__ (labelled G') None).

Lemma extended_labels : lbl <$> edges G' ≡ₚ x :: (lbl <$> edges g).
Proof. by rewrite edges_add_edge, fmap_cons, lbl_norm. Qed.

Lemma extended_NoDup : NoDup (lbl <$> edges G').
Proof. rewrite extended_labels. by apply NoDup_cons. Qed.

Lemma extended_graph_ok : graph_ok G'.
Proof. by apply graph_ok_add_edge. Qed.

Lemma extended_groundset : _groundset N = {[x]} ∪ list_to_set (lbl <$> edges g).
Proof.
  rewrite init_labelled_groundset by apply extended_NoDup.
  apply set_eq. intros l.
  rewrite elem_of_union, elem_of_singleton, !elem_of_list_to_set, extended_labels.
  by rewrite elem_of_cons.
Qed.

Lemma extended_within Y :
  Y ⊆ list_to_set (lbl <$> edges g) →
  filter (λ e, lbl e ∈ Y) (edges G') ≡ₚ filter (λ e, lbl e ∈ Y) (edges g) ∧
  filter (λ e, lbl e ∈ {[x]} ∪ Y) (edges G')
  ≡ₚ norm (u, w, x) :: filter (λ e, lbl e ∈ Y) (edges g).
Proof.
  intros HY. rewrite !edges_add_edge, !filter_cons, lbl_norm.
  change (lbl (u, w, x)) with x.
  rewrite decide_False.
  2:{ intros Hin. apply Hx. apply HY in Hin. by apply elem_of_list_to_set in Hin. }
  rewrite decide_True by (clear; set_solver).
  split; [done|]. f_equiv. apply eq_subrelation; [apply _|].
  apply filter_ext_in. intros e He.
  rewrite elem_of_union, elem_of_singleton. split; [|by right].
  intros [Hl|?]; [|done]. exfalso. apply Hx. rewrite <- Hl.
  apply list_elem_of_fmap. by exists e.
Qed.

Lemma extended_rank_old Y :
  Y ⊆ list_to_set (lbl <$> edges g) →
  _rank N Y = Ok (Z.of_nat (rk (ends <$> filter (λ e, lbl e ∈ Y) (edges g)))).
Proof.
  intros HY. rewrite init_labelled_rank.
  - do 2 f_equal. apply rk_perm, fmap_Permutation. by apply extended_within.
  - apply extended_graph_ok.
  - apply extended_NoDup.
  - rewrite <- init_labelled_groundset by apply extended_NoDup.
    rewrite extended_groundset. clear -HY. set_solver.
Qed.

Lemma extended_rank_new Y :
  Y ⊆ list_to_set (lbl <$> edges g) →
  _rank N ({[x]} ∪ Y)
  = Ok (Z.of_nat (rk ((u, w) :: (ends <$> filter (λ e, lbl e ∈ Y) (edges g))))).
Proof.
  intros HY. rewrite init_labelled_rank.
  - do 2 f_equal. destruct (extended_within Y HY) as [_ Hp].
    rewrite (rk_perm _ _ (fmap_Permutation ends _ _ Hp)), fmap_cons.
    destruct (ends_norm (u, w, x)) as [->| ->]; [done|]. simpl. apply rk_flip.
  - apply extended_graph_ok.
  - apply extended_NoDup.
  - rewrite <- init_labelled_groundset by apply extended_NoDup.
    rewrite extended_groundset. clear -HY. set_solver.
Qed.

(** An edge from a vertex to itself adds a loop. *)
Lemma extended_loop : w = u → _rank N {[x]} = Ok 0%Z.
Proof.
  intros Hw. rewrite <- (union_empty_r_L {[x]}).
  rewrite extended_rank_new by apply empty_subseteq.
  rewrite (proj1 (rk_cons _ u w)) by (by rewrite Hw).
  destruct (filter _ (edges g)) as [|e es] eqn:He; [done|]. exfalso.
  assert (e ∈ e :: es) as Hin by left. rewrite <- He in Hin.
  apply list_elem_of_filter in Hin as [Hin _]. by apply elem_of_empty in Hin.
Qed.

End extension.

Section matroid_extension.
Context (M : GraphicMatroid) (Hwf : wf M).
Context (u w : vertex) (x : label) (Hx : x ∉ _groundset M).
Implicit Types (Y : gset label).

#[local] Abbreviation N := (__init__ (labelled (add_edge (graph M) (u, w, x))) None).

Lemma new_label : x ∉ lbl <$> edges (_G M).
Proof.
  intros Hin. apply Hx. rewrite (wf_groundset M Hwf). by apply elem_of_list_to_set.
Qed.

Lemma matroid_extension_spec Y :
  Y ⊆ _groundset M →
  ∃ r, _groundset N = {[x]} ∪ _groundset M ∧
    _rank M Y = Ok r ∧
    _rank N Y = Ok r ∧
    (conn (ends <$> edges_within M Y) u w → _rank N ({[x]} ∪ Y) = Ok r) ∧
    (¬ conn (ends <$> edges_within M Y) u w → _rank N ({[x]} ∪ Y) = Ok (r + 1)%Z) ∧
    (w = u → _rank N {[x]} = Ok 0%Z).
Proof.
  intros HY. pose proof (wf_graph_ok M Hwf) as Hok.
  pose proof (wf_labels M Hwf) as Hnd. pose proof new_label as Hx'.
  assert (Y ⊆ list_to_set (lbl <$> edges (_G M))) as HY'
    by (by rewrite <- (wf_groundset M Hwf)).
  exists (Z.of_nat (rk (ends <$> edges_within M Y))). unfold graph. split_and!.
  - rewrite extended_groundset by done. by rewrite <- (wf_groundset M Hwf).
  - by apply _rank_within.
  - by rewrite extended_rank_old.
  - unfold edges_within. intros Hc. rewrite extended_rank_new by done.
    by rewrite (proj1 (rk_cons _ u w) Hc).
  - unfold edges_within. intros Hc. rewrite extended_rank_new by done.
    rewrite (proj2 (rk_cons _ u w) Hc). f_equal. lia.
  - by apply extended_loop.
Qed.

End matroid_extension.

(** X17: [graphic_extension] fails exactly when the given element is already
    in the ground set, with "cannot extend by element already in groundset".
    Otherwise the result has one more element [x] (the given one, or a fresh
    label), every set of old elements keeps its rank, and adding [x] to such
    a set [Y] raises the rank by one exactly when no walk along edges of [Y]
    joins [u] and [v]; with [v] omitted or equal to [u] the new element is a
    loop. *)
Theorem X17_graphic_extension_adds_an_edge
    (G : Graph (option label)) (groundset : option (list (option label)))
    (u : vertex) (v : option vertex) (element : option label) (Y : gset label) :
  valid_groundset G groundset →
  Y ⊆ _groundset (__init__ G groundset) →
  let M := __init__ G groundset in
  let w := default u v in
  match graphic_extension M u v element with
  | Raise err => err = DuplicateElement ∧ ∃ x, element = Some x ∧ x ∈ _groundset M
  | Ok N =>
      ∃ x r, x ∉ _groundset M ∧ (∀ y, element = Some y → y = x) ∧
        _groundset N = {[x]} ∪ _groundset M ∧
        _rank M Y = Ok r ∧ _rank N Y = Ok r ∧
        (conn (ends <$> edges_within M Y) u w → _rank N ({[x]} ∪ Y) = Ok r) ∧
        (¬ conn (ends <$> edges_within M Y) u w →
           _rank N ({[x]} ∪ Y) = Ok (r + 1)%Z) ∧
        (w = u → _rank N {[x]} = Ok 0%Z)
  end.
Proof.
  intros Hvalid HY M w. pose proof (init_wf G groundset Hvalid) as Hwf.
  fold M in Hwf, HY. clearbody M.
  assert (∀ x, x ∉ _groundset M →
    ∃ r, _groundset (__init__ (labelled (add_edge (graph M) (u, w, x))) None)
         = {[x]} ∪ _groundset M ∧
      _rank M Y = Ok r ∧
      _rank (__init__ (labelled (add_edge (graph M) (u, w, x))) None) Y = Ok r ∧
      (conn (ends <$> edges_within M Y) u w →
       _rank (__init__ (labelled (add_edge (graph M) (u, w, x))) None) ({[x]} ∪ Y) = Ok r) ∧
      (¬ conn (ends <$> edges_within M Y) u w →
       _rank (__init__ (labelled (add_edge (graph M) (u, w, x))) None) ({[x]} ∪ Y)
       = Ok (r + 1)%Z) ∧
      (w = u → _rank (__init__ (labelled (add_edge (graph M) (u, w, x))) None) {[x]}
               = Ok 0%Z)) as Hext.
  { intros x Hx. by apply matroid_extension_spec. }
  unfold graphic_extension, new_element.
  destruct element as [y|].
  - case_decide as Hy; simpl.
    + split; [done|]. by exists y.
    + destruct (Hext y Hy) as (r & Hr). exists y, r. split_and!; [done| |apply Hr..].
      by intros ? [= ->].
  - simpl. assert (newlabel (_groundset M) ∉ _groundset M) as Hn by apply is_fresh.
    destruct (Hext _ Hn) as (r & Hr). exists (newlabel (_groundset M)), r.
    split_and!; [done|done|apply Hr..].
Qed.

Lemma X17_witness :
  let G := Examples.unlabelled [(0, 1); (0, 2); (1, 2)] in
  let M := __init__ G None in
  match graphic_extension M 0 (Some 1) (Some 7) with
  | Raise err => err = DuplicateElement ∧ ∃ x, Some 7 = Some x ∧ x ∈ _groundset M
  | Ok N =>
      ∃ x r, x ∉ _groundset M ∧ (∀ y, Some 7 = Some y → y = x) ∧
        _groundset N = {[x]} ∪ _groundset M ∧
        _rank M {[1]} = Ok r ∧ _rank N {[1]} = Ok r ∧
        (conn (ends <$> edges_within M {[1]}) 0 1 → _rank N ({[x]} ∪ {[1]}) = Ok r) ∧
        (¬ conn (ends <$> edges_within M {[1]}) 0 1 →
           _rank N ({[x]} ∪ {[1]}) = Ok (r + 1)%Z) ∧
        (1 = 0 → _rank N {[x]} = Ok 0%Z)
  end.
Proof.
  apply (X17_graphic_extension_adds_an_edge
           (Examples.unlabelled [(0, 1); (0, 2); (1, 2)]) None 0 (Some 1) (Some 7) {[1]}).
  - exact I.
  - apply (bool_decide_unpack _). vm_compute. exact I.
Defined.

(** ** Coextension by splitting a vertex *)





Section contraction_of_a_pair.
Implicit Types (P : list (vertex * vertex)) (h t a b : vertex).



End contraction_of_a_pair.

Section splitting.
Context (u v : vertex) (Huv : u ≠ v).
Implicit Types (e : vertex * vertex * label) (es cur : list (vertex * vertex * label))
  (g : Graph label) (V : list vertex).






End splitting.

Section coextension.
Context (M : GraphicMatroid) (Hwf : wf M).
Implicit Types (e : vertex * vertex * label) (Y : gset label) (X : list label).




End coextension.


